(** * Range index of the AI-inspection extension

    Shallow embedding of [ast-btree.ts] (classes [Range], [NumberRange],
    [RangeBinTree], function [forEachIter]) and of the parts of the extension
    entry point that use it ([VSCodeRange], [findEnclosingBlock], the results
    callback of [checkCode]).

    Numbers are modelled as [Z]: every number the index sees is a byte
    offset, a line, a column or a difference of two of them. *)

From Stdlib Require Import ZArith List Bool Lia String Ascii Permutation Sorted.
From Stdlib Require DecimalString.
Import ListNotations.
Local Open Scope Z_scope.

Set Implicit Arguments.
Set Warnings "-register-all".

(* ================================================================== *)
(** ** [Range<T>] *)

(** [function compareNumbers(a, b) { return a - b; }] *)
Definition compareNumbers (a b : Z) : Z := a - b.

(** [class Range<T>]: the two bounds and the comparator given to the
    constructor.  [end] is a keyword, the upper bound is [end_]. *)
Record Range (T : Type) : Type := mkRange {
  start : T;
  end_ : T;
  comparator : T -> T -> Z
}.

Section RangeOps.
Variable T : Type.

(** [contains(n)]: [cmp(start, n) <= 0 && cmp(n, end) <= 0]. *)
Definition contains (this : Range T) (n : T) : bool :=
  (comparator this (start this) n <=? 0) && (comparator this n (end_ this) <=? 0).

(** [intersects(range)]: [contains(range.start) || contains(range.end)]. *)
Definition intersects (this range : Range T) : bool :=
  contains this (start range) || contains this (end_ range).

(** [inside(range)]: [cmp(start, range.start) >= 0 && cmp(end, range.end) <= 0]. *)
Definition inside (this range : Range T) : bool :=
  (comparator this (start this) (start range) >=? 0)
  && (comparator this (end_ this) (end_ range) <=? 0).

(** [compare(other)]: the start bounds decide, the end bounds break ties. *)
Definition compare (this other : Range T) : Z :=
  let comp1 := comparator this (start this) (start other) in
  if negb (comp1 =? 0) then comp1
  else comparator this (end_ this) (end_ other).
End RangeOps.

(** [class NumberRange extends Range<number>]. *)
Definition NumberRange (s e : Z) : Range Z := mkRange s e compareNumbers.

(** A range of the second kind the extension builds: [vscode.Position] bounds
    ordered by line, then by character. *)
Record Position : Type := mkPosition { line : Z; character : Z }.

Definition comparePositions (p1 p2 : Position) : Z :=
  if negb (line p1 =? line p2) then line p1 - line p2
  else character p1 - character p2.

(** [class VSCodeRange extends Range<vscode.Position>]. *)
Definition VSCodeRange (s e : Position) : Range Position :=
  mkRange s e comparePositions.

(* ================================================================== *)
(** ** [forEachIter] *)

(** [forEachIter(it, applyFn, breakFn)]: the [while] loop takes the
    iterator's values one by one and stops at the end of the iterator or at
    the first value on which [breakFn] answers true.  An iterator is the
    list of the values it still has to yield; the effect of [applyFn] is a
    transformation of the state [St] its closure writes to. *)
Fixpoint forEachIter (A St : Type) (it : list A) (applyFn : A -> St -> St)
    (breakFn : A -> bool) (s : St) : St :=
  match it with
  | [] => s
  | value :: it' =>
      if breakFn value then s
      else forEachIter it' applyFn breakFn (applyFn value s)
  end.

(** The default of the third parameter: [_ => false]. *)
Definition neverBreak (A : Type) (_ : A) : bool := false.

(* ================================================================== *)
(** ** The ordered map *)

(** Modelled from the spec: the [TreeMap] class of the package [ts-treemap]
    is imported, its code is not part of the repository.  The model is the
    contract of the ordered interval map: the entries in ascending key order,
    keys compared by the map's comparison function only; [set] inserts or
    overwrites the entry whose key compares equal, [delete] removes it,
    [splitLower(key)] is the part with keys at most [key],
    [splitHigher(key, false)] the part with keys above [key], [reverseKeys]
    runs through the keys downwards and [entries] through the entries
    upwards.  For keys with a [compare] method the comparison function is
    [(a, b) => a.compare(b)]; here the key in the map is [a] and the key
    asked for is [b].  A split is a map of its own: what its iterators yield
    does not change when an entry is deleted from the map it was taken
    from. *)
Definition TreeMap (K V : Type) : Type := list (K * V).

Section TreeMapOps.
Variables K V : Type.
Variable compareFn : K -> K -> Z.

Definition get (key : K) (m : TreeMap K V) : option V :=
  option_map snd (List.find (fun e => compareFn (fst e) key =? 0) m).

Definition has (key : K) (m : TreeMap K V) : bool :=
  existsb (fun e => compareFn (fst e) key =? 0) m.

Fixpoint set (key : K) (value : V) (m : TreeMap K V) : TreeMap K V :=
  match m with
  | [] => [(key, value)]
  | (k, x) :: m' =>
      let c := compareFn k key in
      if c >? 0 then (key, value) :: m
      else if c =? 0 then (key, value) :: m'
      else (k, x) :: set key value m'
  end.

Definition delete (key : K) (m : TreeMap K V) : TreeMap K V :=
  filter (fun e => negb (compareFn (fst e) key =? 0)) m.

Definition splitLower (key : K) (include : bool) (m : TreeMap K V) : TreeMap K V :=
  filter (fun e => if include then compareFn (fst e) key <=? 0
                   else compareFn (fst e) key <? 0) m.

Definition splitHigher (key : K) (include : bool) (m : TreeMap K V) : TreeMap K V :=
  filter (fun e => if include then compareFn (fst e) key >=? 0
                   else compareFn (fst e) key >? 0) m.

Definition keys (m : TreeMap K V) : list K := map fst m.
Definition values (m : TreeMap K V) : list V := map snd m.
Definition entries (m : TreeMap K V) : list (K * V) := m.
Definition reverseKeys (m : TreeMap K V) : list K := rev (keys m).
End TreeMapOps.

(* ================================================================== *)
(** ** [RangeBinTree<T, RType>] *)

(** A node: its value, its range and the map of its children.  The methods
    that change [_children] return the node with the changed map. *)
Inductive RangeBinTree (T RType : Type) : Type :=
  mkTree : T -> Range RType -> TreeMap (Range RType) (RangeBinTree T RType)
           -> RangeBinTree T RType.

Section RangeBinTreeOps.
Variables T RType : Type.

Local Abbreviation Tree := (RangeBinTree T RType).
Local Abbreviation Key := (Range RType).

Definition node (this : Tree) : T := let (n, _, _) := this in n.
Definition range (this : Tree) : Key := let (_, r, _) := this in r.
Definition children (this : Tree) : TreeMap Key Tree := let (_, _, c) := this in c.

(** [new RangeBinTree(range, node)]: the children map starts empty. *)
Definition newRangeBinTree (rng : Key) (n : T) : Tree := mkTree n rng [].

Definition with_children (this : Tree) (c : TreeMap Key Tree) : Tree :=
  mkTree (node this) (range this) c.

(** [addChildNode(child)]: [this._children.set(child.range, child)]. *)
Definition addChildNode (this child : Tree) : Tree :=
  with_children this (set (@compare RType) (range child) child (children this)).

(** [addChild(range, child)]. *)
Definition addChild (this : Tree) (rng : Key) (child : T) : Tree :=
  addChildNode this (newRangeBinTree rng child).

(** [addChildren(children)]: [children.forEach(p => this.addChild(p[0], p[1]))]. *)
Definition addChildren (this : Tree) (cs : list (Key * T)) : Tree :=
  fold_left (fun t p => addChild t (fst p) (snd p)) cs this.

(** [remove(range)]: [this.children.delete(range)]. *)
Definition remove (this : Tree) (rng : Key) : Tree :=
  with_children this (delete (@compare RType) rng (children this)).

(** [removeAll(ranges)]. *)
Definition removeAll (this : Tree) (ranges : list Key) : Tree :=
  forEachIter ranges (fun r t => remove t r) (@neverBreak Key) this.

(** [forEachChildren(processFn)]: the children's values in ascending key
    order, handed to [processFn]. *)
Definition forEachChildren (St : Type) (this : Tree) (processFn : T -> St -> St)
    (s : St) : St :=
  fold_left (fun acc n => processFn (node n) acc) (values (children this)) s.

(** [forEach(processFn)]: the node's own value first. *)
Definition forEach (St : Type) (this : Tree) (processFn : T -> St -> St) (s : St) : St :=
  forEachChildren this processFn (processFn (node this) s).

(** The test both scans stop on:
    [r => !r.intersects(range) && !r.inside(range)]. *)
Definition breakFn (rng r : Key) : bool :=
  negb (intersects r rng) && negb (inside r rng).

(** An entry handed to [processFn].  The lower scan builds it as
    [[r, this._children.get(r)!]]: the assertion [!] checks nothing when the
    program runs, so the second component is [None] where [get] answers
    [undefined]. *)
Definition Entry : Type := (Key * option Tree)%type.

(** [processIntersecting(range, processFn)].  The state is the node together
    with whatever else the closure [processFn] writes to.  The iterator of
    the higher part is made after the lower scan has run, from the map as it
    is then. *)
Definition processIntersecting (A : Type) (rng : Key)
    (processFn : option (Entry -> Tree * A -> Tree * A))
    (s : Tree * A) : Tree * A :=
  match processFn with
  | None => s
  | Some processFn =>
      let lowerKeysIter :=
        reverseKeys (splitLower (@compare RType) rng true (children (fst s))) in
      let s1 :=
        forEachIter lowerKeysIter
          (fun r s' => processFn (r, get (@compare RType) r (children (fst s'))) s')
          (breakFn rng) s in
      let higherEntriesIter :=
        entries (splitHigher (@compare RType) rng false (children (fst s1))) in
      forEachIter higherEntriesIter
        (fun entry s' => processFn (fst entry, Some (snd entry)) s')
        (fun entry => breakFn rng (fst entry)) s1
  end.

(** [removeIntersecting(range)]: [entry => this.remove(entry[0])]. *)
Definition removeIntersecting (this : Tree) (rng : Key) : Tree :=
  fst (processIntersecting rng
         (Some (fun (entry : Entry) (s : Tree * unit) => (remove (fst s) (fst entry), snd s)))
         (this, tt)).

(** [replaceIntersecting(range, value)]. *)
Definition replaceIntersecting (this : Tree) (rng : Key) (value : T) : Tree :=
  addChild (removeIntersecting this rng) rng value.

(** [find(range)]: [entry => nodes.push(entry[1])].  An element [None] of
    the result is an [undefined] element of the array. *)
Definition find (this : Tree) (rng : Key) : list (option Tree) :=
  snd (processIntersecting rng
         (Some (fun (entry : Entry) (s : Tree * list (option Tree)) =>
                  (fst s, snd s ++ [snd entry])))
         (this, [])).

(** [find] as the earlier revision of the class has it, with the two scans
    written out in the method. *)
Definition find_inline (this : Tree) (rng : Key) : list (option Tree) :=
  let nodes := [] in
  let lowerKeysIter :=
    reverseKeys (splitLower (@compare RType) rng true (children this)) in
  let nodes :=
    forEachIter lowerKeysIter
      (fun r nodes => nodes ++ [get (@compare RType) r (children this)])
      (breakFn rng) nodes in
  let higherEntriesIter :=
    entries (splitHigher (@compare RType) rng false (children this)) in
  forEachIter higherEntriesIter
    (fun entry nodes => nodes ++ [Some (snd entry)])
    (fun entry => breakFn rng (fst entry)) nodes.
End RangeBinTreeOps.

(** Height of a node, the bound of every descent through the tree. *)
Fixpoint height (T RType : Type) (t : RangeBinTree T RType) : nat :=
  match t with
  | mkTree _ _ c => S (list_max (map (fun e => height (snd e)) c))
  end.

(* ================================================================== *)
(** ** The syntax tree index: [findEnclosingBlock] *)

(** Modelled from the spec: [treesitter.Node] is a class of the package
    [web-tree-sitter]; of a node the lookup reads the syntactic category
    [type], the number of children [childCount] and [parent], which is
    [null] ([None]) at the root. *)
Inductive Node : Type :=
  mkNode { type : string; childCount : Z; parent : option Node }.

(** What a call comes to: a returned value, a [TypeError] (a property read
    on [undefined]), or a loop the fuel did not suffice for. *)
Inductive Outcome (A : Type) : Type :=
  | Returned (a : A)
  | TypeError
  | OutOfFuel.
Arguments TypeError {A}.
Arguments OutOfFuel {A}.

(** The [while] loop of [findEnclosingBlock], one unit of fuel for each pass
    that goes on to the next level. *)
Fixpoint findEnclosingBlock_loop (fuel : nat) (rng : Range Z)
    (grabParentBlock : bool) (enclosings : list (option (RangeBinTree Node Z)))
    (result : option Node) : Outcome (option Node) :=
  match enclosings with
  | [] => Returned result
  | None :: _ => TypeError
  | Some treeNode :: _ =>
      if (childCount (node treeNode) =? 0) || negb (inside rng (range treeNode))
      then Returned result
      else
        match fuel with
        | O => OutOfFuel
        | S fuel' =>
            let result' :=
              if String.eqb (type (node treeNode)) "block"
              then (if grabParentBlock then parent (node treeNode)
                    else Some (node treeNode))
              else result in
            findEnclosingBlock_loop fuel' rng grabParentBlock
              (find treeNode rng) result'
        end
  end.

(** [findEnclosingBlock(tree, range, grabParentBlock)]. *)
Definition findEnclosingBlock (tree : RangeBinTree Node Z) (rng : Range Z)
    (grabParentBlock : bool) : Outcome (option Node) :=
  findEnclosingBlock_loop (height tree) rng grabParentBlock (find tree rng) None.

(* ================================================================== *)
(** ** [addChildNodes]: a method handed over without its receiver *)

Section UnboundMethod.
Variables T RType : Type.
Local Abbreviation Tree := (RangeBinTree T RType).

(** [addChildNode] called with [receiver] for [this]; [None] is [undefined],
    on which the read of [this._children] is a [TypeError]. *)
Definition addChildNode_called (receiver : option Tree) (child : Tree)
    : Outcome Tree :=
  match receiver with
  | Some this => Returned (addChildNode this child)
  | None => TypeError
  end.

(** [addChildNodes(children)]: [children.forEach(this.addChildNode)].  The
    method is read off the object and called by [forEach] as a plain
    function, so [this] is [undefined] in it (the body of a class is strict
    code); a call that returned would leave the node as it is. *)
Fixpoint addChildNodes (this : Tree) (cs : list Tree) : Outcome Tree :=
  match cs with
  | [] => Returned this
  | child :: cs' =>
      match addChildNode_called None child with
      | Returned _ => addChildNodes this cs'
      | TypeError => TypeError
      | OutOfFuel => OutOfFuel
      end
  end.
End UnboundMethod.

(* ================================================================== *)
(** ** The index of a syntax tree: [createRangeBTreeNode] *)

(** Modelled from the spec: a node of the tree the parser of
    [web-tree-sitter] returns, as [createRangeBTreeNode] reads it: its
    category [type], the offsets [startIndex] and [endIndex] of its text and
    its [children], none of them [null]. *)
Inductive SyntaxNode : Type :=
  mkSyntax { syntaxType : string; startIndex : Z; endIndex : Z;
             syntaxChildren : list SyntaxNode }.

(** The [treesitter.Node] the index stores for a syntax node that hangs from
    [up], as the lookup reads it: [childCount] is the number of its children
    and [parent] the node it hangs from. *)
Definition nodeOf (up : option Node) (n : SyntaxNode) : Node :=
  mkNode (syntaxType n) (Z.of_nat (List.length (syntaxChildren n))) up.

(** [createRangeBTreeNode(n)]:
    [n.children.map(child => createRangeBTreeNode(child!)).forEach(t => node.addChildNode(t))]. *)
Fixpoint createRangeBTreeNode (up : option Node) (n : SyntaxNode)
    : RangeBinTree Node Z :=
  let node :=
    newRangeBinTree (NumberRange (startIndex n) (endIndex n)) (nodeOf up n) in
  fold_left (fun node t => addChildNode node t)
    (map (createRangeBTreeNode (Some (nodeOf up n))) (syntaxChildren n)) node.

(* ================================================================== *)
(** ** The diagnostics index: the results callback of [checkCode] *)

(** [interface AnalysisReport].  The field [line] of a location is
    [reportLine] here, [line] being a field of [Position]. *)
Record ReportLocation : Type := mkLocation { reportLine : Z; snippet : string }.
Record AnalysisReport : Type := mkReport {
  issue : string;
  description : string;
  location : ReportLocation
}.

(** Modelled from the spec: [vscode.Diagnostic] and [vscode.Range] belong to
    the editor host.  A range is its two positions, the earlier one first; a
    diagnostic is a range, a message and a severity, which is [Error] when
    the constructor is given none. *)
Inductive DiagnosticSeverity : Type :=
  | SeverityError | SeverityWarning | SeverityInformation | SeverityHint.

Definition vscodeRange (a b : Position) : Position * Position :=
  if comparePositions a b <=? 0 then (a, b) else (b, a).

Record Diagnostic : Type := mkDiagnostic {
  diagRange : Position * Position;
  message : string;
  severity : DiagnosticSeverity
}.

(** Modelled from the spec: a [vscode.TextDocument] is its identifier and the
    text of each line, [doc.getText(new vscode.Range(line, 0, line, MAX))];
    [None] is the answer [undefined] the callback tests for. *)
Record TextDocument : Type := mkDocument {
  uri : string;
  getLineText : Z -> option string
}.

Definition MAX_SAFE_INTEGER : Z := 9007199254740991.

(** [lineText.indexOf(snippet)]: the position of the first occurrence, [-1]
    when there is none. *)
Fixpoint indexOfFrom (text snip : string) (i : Z) : Z :=
  if String.prefix snip text then i
  else match text with
       | EmptyString => -1
       | String _ text' => indexOfFrom text' snip (i + 1)
       end.

Definition indexOf (text snip : string) : Z := indexOfFrom text snip 0.

(** The callback of [results.map]: the range of one finding, [None] for the
    [undefined] of the two early returns. *)
Definition resolveRange (doc : TextDocument) (result : AnalysisReport)
    : option (Range Position) :=
  let line := reportLine (location result) - 1 in
  match getLineText doc line with
  | None => None
  | Some lineText =>
      let offset := indexOf lineText (snippet (location result)) in
      if offset <? 0 then None
      else Some (VSCodeRange
                   (mkPosition line offset)
                   (mkPosition line
                      (offset + Z.of_nat (String.length (snippet (location result))))))
  end.

(** The maps of the module, from document identifiers. *)
Definition UriMap (V : Type) : Type := string -> option V.

Definition uriSet (V : Type) (u : string) (v : V) (m : UriMap V) : UriMap V :=
  fun u' => if String.eqb u' u then Some v else m u'.

Definition DiagTree : Type := RangeBinTree Diagnostic Position.

(** [diagnosticsTree.get(doc.uri)?.method(...)]: the tree stored for the
    document changes, nothing happens when there is none. *)
Definition onTree (u : string) (f : DiagTree -> DiagTree) (m : UriMap DiagTree)
    : UriMap DiagTree :=
  match m u with
  | Some t => uriSet u (f t) m
  | None => m
  end.

(** [array.forEach((x, index) => ...)]. *)
Fixpoint forEachIndexedFrom (A St : Type) (index : nat) (l : list A)
    (f : A -> nat -> St -> St) (s : St) : St :=
  match l with
  | [] => s
  | x :: l' => forEachIndexedFrom (S index) l' f (f x index s)
  end.

(** The root the callback stores for a document that has no tree yet. *)
Definition stubTree : DiagTree :=
  newRangeBinTree
    (VSCodeRange (mkPosition 0 0) (mkPosition MAX_SAFE_INTEGER MAX_SAFE_INTEGER))
    (mkDiagnostic
       (vscodeRange (mkPosition 0 0) (mkPosition MAX_SAFE_INTEGER MAX_SAFE_INTEGER))
       "stub" SeverityError).

(** The first loop: [ranges.forEach(r => r && tree?.removeIntersecting(r))]. *)
Definition removeResolved (u : string) (ranges : list (option (Range Position)))
    (m : UriMap DiagTree) : UriMap DiagTree :=
  fold_left
    (fun m r => match r with
                | Some r => onTree u (fun t => removeIntersecting t r) m
                | None => m
                end)
    ranges m.

(** The second loop: [ranges.forEach((range, index) => ...)].  [results] and
    [ranges] have the same length, so [results[index]] is there; were it
    not, reading [description] of it would end the callback. *)
Definition addResolved (u : string) (results : list AnalysisReport)
    (ranges : list (option (Range Position))) (m : UriMap DiagTree)
    : UriMap DiagTree :=
  forEachIndexedFrom 0 ranges
    (fun rng index m =>
       match rng with
       | None => m
       | Some rng =>
           match nth_error results index with
           | None => m
           | Some result =>
               let diag :=
                 mkDiagnostic (vscodeRange (start rng) (end_ rng))
                   (description result) SeverityWarning in
               onTree u (fun t => addChild t rng diag) m
           end
       end)
    m.

(** The state the callback works on. *)
Record ExtState : Type := mkState {
  diagnosticsTree : UriMap DiagTree;
  golangDiagnosticCollection : UriMap (list Diagnostic);
  analysisResults : UriMap (list AnalysisReport)
}.

(** The callback [results => { ... }] that [checkCode] hands to
    [inspectCode]. *)
Definition resultsProcessor (doc : TextDocument) (results : list AnalysisReport)
    (st : ExtState) : ExtState :=
  let trees :=
    match diagnosticsTree st (uri doc) with
    | Some _ => diagnosticsTree st
    | None => uriSet (uri doc) stubTree (diagnosticsTree st)
    end in
  let ranges := map (resolveRange doc) results in
  let trees := removeResolved (uri doc) ranges trees in
  let trees := addResolved (uri doc) results ranges trees in
  let documentDiagnostics :=
    match trees (uri doc) with
    | Some t => forEachChildren t (fun diag acc => acc ++ [diag]) []
    | None => []
    end in
  mkState trees
    (uriSet (uri doc) documentDiagnostics (golangDiagnosticCollection st))
    (uriSet (uri doc) results (analysisResults st)).

(** The callback as the earlier revision of [checkCode] has it: there is no
    tree; the diagnostics of the findings that resolve are collected in the
    order of the batch and published. *)
Definition resultsProcessor_earlier (doc : TextDocument)
    (results : list AnalysisReport) (st : ExtState) : ExtState :=
  let documentDiagnostics :=
    fold_left
      (fun documentDiagnostics result =>
         let line := reportLine (location result) - 1 in
         match getLineText doc line with
         | None => documentDiagnostics
         | Some lineText =>
             let offset := indexOf lineText (snippet (location result)) in
             if offset <? 0 then documentDiagnostics
             else
               let diag :=
                 mkDiagnostic
                   (vscodeRange
                      (mkPosition line offset)
                      (mkPosition line
                         (offset
                          + Z.of_nat (String.length (snippet (location result))))))
                   (description result) SeverityWarning in
               documentDiagnostics ++ [diag]
         end)
      results [] in
  mkState (diagnosticsTree st)
    (uriSet (uri doc) documentDiagnostics (golangDiagnosticCollection st))
    (uriSet (uri doc) results (analysisResults st)).

(* ================================================================== *)
(** ** The text sent to the model: [addLineComments], [performCodeCheck] *)

Definition newline : ascii := "010"%char.

(** [sourceCode.split('\n')]. *)
Fixpoint splitLines (s : string) : list string :=
  match s with
  | EmptyString => [EmptyString]
  | String c s' =>
      if Ascii.eqb c newline then EmptyString :: splitLines s'
      else
        match splitLines s' with
        | line :: rest => String c line :: rest
        | [] => [String c EmptyString]
        end
  end.

(** A whole number in a template: its decimal digits, with the sign when it
    is negative. *)
Definition numberToString (n : Z) : string :=
  DecimalString.NilZero.string_of_int (Z.to_int n).

(** [addLineComments(sourceCode, startLineNumber)]: the state of the loop is
    [lineCounter] and the text appended so far. *)
Definition addLineComments (sourceCode : string) (startLineNumber : Z) : string :=
  snd (fold_left
         (fun (st : Z * string) (line : string) =>
            (fst st + 1,
             (snd st ++ line ++ " // line " ++ numberToString (fst st)
              ++ String newline EmptyString)%string))
         (splitLines sourceCode) (startLineNumber, EmptyString)).

(** [interface AnalysisRequest]. *)
Record AnalysisRequest : Type := mkRequest { startLine : Z; text : string }.

(** The text [performCodeCheck] builds and hands to [checkCode]. *)
Definition performCodeCheck (requests : list AnalysisRequest) : string :=
  fold_left
    (fun (sb : string) (r : AnalysisRequest) =>
       let startLineNumber := startLine r + 1 in
       (sb ++ addLineComments (text r) startLineNumber)%string)
    requests EmptyString.

(* ================================================================== *)
(** ** The functions to analyse: [findFunctionsByNames] *)

Section FunctionsByNames.
Variables T RType : Type.

(** Modelled from the spec: of a [treesitter.Node] the search reads [type]
    and [childForFieldName('name')?.text], which is [undefined] ([None])
    where the node has no child in the field [name]. *)
Variable nodeType : T -> string.
Variable nameText : T -> option string.

(** [funcName && nameSet.has(funcName)]: the empty name counts as none. *)
Definition named (names : list string) (n : T) : bool :=
  match nameText n with
  | None => false
  | Some funcName =>
      negb (String.eqb funcName EmptyString) && existsb (String.eqb funcName) names
  end.

(** [findFunctionsByNames(tree, names)]. *)
Definition findFunctionsByNames (tree : RangeBinTree T RType) (names : list string)
    : list T :=
  forEachChildren tree
    (fun n functions =>
       if String.eqb (nodeType n) "function_declaration"
       then (if named names n then functions ++ [n] else functions)
       else functions)
    [].
End FunctionsByNames.

(* ================================================================== *)
(** ** The reply of the model: [inspectCode] *)

(** The string methods the reply goes through.  A string is a sequence of
    code units below 256. *)
Module JsString.

(** The white space and line terminators [trim] removes; below 256 these are
    the code units 9 to 13, 32 and 160. *)
Definition isWhiteSpace (c : ascii) : bool :=
  let n := nat_of_ascii c in
  ((9 <=? n)%nat && (n <=? 13)%nat) || (n =? 32)%nat || (n =? 160)%nat.

Fixpoint trimStart (s : string) : string :=
  match s with
  | EmptyString => EmptyString
  | String c s' => if isWhiteSpace c then trimStart s' else s
  end.

Fixpoint trimEnd (s : string) : string :=
  match s with
  | EmptyString => EmptyString
  | String c s' =>
      match trimEnd s' with
      | EmptyString => if isWhiteSpace c then EmptyString else String c EmptyString
      | t => String c t
      end
  end.

(** [s.trim()]. *)
Definition trim (s : string) : string := trimEnd (trimStart s).

Fixpoint drop (n : nat) (s : string) : string :=
  match n, s with
  | S n', String _ s' => drop n' s'
  | _, _ => s
  end.

Fixpoint take (n : nat) (s : string) : string :=
  match n, s with
  | S n', String c s' => String c (take n' s')
  | _, _ => EmptyString
  end.

(** An index brought into [0, s.length]. *)
Definition clampIndex (s : string) (i : Z) : nat :=
  Z.to_nat (Z.min (Z.max i 0) (Z.of_nat (String.length s))).

(** [s.substring(a, b)]: the indices are brought into range and swapped when
    the first exceeds the second. *)
Definition substring (s : string) (a b : Z) : string :=
  let a' := clampIndex s a in
  let b' := clampIndex s b in
  take (Nat.max a' b' - Nat.min a' b') (drop (Nat.min a' b') s).

(** [s.substring(a)]: up to the end of the string. *)
Definition substringFrom (s : string) (a : Z) : string :=
  substring s a (Z.of_nat (String.length s)).

End JsString.

(** The first callback of the chain, up to the call of [JSON.parse]: the
    text handed to [JSON.parse], or [None] where the callback returns
    [undefined]. *)
Definition responseJson (analysisResponse : string) : option string :=
  let jsonStartIndex1 := indexOf analysisResponse "```json" in
  let jsonStartIndex2 := indexOf analysisResponse "```" in
  let jsonStartIndex :=
    if jsonStartIndex1 >=? 0 then jsonStartIndex1 else jsonStartIndex2 in
  let skipSymbols := if jsonStartIndex1 >=? 0 then 7 else 3 in
  if (jsonStartIndex >=? 0)
     && (Z.of_nat (String.length analysisResponse) >? skipSymbols)
  then
    let str :=
      JsString.trim
        (JsString.substringFrom analysisResponse (jsonStartIndex + skipSymbols)) in
    let jsonEndIndex := indexOf str "```" in
    Some (JsString.substring str 0 jsonEndIndex)
  else None.

(* ================================================================== *)
(** ** One analysis at a time: [checkCode] and the [done] flag *)

Section Requests.

(** Modelled from the spec: [JSON.parse], of the language; [None] is the
    [SyntaxError] it throws.  A reply that parses is taken to be an array of
    reports, as the callback's type has it. *)
Variable parse : string -> option (list AnalysisReport).

(** What the chain of [inspectCode] does to the state when the request
    settles: [reply] is [None] when the request failed, and otherwise the
    content of the message.  The results callback runs when the reply holds
    a text that parses. *)
Definition handleReply (doc : TextDocument) (reply : option string)
    (st : ExtState) : ExtState :=
  match reply with
  | None => st
  | Some analysisResponse =>
      match responseJson analysisResponse with
      | None => st
      | Some str =>
          match parse str with
          | None => st
          | Some results => resultsProcessor doc results st
          end
      end
  end.

(** The state with the [done] flags of [documentAnalysisStates], whose
    [results] are the [analysisResults] of the state, and the requests sent
    to the model that have not settled yet, each with the document it was
    made for. *)
Record Session : Type := mkSession {
  ext : ExtState;
  doneFlags : UriMap bool;
  pending : list TextDocument
}.

(** [if (!model)]: the setting is missing or empty. *)
Definition modelMissing (model : option string) : bool :=
  match model with
  | None => true
  | Some m => String.eqb m ""
  end.

(** [checkCode(doc, sourceCode)] up to the point where the request is sent;
    [model] is the setting [aiInspection.model] as [inspectCode] reads it.
    Without a model [inspectCode] shows a message and returns: no request is
    sent and the finalizer is not registered. *)
Definition checkCode (doc : TextDocument) (model : option string) (s : Session)
    : Session :=
  let s :=
    match doneFlags s (uri doc) with
    | Some _ => s
    | None =>
        mkSession
          (mkState (diagnosticsTree (ext s)) (golangDiagnosticCollection (ext s))
             (uriSet (uri doc) [] (analysisResults (ext s))))
          (uriSet (uri doc) true (doneFlags s))
          (pending s)
    end in
  match doneFlags s (uri doc) with
  | Some true =>
      let flags := uriSet (uri doc) false (doneFlags s) in
      if modelMissing model then mkSession (ext s) flags (pending s)
      else mkSession (ext s) flags (pending s ++ [doc])
  | _ => s
  end.

Fixpoint removeNth (A : Type) (n : nat) (l : list A) : list A :=
  match n, l with
  | _, [] => []
  | O, _ :: l' => l'
  | S n', x :: l' => x :: removeNth n' l'
  end.

(** The [n]-th pending request settles: the chain runs and the finalizer
    sets [done]. *)
Definition settle (n : nat) (reply : option string) (s : Session) : Session :=
  match nth_error (pending s) n with
  | None => s
  | Some doc =>
      mkSession (handleReply doc reply (ext s))
        (uriSet (uri doc) true (doneFlags s))
        (removeNth n (pending s))
  end.

(** What happens to a session: a call of [checkCode], or a pending request
    that settles. *)
Inductive Event : Type :=
  | Checked (doc : TextDocument) (model : option string)
  | Settled (n : nat) (reply : option string).

Definition step (s : Session) (e : Event) : Session :=
  match e with
  | Checked doc model => checkCode doc model s
  | Settled n reply => settle n reply s
  end.

Definition run (events : list Event) (s : Session) : Session :=
  fold_left step events s.

(** The requests pending for a document. *)
Definition pendingFor (u : string) (s : Session) : list TextDocument :=
  filter (fun doc => String.eqb (uri doc) u) (pending s).

End Requests.

(* ================================================================== *)
(** ** Comparators *)

(** What an ordered map needs of a comparator: it is the sign of a total
    preorder. *)
Record Lawful (T : Type) (cmp : T -> T -> Z) : Prop := {
  cmp_refl : forall x, cmp x x = 0;
  cmp_flip : forall x y, cmp x y < 0 <-> 0 < cmp y x;
  cmp_trans : forall x y z, cmp x y <= 0 -> cmp y z <= 0 -> cmp x z <= 0
}.

(* ================================================================== *)
(** ** Vocabulary of the statements *)

(** The longest run at the front of a list whose elements all pass [p], and
    what is left after it. *)
Fixpoint takeWhile (A : Type) (p : A -> bool) (l : list A) : list A :=
  match l with
  | [] => []
  | x :: l' => if p x then x :: takeWhile p l' else []
  end.

Fixpoint dropWhile (A : Type) (p : A -> bool) (l : list A) : list A :=
  match l with
  | [] => []
  | x :: l' => if p x then dropWhile p l' else l
  end.

Section RangeVocabulary.
Variable T : Type.

(** A child range [r] answers a query [q]: it intersects [q] or lies inside
    it.  The scans stop on the negation. *)
Definition matches (q r : Range T) : bool := intersects r q || inside r q.

(** The bounds are in order. *)
Definition wellFormed (r : Range T) : Prop := comparator r (start r) (end_ r) <= 0.

(** Both bounds of [a] lie strictly between the bounds of [b]. *)
Definition strictlyContains (b a : Range T) : Prop :=
  comparator b (start b) (start a) < 0 /\ comparator b (start a) (end_ b) < 0 /\
  comparator b (start b) (end_ a) < 0 /\ comparator b (end_ a) (end_ b) < 0.

(** [a] lies entirely to the left of [b]. *)
Definition leftOf (a b : Range T) : Prop := comparator a (end_ a) (start b) < 0.

(** [a] ends no later than [b] starts: the two share one point at most. *)
Definition notAfter (a b : Range T) : Prop := comparator a (end_ a) (start b) <= 0.
End RangeVocabulary.

Section TreeVocabulary.
Variables T RType : Type.
Local Abbreviation Tree := (RangeBinTree T RType).
Local Abbreviation Key := (Range RType).

(** The order of the keys of a children map. *)
Definition keyBefore (a b : Key * Tree) : Prop := compare (fst a) (fst b) < 0.

(** What the class keeps true of a children map: the keys ascend strictly,
    they share the comparator [cmp], and an entry's key is the range of the
    node stored under it. *)
Record childrenOk (cmp : RType -> RType -> Z) (m : TreeMap Key Tree) : Prop := {
  keysAscend : StronglySorted keyBefore m;
  keysShare : Forall (fun e => comparator (fst e) = cmp) m;
  keysAreRanges : Forall (fun e => range (snd e) = fst e) m
}.

(** The assumed invariant of siblings: in map order every child lies
    entirely to the left of the children after it. *)
Definition siblingsDisjoint (m : TreeMap Key Tree) : Prop :=
  StronglySorted (fun a b => leftOf (fst a) (fst b)) m.

(** The same with touching bounds allowed. *)
Definition siblingsApart (m : TreeMap Key Tree) : Prop :=
  StronglySorted (fun a b => notAfter (fst a) (fst b)) m.

Definition siblingsWellFormed (m : TreeMap Key Tree) : Prop :=
  Forall (fun e => wellFormed (fst e)) m.

(** The part of the map below and at the query the lower scan takes, nearest
    key first, and the part above it the higher scan takes. *)
Definition lowerRun (q : Key) (m : TreeMap Key Tree) : list (Key * Tree) :=
  takeWhile (fun e => matches q (fst e)) (rev (splitLower (@compare RType) q true m)).

Definition higherRun (q : Key) (m : TreeMap Key Tree) : list (Key * Tree) :=
  takeWhile (fun e => matches q (fst e)) (splitHigher (@compare RType) q false m).

(** The children that answer a query. *)
Definition matching (q : Key) (m : TreeMap Key Tree) : list Tree :=
  filter (fun c => matches q (range c)) (values m).
End TreeVocabulary.

(** A node and all nodes below it keep their children maps in order. *)
Fixpoint deepOk (T RType : Type) (cmp : RType -> RType -> Z)
    (t : RangeBinTree T RType) : Prop :=
  match t with
  | mkTree _ _ c =>
      childrenOk cmp c /\
      (fix all (l : list (Range RType * RangeBinTree T RType)) : Prop :=
         match l with
         | [] => True
         | e :: l' => deepOk cmp (snd e) /\ all l'
         end) c
  end.

Section LookupVocabulary.
Local Abbreviation SyntaxTree := (RangeBinTree Node Z).

(** The test that lets the lookup go on below a node: it has children and
    the query lies inside its range. *)
Definition passes (rng : Range Z) (t : SyntaxTree) : bool :=
  negb ((childCount (node t) =? 0) || negb (inside rng (range t))).

Definition isBlock (t : SyntaxTree) : bool := String.eqb (type (node t)) "block".

(** What the lookup answers for a block: its parent or the block itself. *)
Definition blockAnswer (grabParentBlock : bool) (t : SyntaxTree) : option Node :=
  if grabParentBlock then parent (node t) else Some (node t).

(** The last block of a path. *)
Fixpoint lastBlock (path : list SyntaxTree) : option SyntaxTree :=
  match path with
  | [] => None
  | t :: rest =>
      match lastBlock rest with
      | Some b => Some b
      | None => if isBlock t then Some t else None
      end
  end.

(** [path] is the way the lookup takes from the result [enclosings] of a
    [find]: each node is the first of the nodes found below the one before,
    each passes the test, and the way ends where nothing is found or the
    first node found fails the test. *)
Fixpoint descendsAlong (rng : Range Z) (enclosings : list (option SyntaxTree))
    (path : list SyntaxTree) : Prop :=
  match path with
  | [] =>
      match enclosings with
      | [] => True
      | Some t :: _ => passes rng t = false
      | None :: _ => False
      end
  | t :: rest =>
      hd_error enclosings = Some (Some t) /\ passes rng t = true /\
      descendsAlong rng (find t rng) rest
  end.

(** Following the words of the specification: the lookup as it would be if
    the descent stopped at the first block it reaches. *)
Fixpoint stopAtBlock_loop (fuel : nat) (rng : Range Z) (grabParentBlock : bool)
    (enclosings : list (option SyntaxTree)) : Outcome (option Node) :=
  match enclosings with
  | [] => Returned None
  | None :: _ => TypeError
  | Some treeNode :: _ =>
      if (childCount (node treeNode) =? 0) || negb (inside rng (range treeNode))
      then Returned None
      else if String.eqb (type (node treeNode)) "block"
      then Returned (blockAnswer grabParentBlock treeNode)
      else
        match fuel with
        | O => OutOfFuel
        | S fuel' => stopAtBlock_loop fuel' rng grabParentBlock (find treeNode rng)
        end
  end.

Definition findEnclosingBlock_stopAtBlock (tree : SyntaxTree) (rng : Range Z)
    (grabParentBlock : bool) : Outcome (option Node) :=
  stopAtBlock_loop (height tree) rng grabParentBlock (find tree rng).
End LookupVocabulary.

Section BatchVocabulary.
Local Open Scope string_scope.

(** The snippet occurs verbatim in the text. *)
Definition occursIn (snip text : string) : Prop :=
  exists before after, text = before ++ snip ++ after.

(** The diagnostic the second loop of the callback builds for a finding. *)
Definition diagnosticOf (rng : Range Position) (result : AnalysisReport) : Diagnostic :=
  mkDiagnostic (vscodeRange (start rng) (end_ rng)) (description result) SeverityWarning.

(** The findings of a batch that resolve to a range, in the order of the
    batch, each with its diagnostic. *)
Definition resolved (doc : TextDocument) (results : list AnalysisReport)
    : list (Range Position * Diagnostic) :=
  flat_map (fun result =>
              match resolveRange doc result with
              | Some rng => [(rng, diagnosticOf rng result)]
              | None => []
              end) results.

(** The tree of a document when a batch arrives: the stored one, or the root
    the callback makes. *)
Definition treeOf (st : ExtState) (doc : TextDocument) : DiagTree :=
  match diagnosticsTree st (uri doc) with
  | Some t => t
  | None => stubTree
  end.

(** The two passes of the callback over the ranges of a batch. *)
Definition evictAll (found : list (Range Position * Diagnostic)) (t : DiagTree)
    : DiagTree :=
  fold_left (fun t p => removeIntersecting t (fst p)) found t.

Definition appliedBatch (found : list (Range Position * Diagnostic)) (t : DiagTree)
    : DiagTree :=
  addChildren (evictAll found t) found.

(** Following the words of the specification: [replaceIntersecting] called
    for each finding in turn. *)
Definition replaceEach (found : list (Range Position * Diagnostic)) (t : DiagTree)
    : DiagTree :=
  fold_left (fun t p => replaceIntersecting t (fst p) (snd p)) found t.

(** The node [addChild] stores for a finding. *)
Definition childOf (p : Range Position * Diagnostic) : Range Position * DiagTree :=
  (fst p, newRangeBinTree (fst p) (snd p)).
End BatchVocabulary.

(* ================================================================== *)
(** ** Sample data *)

(** Number intervals as siblings under one root; the values are labels. *)
Definition siblingsOf (rs : list (Z * Z)) : RangeBinTree nat Z :=
  addChildren (newRangeBinTree (NumberRange 0 100) 0%nat)
    (map (fun p => (NumberRange (fst p) (snd p), Z.to_nat (fst p))) rs).

(** The siblings [0,5], [6,9], [10,15]. *)
Definition threeSiblings : RangeBinTree nat Z :=
  siblingsOf [(0, 5); (6, 9); (10, 15)].

(** Two siblings that overlap: [0,10] and [2,3]. *)
Definition overlappingSiblings : RangeBinTree nat Z :=
  siblingsOf [(0, 10); (2, 3)].

(** A leaf with a number interval and a label. *)
Definition leafOf (s e : Z) : RangeBinTree nat Z :=
  newRangeBinTree (NumberRange s e) (Z.to_nat s).

(** A block inside a block: a source file [0,20] whose only child is a
    block [0,10], which holds a block [2,8], which holds an identifier
    [3,4]. *)
Definition fileNode : Node := mkNode "source_file" 1 None.
Definition outerBlock : Node := mkNode "block" 1 (Some fileNode).
Definition innerBlock : Node := mkNode "block" 1 (Some outerBlock).
Definition identifierNode : Node := mkNode "identifier" 0 (Some innerBlock).

Definition nestedBlocks : RangeBinTree Node Z :=
  addChildNode (newRangeBinTree (NumberRange 0 20) fileNode)
    (addChildNode (newRangeBinTree (NumberRange 0 10) outerBlock)
       (addChildNode (newRangeBinTree (NumberRange 2 8) innerBlock)
          (newRangeBinTree (NumberRange 3 4) identifierNode))).

(** A document whose line 2 reads [abcdefghijkl], with one stored
    diagnostic on line 2, columns 0 to 5. *)
Definition sampleDoc : TextDocument :=
  mkDocument "file:///main.go"
    (fun l => Some (if l =? 2 then "abcdefghijkl"%string else ""%string)).

Definition storedRange : Range Position :=
  VSCodeRange (mkPosition 2 0) (mkPosition 2 5).

Definition storedDiagnostic : Diagnostic :=
  mkDiagnostic (vscodeRange (mkPosition 2 0) (mkPosition 2 5)) "stored" SeverityWarning.

Definition storedState : ExtState :=
  mkState (uriSet (uri sampleDoc) (addChild stubTree storedRange storedDiagnostic)
             (fun _ => None))
    (fun _ => None) (fun _ => None).

(** Findings on line 2 (reported as line 3): columns 3 to 8, columns 4 to 7,
    columns 3 to 8 once more, and a snippet the line does not hold. *)
Definition newFinding : AnalysisReport :=
  mkReport "issue" "new" (mkLocation 3 "defgh").
Definition innerFinding : AnalysisReport :=
  mkReport "issue" "inner" (mkLocation 3 "efg").
Definition sameSpotFinding : AnalysisReport :=
  mkReport "issue" "same spot" (mkLocation 3 "defgh").
Definition lostFinding : AnalysisReport :=
  mkReport "issue" "lost" (mkLocation 3 "xyz").

Definition newRange : Range Position :=
  VSCodeRange (mkPosition 2 3) (mkPosition 2 8).

(** Findings on line 2 at columns 0 to 10, 2 to 4 and 5 to 6. *)
Definition wideFinding : AnalysisReport :=
  mkReport "issue" "wide" (mkLocation 3 "abcdefghij").
Definition narrowFinding : AnalysisReport :=
  mkReport "issue" "narrow" (mkLocation 3 "cd").
Definition lateFinding : AnalysisReport :=
  mkReport "issue" "late" (mkLocation 3 "f").

Definition emptyState : ExtState :=
  mkState (fun _ => None) (fun _ => None) (fun _ => None).

(** The messages of the diagnostics stored for the sample document, in key
    order. *)
Definition storedMessages (st : ExtState) : option (list string) :=
  option_map (fun t => map (fun c => message (node c)) (values (children t)))
    (diagnosticsTree st (uri sampleDoc)).

(** The siblings [5,6] and [10,3], the second with its bounds out of
    order. *)
Definition reversedSibling : RangeBinTree nat Z :=
  siblingsOf [(5, 6); (10, 3)].

(** Siblings that touch: [0,4], [4,10], [10,15]. *)
Definition touchingSiblings : RangeBinTree nat Z :=
  siblingsOf [(0, 4); (4, 10); (10, 15)].

(** Two pairs under one range. *)
Definition twiceSixNine : list (Range Z * nat) :=
  [(NumberRange 6 9, 1%nat); (NumberRange 6 9, 2%nat)].

(** The nodes below a node of an index, and below a node of a syntax tree. *)
Inductive reaches (T RType : Type) (t : RangeBinTree T RType)
    : RangeBinTree T RType -> Prop :=
  | reaches_child e : In e (children t) -> reaches t (snd e)
  | reaches_below e u : In e (children t) -> reaches (snd e) u -> reaches t u.

Inductive below (n : SyntaxNode) : SyntaxNode -> Prop :=
  | below_child c : In c (syntaxChildren n) -> below n c
  | below_deeper c d : In c (syntaxChildren n) -> below c d -> below n d.

(** The span of a syntax node, as [createRangeBTreeNode] makes it. *)
Definition span (n : SyntaxNode) : Range Z := NumberRange (startIndex n) (endIndex n).

(** A source file with a block in a block: the syntax tree of [nestedBlocks]. *)
Definition nestedSyntax : SyntaxNode :=
  mkSyntax "source_file" 0 20
    [mkSyntax "block" 0 10
       [mkSyntax "block" 2 8 [mkSyntax "identifier" 3 4 []]]].

(** Two children with one span: an empty node at the start of a statement. *)
Definition sharedSpanSyntax : SyntaxNode :=
  mkSyntax "block" 0 9
    [mkSyntax "MISSING" 1 4 []; mkSyntax "statement" 1 4 []; mkSyntax "comment" 5 8 []].

(** The order of published diagnostics: by the start of the range, then by
    its end. *)
Definition rangeBefore (d1 d2 : Diagnostic) : Prop :=
  comparePositions (fst (diagRange d1)) (fst (diagRange d2)) < 0 \/
  (comparePositions (fst (diagRange d1)) (fst (diagRange d2)) = 0 /\
   comparePositions (snd (diagRange d1)) (snd (diagRange d2)) < 0).

(** What the callback keeps true of a diagnostics tree: the children map is
    in order and each diagnostic lies on the range it is stored under. *)
Definition diagnosticsOk (t : DiagTree) : Prop :=
  childrenOk comparePositions (children t) /\
  Forall (fun e => diagRange (node (snd e)) = (start (fst e), end_ (fst e)))
    (children t).

Definition stateOk (st : ExtState) : Prop :=
  forall u t, diagnosticsTree st u = Some t -> diagnosticsOk t.

(** The session of an extension just activated. *)
Definition newSession : Session := mkSession emptyState (fun _ => None) [].

(** The text does not begin with white space. *)
Definition startsClean (s : string) : Prop :=
  match s with
  | EmptyString => True
  | String c _ => JsString.isWhiteSpace c = false
  end.

(** In every session the program reaches, a document has at most one request
    pending, and while it has one its [done] flag is unset. *)
Definition sessionOk (s : Session) : Prop :=
  forall u,
    (List.length (pendingFor u s) <= 1)%nat /\
    (pendingFor u s <> [] -> doneFlags s u = Some false).

(** The document [u] has its flag unset and no request that could set it. *)
Definition lockedOut (u : string) (s : Session) : Prop :=
  doneFlags s u = Some false /\ pendingFor u s = [].

(** The lines [addLineComments] makes of the lines of a text, the first
    with the number [k]. *)
Fixpoint labelled (k : Z) (lines : list string) : list string :=
  match lines with
  | [] => []
  | line :: rest =>
      (line ++ " // line " ++ numberToString k)%string :: labelled (k + 1) rest
  end.

Fixpoint hasNewline (s : string) : bool :=
  match s with
  | EmptyString => false
  | String c s' => Ascii.eqb c newline || hasNewline s'
  end.

(** The lines, each ended by a line break. *)
Definition unlines (lines : list string) : string :=
  fold_right (fun line s => (line ++ String newline s)%string) EmptyString lines.

(** Settles [childrenOk] on sample data. *)
Ltac solve_childrenOk :=
  split; repeat constructor; vm_compute; reflexivity.

(* ================================================================== *)
(** ** Facts about comparators *)

Lemma compareNumbers_lawful : Lawful compareNumbers.
Proof.
  split; unfold compareNumbers; intros; lia.
Qed.

Lemma comparePositions_lawful : Lawful comparePositions.
Proof.
  split; unfold comparePositions; intros.
  - rewrite Z.eqb_refl. simpl. lia.
  - destruct (Z.eqb_spec (line x) (line y)), (Z.eqb_spec (line y) (line x));
      simpl; lia.
  - destruct (Z.eqb_spec (line x) (line y)), (Z.eqb_spec (line y) (line z)),
      (Z.eqb_spec (line x) (line z)); simpl in *; lia.
Qed.

Section LawfulFacts.
Variable T : Type.
Variable cmp : T -> T -> Z.
Hypothesis law : Lawful cmp.

Lemma cmp_zero_sym x y : cmp x y = 0 -> cmp y x = 0.
Proof.
  intro H.
  pose proof (cmp_flip law x y). pose proof (cmp_flip law y x). lia.
Qed.

Lemma cmp_le_flip x y : cmp x y <= 0 <-> 0 <= cmp y x.
Proof.
  pose proof (cmp_flip law x y). pose proof (cmp_flip law y x). lia.
Qed.

Lemma cmp_lt_le_trans x y z : cmp x y < 0 -> cmp y z <= 0 -> cmp x z < 0.
Proof.
  intros Hxy Hyz.
  destruct (Z_lt_le_dec (cmp x z) 0) as [|Hge]; [assumption|exfalso].
  apply cmp_le_flip in Hge.
  pose proof (cmp_trans law _ _ _ Hyz Hge) as Hyx.
  apply cmp_le_flip in Hyx. lia.
Qed.

Lemma cmp_le_lt_trans x y z : cmp x y <= 0 -> cmp y z < 0 -> cmp x z < 0.
Proof.
  intros Hxy Hyz.
  destruct (Z_lt_le_dec (cmp x z) 0) as [|Hge]; [assumption|exfalso].
  apply cmp_le_flip in Hge.
  pose proof (cmp_trans law _ _ _ Hge Hxy) as Hzy.
  apply cmp_le_flip in Hzy. lia.
Qed.

Lemma cmp_zero_trans x y z : cmp x y = 0 -> cmp y z = 0 -> cmp x z = 0.
Proof.
  intros Hxy Hyz.
  pose proof (cmp_zero_sym Hxy) as Hyx.
  pose proof (cmp_zero_sym Hyz) as Hzy.
  assert (cmp x z <= 0) by (apply cmp_trans with y; [assumption| lia | lia]).
  assert (cmp z x <= 0) by (apply cmp_trans with y; [assumption| lia | lia]).
  apply cmp_le_flip in H0. lia.
Qed.
End LawfulFacts.

(* ================================================================== *)
(** ** Facts about [Range] *)

Section RangeFacts.
Variable T : Type.
Variable cmp : T -> T -> Z.
Hypothesis law : Lawful cmp.

Lemma compare_eq_iff (a b : Range T) :
  comparator a = cmp ->
  (compare a b = 0 <-> cmp (start a) (start b) = 0 /\ cmp (end_ a) (end_ b) = 0).
Proof.
  intros H. unfold compare. rewrite H.
  destruct (Z.eqb_spec (cmp (start a) (start b)) 0); simpl; lia.
Qed.

Lemma compare_lt_iff (a b : Range T) :
  comparator a = cmp ->
  (compare a b < 0 <->
   cmp (start a) (start b) < 0 \/
   (cmp (start a) (start b) = 0 /\ cmp (end_ a) (end_ b) < 0)).
Proof.
  intros H. unfold compare. rewrite H.
  destruct (Z.eqb_spec (cmp (start a) (start b)) 0); simpl; lia.
Qed.

Lemma compare_gt_iff (a b : Range T) :
  comparator a = cmp ->
  (0 < compare a b <->
   0 < cmp (start a) (start b) \/
   (cmp (start a) (start b) = 0 /\ 0 < cmp (end_ a) (end_ b))).
Proof.
  intros H. unfold compare. rewrite H.
  destruct (Z.eqb_spec (cmp (start a) (start b)) 0); simpl; lia.
Qed.

Lemma compare_refl (a : Range T) : comparator a = cmp -> compare a a = 0.
Proof.
  intro H. apply compare_eq_iff; [assumption|].
  split; apply (cmp_refl law).
Qed.

Lemma compare_flip (a b : Range T) :
  comparator a = cmp -> comparator b = cmp ->
  (compare a b < 0 <-> 0 < compare b a).
Proof.
  intros Ha Hb.
  rewrite compare_lt_iff, compare_gt_iff by assumption.
  pose proof (cmp_flip law (start a) (start b)).
  pose proof (cmp_flip law (start b) (start a)).
  pose proof (cmp_flip law (end_ a) (end_ b)).
  pose proof (cmp_flip law (end_ b) (end_ a)).
  lia.
Qed.

Lemma compare_zero_sym (a b : Range T) :
  comparator a = cmp -> comparator b = cmp -> compare a b = 0 -> compare b a = 0.
Proof.
  intros Ha Hb.
  rewrite !compare_eq_iff by assumption.
  intros [H1 H2]. split; apply (cmp_zero_sym law); assumption.
Qed.

Lemma compare_lt_trans (a b c : Range T) :
  comparator a = cmp -> comparator b = cmp ->
  compare a b < 0 -> compare b c <= 0 -> compare a c < 0.
Proof.
  intros Ha Hb Hab Hbc.
  assert (Hbc' : compare b c < 0 \/ compare b c = 0) by lia. clear Hbc.
  rewrite compare_lt_iff in Hab |- * by assumption.
  rewrite compare_lt_iff, compare_eq_iff in Hbc' by assumption.
  destruct Hab as [Hab|[Hab1 Hab2]]; destruct Hbc' as [[Hbc|[Hbc1 Hbc2]]|[Hbc1 Hbc2]].
  - left. apply (cmp_lt_le_trans law) with (start b); lia.
  - left. apply (cmp_lt_le_trans law) with (start b); lia.
  - left. apply (cmp_lt_le_trans law) with (start b); lia.
  - left. apply (cmp_le_lt_trans law) with (start b); lia.
  - right. split.
    + apply (cmp_zero_trans law) with (start b); assumption.
    + apply (cmp_lt_le_trans law) with (end_ b); lia.
  - right. split.
    + apply (cmp_zero_trans law) with (start b); assumption.
    + apply (cmp_lt_le_trans law) with (end_ b); lia.
Qed.

Lemma compare_le_lt_trans (a b c : Range T) :
  comparator a = cmp -> comparator b = cmp ->
  compare a b <= 0 -> compare b c < 0 -> compare a c < 0.
Proof.
  intros Ha Hb Hab Hbc.
  assert (Hab' : compare a b < 0 \/ compare a b = 0) by lia. clear Hab.
  rewrite compare_lt_iff in Hbc |- * by assumption.
  rewrite compare_lt_iff, compare_eq_iff in Hab' by assumption.
  destruct Hbc as [Hbc|[Hbc1 Hbc2]]; destruct Hab' as [[Hab|[Hab1 Hab2]]|[Hab1 Hab2]].
  - left. apply (cmp_lt_le_trans law) with (start b); lia.
  - left. apply (cmp_le_lt_trans law) with (start b); lia.
  - left. apply (cmp_le_lt_trans law) with (start b); lia.
  - left. apply (cmp_lt_le_trans law) with (start b); lia.
  - right. split.
    + apply (cmp_zero_trans law) with (start b); assumption.
    + apply (cmp_lt_le_trans law) with (end_ b); lia.
  - right. split.
    + apply (cmp_zero_trans law) with (start b); assumption.
    + apply (cmp_le_lt_trans law) with (end_ b); lia.
Qed.

Lemma compare_zero_trans (a b c : Range T) :
  comparator a = cmp -> comparator b = cmp ->
  compare a b = 0 -> compare b c = 0 -> compare a c = 0.
Proof.
  intros Ha Hb. rewrite !compare_eq_iff by assumption.
  intros [H1 H2] [H3 H4].
  split; eapply (cmp_zero_trans law); eassumption.
Qed.

(** A key that compares equal to the query answers it. *)
Lemma matches_equal_key (q r : Range T) :
  comparator r = cmp -> compare r q = 0 -> matches q r = true.
Proof.
  intros Hr H. apply compare_eq_iff in H; [|assumption].
  unfold matches, inside. rewrite Hr.
  destruct H as [-> ->]. simpl. apply orb_true_r.
Qed.
(** [matches] in terms of the shared comparator. *)
Lemma matches_iff (q r : Range T) :
  comparator r = cmp ->
  (matches q r = true <->
   (cmp (start r) (start q) <= 0 /\ cmp (start q) (end_ r) <= 0) \/
   (cmp (start r) (end_ q) <= 0 /\ cmp (end_ q) (end_ r) <= 0) \/
   (0 <= cmp (start r) (start q) /\ cmp (end_ r) (end_ q) <= 0)).
Proof.
  intro Hr. unfold matches, intersects, inside, contains. rewrite Hr.
  rewrite !orb_true_iff, !andb_true_iff, !Z.leb_le, Z.geb_le. tauto.
Qed.

(** Below the query: of two children in key order that do not overlap, the
    first answers the query only if the second does. *)
Lemma lower_side (q ci cj : Range T) :
  comparator ci = cmp -> comparator cj = cmp ->
  cmp (start q) (end_ q) <= 0 -> wellFormed cj ->
  compare ci cj < 0 -> compare cj q <= 0 -> notAfter ci cj ->
  matches q ci = true -> matches q cj = true.
Proof.
  intros Hci Hcj Hq Hwf Hij Hjq Hna Hm.
  unfold wellFormed, notAfter in *. rewrite ?Hci, ?Hcj in *.
  apply matches_iff in Hm; [|assumption]. apply matches_iff; [assumption|].
  assert (Hjs : cmp (start cj) (start q) <= 0).
  { assert (Hjq' : compare cj q < 0 \/ compare cj q = 0) by lia.
    rewrite compare_lt_iff, compare_eq_iff in Hjq' by assumption. lia. }
  assert (His : cmp (start ci) (start cj) <= 0).
  { rewrite compare_lt_iff in Hij by assumption. lia. }
  assert (Hqj : cmp (start q) (start cj) <= 0).
  { destruct Hm as [[_ H]|[[_ H]|[H _]]].
    - apply (cmp_trans law) with (end_ ci); assumption.
    - apply (cmp_trans law) with (end_ q); [assumption|].
      apply (cmp_trans law) with (end_ ci); assumption.
    - apply (cmp_trans law) with (start ci); [|assumption].
      now apply (cmp_le_flip law). }
  left. split; [assumption|].
  apply (cmp_trans law) with (start cj); assumption.
Qed.

(** Above the query: of two children in key order that do not overlap, the
    second answers the query only if the first does. *)
Lemma higher_side (q ci cj : Range T) :
  comparator ci = cmp -> comparator cj = cmp ->
  cmp (start q) (end_ q) <= 0 -> wellFormed cj ->
  compare ci cj < 0 -> 0 < compare ci q -> notAfter ci cj ->
  matches q cj = true -> matches q ci = true.
Proof.
  intros Hci Hcj Hq Hwf Hij Hiq Hna Hm.
  unfold wellFormed, notAfter in *. rewrite ?Hci, ?Hcj in *.
  apply matches_iff in Hm; [|assumption]. apply matches_iff; [assumption|].
  assert (His : 0 <= cmp (start ci) (start q)).
  { rewrite compare_gt_iff in Hiq by assumption. lia. }
  right. right. split; [assumption|].
  destruct Hm as [[H _]|[[H _]|[_ H]]].
  - apply (cmp_trans law) with (start q); [|assumption].
    apply (cmp_trans law) with (start cj); assumption.
  - apply (cmp_trans law) with (start cj); assumption.
  - apply (cmp_trans law) with (end_ cj); [|assumption].
    apply (cmp_trans law) with (start cj); assumption.
Qed.

(** Two well-formed children that do not overlap and lie at or below a
    well-formed query do not both answer it. *)
Lemma lower_side_single (q ci cj : Range T) :
  comparator ci = cmp -> comparator cj = cmp ->
  cmp (start q) (end_ q) <= 0 -> wellFormed ci ->
  compare ci cj < 0 -> compare cj q <= 0 -> leftOf ci cj ->
  matches q ci = false.
Proof.
  intros Hci Hcj Hq Hwf Hij Hjq Hlo.
  destruct (matches q ci) eqn:Hm; [exfalso | reflexivity].
  unfold wellFormed, leftOf in *. rewrite ?Hci, ?Hcj in *.
  apply matches_iff in Hm; [|assumption].
  assert (Hjs : cmp (start cj) (start q) <= 0).
  { assert (Hjq' : compare cj q < 0 \/ compare cj q = 0) by lia.
    rewrite compare_lt_iff, compare_eq_iff in Hjq' by assumption. lia. }
  assert (His : cmp (start ci) (start cj) <= 0).
  { rewrite compare_lt_iff in Hij by assumption. lia. }
  assert (Hlt : cmp (end_ ci) (start q) < 0).
  { apply (cmp_lt_le_trans law) with (start cj); assumption. }
  destruct Hm as [[_ H]|[[_ H]|[H _]]].
  - apply (cmp_le_flip law) in H. lia.
  - assert (cmp (start q) (end_ ci) <= 0)
      by (apply (cmp_trans law) with (end_ q); assumption).
    apply (cmp_le_flip law) in H0. lia.
  - assert (cmp (start q) (end_ ci) <= 0).
    { apply (cmp_trans law) with (start ci); [|assumption].
      now apply (cmp_le_flip law). }
    apply (cmp_le_flip law) in H0. lia.
Qed.
End RangeFacts.

(* ================================================================== *)
(** ** Lists: runs and sorted lists *)

Section ListFacts.
Variable A : Type.

Lemma takeWhile_dropWhile (p : A -> bool) (l : list A) :
  takeWhile p l ++ dropWhile p l = l.
Proof.
  induction l as [|x l IH]; simpl; [reflexivity|].
  destruct (p x); simpl; [now rewrite IH | reflexivity].
Qed.

Lemma takeWhile_after_dropWhile (p : A -> bool) (l : list A) :
  takeWhile p (dropWhile p l) = [].
Proof.
  induction l as [|x l IH]; simpl; [reflexivity|].
  destruct (p x) eqn:E; [assumption | simpl; now rewrite E].
Qed.

Lemma takeWhile_ext (p p' : A -> bool) (l : list A) :
  (forall x, p x = p' x) -> takeWhile p l = takeWhile p' l.
Proof.
  intro H. induction l as [|x l IH]; simpl; [reflexivity|].
  rewrite <- H, IH. reflexivity.
Qed.

Lemma takeWhile_Forall (p : A -> bool) (l : list A) :
  Forall (fun x => p x = true) (takeWhile p l).
Proof.
  induction l as [|x l IH]; simpl; [constructor|].
  destruct (p x) eqn:E; constructor; assumption.
Qed.

Lemma takeWhile_incl (p : A -> bool) (l : list A) x :
  In x (takeWhile p l) -> In x l.
Proof.
  rewrite <- (takeWhile_dropWhile p l) at 2. intro. apply in_or_app. now left.
Qed.

Lemma dropWhile_incl (p : A -> bool) (l : list A) x :
  In x (dropWhile p l) -> In x l.
Proof.
  rewrite <- (takeWhile_dropWhile p l) at 2. intro. apply in_or_app. now right.
Qed.

Lemma takeWhile_map (B : Type) (f : B -> A) (p : A -> bool) (l : list B) :
  takeWhile p (map f l) = map f (takeWhile (fun x => p (f x)) l).
Proof.
  induction l as [|x l IH]; simpl; [reflexivity|].
  destruct (p (f x)); simpl; [now rewrite IH | reflexivity].
Qed.

Lemma filter_all (p : A -> bool) (l : list A) :
  Forall (fun x => p x = true) l -> filter p l = l.
Proof.
  induction 1 as [|x l Hx _ IH]; simpl; [reflexivity|].
  now rewrite Hx, IH.
Qed.

Lemma filter_none (p : A -> bool) (l : list A) :
  Forall (fun x => p x = false) l -> filter p l = [].
Proof.
  induction 1 as [|x l Hx _ IH]; simpl; [reflexivity|].
  now rewrite Hx.
Qed.

(** A run is all there is to take when, along the list, nothing passes [p]
    after an element that fails it. *)
Lemma takeWhile_is_filter (R : A -> A -> Prop) (p : A -> bool) (l : list A) :
  StronglySorted R l ->
  (forall x y, In x l -> In y l -> R x y -> p x = false -> p y = false) ->
  takeWhile p l = filter p l.
Proof.
  induction 1 as [|x l Hl IH Hx]; intro Hmono; simpl; [reflexivity|].
  destruct (p x) eqn:E.
  - f_equal. apply IH. intros a b Ha Hb. apply Hmono; now right.
  - symmetry. apply filter_none.
    rewrite Forall_forall in *. intros y Hy.
    apply (Hmono x y); [now left | now right | now apply Hx | assumption].
Qed.

Lemma StronglySorted_app_inv (R : A -> A -> Prop) (l1 l2 : list A) :
  StronglySorted R (l1 ++ l2) ->
  StronglySorted R l1 /\ StronglySorted R l2 /\
  (forall x y, In x l1 -> In y l2 -> R x y).
Proof.
  induction l1 as [|a l1 IH]; simpl; intro H.
  - repeat split; [constructor | assumption | intros ? ? []].
  - inversion H as [|? ? Hs Hf]; subst.
    destruct (IH Hs) as (H1 & H2 & H3).
    rewrite Forall_app in Hf. destruct Hf as [Hf1 Hf2].
    repeat split; [constructor; assumption | assumption |].
    intros x y [<-|Hx] Hy.
    + rewrite Forall_forall in Hf2. now apply Hf2.
    + now apply H3.
Qed.

Lemma StronglySorted_app (R : A -> A -> Prop) (l1 l2 : list A) :
  StronglySorted R l1 -> StronglySorted R l2 ->
  (forall x y, In x l1 -> In y l2 -> R x y) ->
  StronglySorted R (l1 ++ l2).
Proof.
  induction 1 as [|a l1 Hs IH Hf]; simpl; intros H2 H3; [assumption|].
  constructor.
  - apply IH; [assumption|]. intros; apply H3; [now right | assumption].
  - rewrite Forall_app. split; [assumption|].
    rewrite Forall_forall. intros y Hy. apply H3; [now left | assumption].
Qed.

Lemma StronglySorted_rev (R : A -> A -> Prop) (l : list A) :
  StronglySorted R l -> StronglySorted (fun a b => R b a) (rev l).
Proof.
  induction 1 as [|a l Hs IH Hf]; simpl; [constructor|].
  apply StronglySorted_app; [assumption | repeat constructor |].
  intros x y Hx [<-|[]]. rewrite Forall_forall in Hf.
  apply Hf. now apply in_rev.
Qed.

Lemma StronglySorted_filter (R : A -> A -> Prop) (p : A -> bool) (l : list A) :
  StronglySorted R l -> StronglySorted R (filter p l).
Proof.
  induction 1 as [|a l Hs IH Hf]; simpl; [constructor|].
  destruct (p a); [|assumption].
  constructor; [assumption|].
  rewrite Forall_forall in *. intros x Hx. apply Hf.
  apply filter_In in Hx. tauto.
Qed.

Lemma StronglySorted_conj (R R' : A -> A -> Prop) (l : list A) :
  StronglySorted R l -> StronglySorted R' l ->
  StronglySorted (fun a b => R a b /\ R' a b) l.
Proof.
  induction 1 as [|a l Hs IH Hf]; intro H'; [constructor|].
  inversion H' as [|? ? Hs' Hf']; subst.
  constructor; [now apply IH|].
  rewrite Forall_forall in *. intros x Hx. split; [now apply Hf | now apply Hf'].
Qed.

Lemma StronglySorted_weaken (R R' : A -> A -> Prop) (l : list A) :
  (forall a b, R a b -> R' a b) -> StronglySorted R l -> StronglySorted R' l.
Proof.
  intros HR. induction 1 as [|a l Hs IH Hf]; constructor; [assumption|].
  eapply Forall_impl; [|exact Hf]. intros b. apply HR.
Qed.

Lemma dropWhile_head (p : A -> bool) (l : list A) x r :
  dropWhile p l = x :: r -> p x = false.
Proof.
  induction l as [|y l IH]; simpl; [discriminate|].
  destruct (p y) eqn:E; [assumption|]. intro H. now inversion H; subst.
Qed.

Lemma dropWhile_fixed (p : A -> bool) (l : list A) :
  dropWhile p (dropWhile p l) = dropWhile p l.
Proof.
  destruct (dropWhile p l) as [|x r] eqn:E; [reflexivity|].
  simpl. now rewrite (dropWhile_head _ _ E).
Qed.

(** When the run is all that passes [p], what is left is all that fails it. *)
Lemma dropWhile_is_filter (p : A -> bool) (l : list A) :
  takeWhile p l = filter p l -> dropWhile p l = filter (fun x => negb (p x)) l.
Proof.
  induction l as [|x l IH]; simpl; [reflexivity|].
  destruct (p x) eqn:E; simpl.
  - intro H. apply IH. now inversion H.
  - intro H. f_equal. symmetry. apply filter_all.
    rewrite Forall_forall. intros y Hy.
    destruct (p y) eqn:Ey; [exfalso | reflexivity].
    assert (Hin : In y (filter p l)) by (apply filter_In; now split).
    rewrite <- H in Hin. destruct Hin.
Qed.

(** The loop of [forEachIter] is a fold over the run of values that do not
    break it. *)
Lemma forEachIter_run (St : Type) (it : list A) (applyFn : A -> St -> St)
    (brk : A -> bool) (s : St) :
  forEachIter it applyFn brk s =
  fold_left (fun s x => applyFn x s) (takeWhile (fun x => negb (brk x)) it) s.
Proof.
  revert s. induction it as [|x it IH]; intro s; simpl; [reflexivity|].
  destruct (brk x); simpl; [reflexivity | apply IH].
Qed.
End ListFacts.

(* ================================================================== *)
(** ** The children map and the two scans *)

Section ScanFacts.
Variables T RType : Type.
Variable cmp : RType -> RType -> Z.
Hypothesis law : Lawful cmp.

Local Abbreviation Tree := (RangeBinTree T RType).
Local Abbreviation Key := (Range RType).
Local Abbreviation Map := (TreeMap Key Tree).
Local Abbreviation cmpK := (@compare RType).

Lemma negb_breakFn (q r : Key) : negb (breakFn q r) = matches q r.
Proof.
  unfold breakFn, matches.
  now rewrite negb_andb, !negb_involutive.
Qed.

Lemma childrenOk_app_inv (l1 l2 : Map) :
  childrenOk cmp (l1 ++ l2) ->
  childrenOk cmp l1 /\ childrenOk cmp l2 /\
  (forall x y, In x l1 -> In y l2 -> keyBefore x y).
Proof.
  intros [Hs Hc Hr].
  apply StronglySorted_app_inv in Hs. destruct Hs as (Hs1 & Hs2 & Hs3).
  rewrite Forall_app in Hc, Hr.
  repeat split; tauto.
Qed.

Lemma childrenOk_app (l1 l2 : Map) :
  childrenOk cmp l1 -> childrenOk cmp l2 ->
  (forall x y, In x l1 -> In y l2 -> keyBefore x y) ->
  childrenOk cmp (l1 ++ l2).
Proof.
  intros [Hs1 Hc1 Hr1] [Hs2 Hc2 Hr2] H.
  split; [now apply StronglySorted_app | |]; rewrite Forall_app; tauto.
Qed.

Lemma childrenOk_cut (X L Y : Map) :
  childrenOk cmp (X ++ L ++ Y) -> childrenOk cmp (X ++ Y).
Proof.
  intro H. apply childrenOk_app_inv in H. destruct H as (HX & HLY & HXLY).
  apply childrenOk_app_inv in HLY. destruct HLY as (HL & HY & _).
  apply childrenOk_app; [assumption | assumption |].
  intros x y Hx Hy. apply HXLY; [assumption|]. apply in_or_app. now right.
Qed.

Lemma childrenOk_cmp (m : Map) e :
  childrenOk cmp m -> In e m -> comparator (fst e) = cmp.
Proof.
  intros [_ Hc _] He. rewrite Forall_forall in Hc. now apply Hc.
Qed.

Lemma childrenOk_range (m : Map) e :
  childrenOk cmp m -> In e m -> range (snd e) = fst e.
Proof.
  intros [_ _ Hr] He. rewrite Forall_forall in Hr. now apply Hr.
Qed.

(** Entries at different places of a children map have keys that differ. *)
Lemma keys_differ (l1 l2 : Map) x y :
  childrenOk cmp (l1 ++ l2) -> In x l1 -> In y l2 ->
  cmpK (fst x) (fst y) < 0 /\ 0 < cmpK (fst y) (fst x).
Proof.
  intros H Hx Hy.
  pose proof (childrenOk_cmp x H (in_or_app _ _ _ (or_introl Hx))) as Hcx.
  pose proof (childrenOk_cmp y H (in_or_app _ _ _ (or_intror Hy))) as Hcy.
  apply childrenOk_app_inv in H. destruct H as (_ & _ & H).
  specialize (H x y Hx Hy). unfold keyBefore in H.
  split; [assumption|]. now apply (compare_flip law).
Qed.

(** [get] finds the entry of every key of the map. *)
Lemma get_entry (m : Map) e :
  childrenOk cmp m -> In e m -> get cmpK (fst e) m = Some (snd e).
Proof.
  induction m as [|a m IH]; intros H He; [destruct He|].
  unfold get. simpl.
  destruct He as [->|He].
  - rewrite (compare_refl law); [reflexivity|].
    apply (childrenOk_cmp e H). now left.
  - destruct (keys_differ [a] m a e H) as [Hlt _]; [now left | assumption |].
    destruct (Z.eqb_spec (cmpK (fst a) (fst e)) 0) as [E|_]; [lia|].
    apply IH; [|assumption].
    apply (childrenOk_app_inv [a] m) in H. tauto.
Qed.

(** A sorted map is its part up to a key followed by its part above it. *)
Lemma split_partition (q : Key) (m : Map) :
  childrenOk cmp m ->
  m = splitLower cmpK q true m ++ splitHigher cmpK q false m.
Proof.
  induction m as [|a m IH]; intro H; [reflexivity|].
  assert (Hm : childrenOk cmp m) by (apply (childrenOk_app_inv [a] m) in H; tauto).
  unfold splitLower, splitHigher in *. simpl.
  destruct (Z.leb_spec (cmpK (fst a) q) 0) as [Hle|Hgt].
  - destruct (Z.gtb_spec (cmpK (fst a) q) 0) as [|_]; [lia|].
    simpl. f_equal. now apply IH.
  - destruct (Z.gtb_spec (cmpK (fst a) q) 0) as [_|]; [|lia].
    rewrite filter_none, filter_all; [reflexivity | |].
    + rewrite Forall_forall. intros e He.
      destruct (Z.gtb_spec (cmpK (fst e) q) 0) as [|Hle]; [reflexivity|exfalso].
      destruct (keys_differ [a] m a e H) as [Hlt _]; [now left | assumption |].
      assert (cmpK (fst a) q < 0); [|lia].
      apply (compare_lt_trans law) with (fst e); try assumption.
      * apply (childrenOk_cmp a H). now left.
      * apply (childrenOk_cmp e Hm He).
    + rewrite Forall_forall. intros e He.
      destruct (Z.leb_spec (cmpK (fst e) q) 0) as [Hle|]; [exfalso|reflexivity].
      destruct (keys_differ [a] m a e H) as [Hlt _]; [now left | assumption |].
      assert (cmpK (fst a) q < 0); [|lia].
      apply (compare_lt_trans law) with (fst e); try assumption.
      * apply (childrenOk_cmp a H). now left.
      * apply (childrenOk_cmp e Hm He).
Qed.

Lemma splitLower_Forall (q : Key) (m : Map) :
  Forall (fun e => cmpK (fst e) q <= 0) (splitLower cmpK q true m).
Proof.
  rewrite Forall_forall. intros e He. apply filter_In in He.
  destruct He as [_ He]. now apply Z.leb_le.
Qed.

Lemma splitHigher_Forall (q : Key) (m : Map) :
  Forall (fun e => 0 < cmpK (fst e) q) (splitHigher cmpK q false m).
Proof.
  rewrite Forall_forall. intros e He. apply filter_In in He.
  destruct He as [_ He]. apply Z.gtb_lt in He. lia.
Qed.

(** A map made of keys up to [q] followed by keys above [q] splits at [q]
    into these two parts. *)
Lemma splitLower_app (q : Key) (l h : Map) :
  Forall (fun e => cmpK (fst e) q <= 0) l ->
  Forall (fun e => 0 < cmpK (fst e) q) h ->
  splitLower cmpK q true (l ++ h) = l.
Proof.
  intros Hl Hh. unfold splitLower. rewrite filter_app, filter_all, filter_none.
  - apply app_nil_r.
  - eapply Forall_impl; [|exact Hh]. intros e He. apply Z.leb_gt. exact He.
  - eapply Forall_impl; [|exact Hl]. intros e He. apply Z.leb_le. exact He.
Qed.

Lemma splitHigher_app (q : Key) (l h : Map) :
  Forall (fun e => cmpK (fst e) q <= 0) l ->
  Forall (fun e => 0 < cmpK (fst e) q) h ->
  splitHigher cmpK q false (l ++ h) = h.
Proof.
  intros Hl Hh. unfold splitHigher. rewrite filter_app, filter_none, filter_all.
  - reflexivity.
  - eapply Forall_impl; [|exact Hh]. intros e He. apply Z.gtb_lt. exact He.
  - eapply Forall_impl; [|exact Hl]. intros e He. cbv beta in He.
    destruct (Z.gtb_spec (cmpK (fst e) q) 0); [lia | reflexivity].
Qed.
Lemma filter_twice (p p' : Key * Tree -> bool) (m : Map) :
  filter p (filter p' m) = filter (fun e => p' e && p e) m.
Proof.
  induction m as [|a m IH]; simpl; [reflexivity|].
  destruct (p' a); simpl; [|assumption].
  destruct (p a); now rewrite IH.
Qed.

(** Deleting keys one after the other keeps the entries that compare equal
    to none of them. *)
Lemma fold_delete (ks : list Key) (m : Map) :
  fold_left (fun m k => delete cmpK k m) ks m =
  filter (fun e => forallb (fun k => negb (cmpK (fst e) k =? 0)) ks) m.
Proof.
  revert m. induction ks as [|k ks IH]; intro m; simpl.
  - symmetry. apply filter_all. now apply Forall_forall.
  - rewrite IH. unfold delete. apply filter_twice.
Qed.

(** Deleting the keys of a segment of a children map takes out the segment
    and nothing else. *)
Lemma delete_segment (X L Y : Map) (ks : list Key) :
  childrenOk cmp (X ++ L ++ Y) ->
  (forall k, In k ks <-> In k (keys L)) ->
  fold_left (fun m k => delete cmpK k m) ks (X ++ L ++ Y) = X ++ Y.
Proof.
  intros H Hks. rewrite fold_delete, !filter_app.
  rewrite filter_all, filter_none, filter_all; [reflexivity | | |].
  - rewrite Forall_forall. intros y Hy. apply forallb_forall. intros k Hk.
    apply Hks in Hk. apply in_map_iff in Hk. destruct Hk as (e & <- & He).
    rewrite app_assoc in H.
    destruct (keys_differ (X ++ L) Y e y H) as [_ Hgt];
      [apply in_or_app; now right | assumption |].
    destruct (Z.eqb_spec (cmpK (fst y) (fst e)) 0); [lia | reflexivity].
  - rewrite Forall_forall. intros e He.
    destruct (forallb _ ks) eqn:E; [exfalso | reflexivity].
    rewrite forallb_forall in E.
    assert (Hk : In (fst e) ks) by (apply Hks; now apply in_map).
    specialize (E _ Hk).
    rewrite (compare_refl law) in E; [discriminate|].
    apply (childrenOk_cmp e H). apply in_or_app. right. apply in_or_app. now left.
  - rewrite Forall_forall. intros x Hx. apply forallb_forall. intros k Hk.
    apply Hks in Hk. apply in_map_iff in Hk. destruct Hk as (e & <- & He).
    destruct (keys_differ X (L ++ Y) x e H) as [Hlt _];
      [assumption | apply in_or_app; now left |].
    destruct (Z.eqb_spec (cmpK (fst x) (fst e)) 0); [lia | reflexivity].
Qed.

Lemma fold_push (A B : Type) (g : A -> Tree -> B) (l : list A) (t : Tree)
    (acc : list B) :
  fold_left (fun (s : Tree * list B) x => (fst s, snd s ++ [g x (fst s)])) l (t, acc)
  = (t, acc ++ map (fun x => g x t) l).
Proof.
  revert acc. induction l as [|x l IH]; intro acc; simpl.
  - now rewrite app_nil_r.
  - rewrite IH. now rewrite <- app_assoc.
Qed.

Lemma fold_push_inline (A B : Type) (g : A -> B) (l : list A) (acc : list B) :
  fold_left (fun (nodes : list B) x => nodes ++ [g x]) l acc = acc ++ map g l.
Proof.
  revert acc. induction l as [|x l IH]; intro acc; simpl.
  - now rewrite app_nil_r.
  - rewrite IH. now rewrite <- app_assoc.
Qed.

(** What [find] collects: the run of the lower scan, looked up key by key,
    then the run of the higher scan. *)
Lemma find_scan (this : Tree) (q : Key) :
  find this q =
  map (fun r => get cmpK r (children this))
    (takeWhile (matches q) (reverseKeys (splitLower cmpK q true (children this))))
  ++ map (fun e => Some (snd e))
    (takeWhile (fun e => matches q (fst e))
       (splitHigher cmpK q false (children this))).
Proof.
  unfold find, processIntersecting, entries. rewrite !forEachIter_run. cbn [fst snd].
  rewrite !(fold_push (fun r t => get cmpK r (children t))). cbn [fst snd].
  rewrite (fold_push (fun (e : Key * Tree) (_ : Tree) => Some (snd e))). cbn [fst snd app].
  f_equal; f_equal; apply takeWhile_ext; intro; apply negb_breakFn.
Qed.

(** The two revisions of [find] collect the same nodes. *)
Lemma find_inline_eq (this : Tree) (q : Key) : find_inline this q = find this q.
Proof.
  rewrite find_scan. unfold find_inline, entries. rewrite !forEachIter_run.
  rewrite !fold_push_inline. simpl.
  f_equal; f_equal; apply takeWhile_ext; intro; apply negb_breakFn.
Qed.

(** On a children map [get] misses no key of the lower scan: [find] is the
    nodes of the two runs. *)
Lemma find_runs (this : Tree) (q : Key) :
  childrenOk cmp (children this) ->
  find this q =
  map (fun e => Some (snd e)) (lowerRun q (children this) ++ higherRun q (children this)).
Proof.
  intro H. rewrite find_scan, map_app. f_equal.
  unfold lowerRun, reverseKeys, keys.
  rewrite <- map_rev, takeWhile_map, map_map.
  apply map_ext_in. intros e He.
  apply get_entry; [assumption|].
  apply takeWhile_incl in He. apply in_rev in He.
  apply filter_In in He. tauto.
Qed.

Lemma with_children_id (t : Tree) : with_children t (children t) = t.
Proof. now destruct t. Qed.

Lemma children_with_children (t : Tree) (m : Map) :
  children (with_children t m) = m.
Proof. reflexivity. Qed.

Lemma fold_remove (A U : Type) (f : A -> Key) (l : list A) (t : Tree) (u : U) :
  fold_left (fun (s : Tree * U) x => (remove (fst s) (f x), snd s)) l (t, u)
  = (with_children t (fold_left (fun m k => delete cmpK k m) (map f l) (children t)), u).
Proof.
  revert t. induction l as [|x l IH]; intro t; simpl.
  - now rewrite with_children_id.
  - rewrite IH. reflexivity.
Qed.

(** What [removeIntersecting] deletes: the keys of the run of the lower scan,
    then the keys of the run of the higher scan over the map that is left. *)
Lemma remove_scan (this : Tree) (q : Key) :
  children (removeIntersecting this q) =
  let m1 :=
    fold_left (fun m k => delete cmpK k m)
      (takeWhile (matches q) (reverseKeys (splitLower cmpK q true (children this))))
      (children this) in
  fold_left (fun m k => delete cmpK k m)
    (map fst (takeWhile (fun e => matches q (fst e)) (splitHigher cmpK q false m1)))
    m1.
Proof.
  unfold removeIntersecting, processIntersecting, entries.
  rewrite !forEachIter_run. cbn [fst snd].
  rewrite !(fold_remove (fun r : Key => r)). cbn [fst snd].
  rewrite (fold_remove (fun e : Key * Tree => fst e)). cbn [fst snd].
  rewrite !children_with_children, !map_id. cbv zeta.
  assert (E1 : forall l, takeWhile (fun x => negb (breakFn q x)) l
                         = takeWhile (matches q) l)
    by (intro; apply takeWhile_ext; intro; apply negb_breakFn).
  assert (E2 : forall l : Map, takeWhile (fun x => negb (breakFn q (fst x))) l
                               = takeWhile (fun e => matches q (fst e)) l)
    by (intro; apply takeWhile_ext; intro; apply negb_breakFn).
  rewrite !E1, !E2. reflexivity.
Qed.

Lemma removeIntersecting_node (this : Tree) (q : Key) :
  node (removeIntersecting this q) = node this /\
  range (removeIntersecting this q) = range this.
Proof.
  unfold removeIntersecting, processIntersecting, entries.
  rewrite !forEachIter_run. cbn [fst snd].
  rewrite !(fold_remove (fun r : Key => r)). cbn [fst snd].
  rewrite (fold_remove (fun e : Key * Tree => fst e)). cbn [fst snd].
  split; reflexivity.
Qed.

(** On a children map the scans of [removeIntersecting] leave what lies
    beyond the two runs. *)
Lemma remove_runs (this : Tree) (q : Key) :
  childrenOk cmp (children this) ->
  children (removeIntersecting this q) =
  rev (dropWhile (fun e => matches q (fst e))
         (rev (splitLower cmpK q true (children this))))
  ++ dropWhile (fun e => matches q (fst e))
       (splitHigher cmpK q false (children this)).
Proof.
  intro H. rewrite remove_scan. cbv zeta.
  set (m := children this) in *.
  set (mt := fun e : Key * Tree => matches q (fst e)).
  pose proof (split_partition q H) as Hm.
  set (lower := splitLower cmpK q true m) in *.
  set (higher := splitHigher cmpK q false m) in *.
  pose proof (takeWhile_dropWhile mt (rev lower)) as Hl.
  pose proof (takeWhile_dropWhile mt higher) as Hh.
  assert (Hlower : lower = rev (dropWhile mt (rev lower)) ++ rev (takeWhile mt (rev lower))).
  { rewrite <- rev_app_distr, Hl. now rewrite rev_involutive. }
  set (tw := takeWhile mt (rev lower)) in *.
  set (dw := dropWhile mt (rev lower)) in *.
  assert (Hks : takeWhile (matches q) (reverseKeys lower) = map fst tw).
  { unfold reverseKeys, keys. now rewrite <- map_rev, takeWhile_map. }
  rewrite Hks.
  assert (Hm' : m = rev dw ++ rev tw ++ higher).
  { rewrite Hm at 1. rewrite Hlower at 1. now rewrite <- app_assoc. }
  assert (Hm1 : fold_left (fun m k => delete cmpK k m) (map fst tw) m = rev dw ++ higher).
  { rewrite Hm' at 1. apply delete_segment.
    - now rewrite <- Hm'.
    - intro k. unfold keys. rewrite !in_map_iff.
      split; intros (e & He1 & He2); exists e; (split; [assumption|]);
        [now apply in_rev in He2 | now apply in_rev]. }
  rewrite Hm1.
  assert (Hlow : Forall (fun e => cmpK (fst e) q <= 0) (rev dw)).
  { rewrite Forall_forall. intros e He.
    pose proof (splitLower_Forall q m) as Hf. rewrite Forall_forall in Hf.
    apply Hf. fold lower. rewrite Hlower. apply in_or_app. now left. }
  pose proof (@splitHigher_app q (rev dw) higher Hlow (splitHigher_Forall q m)) as Hsh.
  rewrite Hsh. rewrite <- Hh at 2.
  apply delete_segment.
  - rewrite Hh. apply childrenOk_cut with (L := rev tw). now rewrite <- Hm'.
  - intro k. reflexivity.
Qed.

Lemma disjoint_apart (m : Map) : siblingsDisjoint m -> siblingsApart m.
Proof.
  apply StronglySorted_weaken. unfold leftOf, notAfter. intros; lia.
Qed.

(** Under the invariant of siblings the lower run is every child at or below
    the query that answers it. *)
Lemma lowerRun_all (q : Key) (m : Map) :
  childrenOk cmp m -> siblingsApart m -> siblingsWellFormed m ->
  cmp (start q) (end_ q) <= 0 ->
  lowerRun q m =
  filter (fun e => matches q (fst e)) (rev (splitLower cmpK q true m)).
Proof.
  intros H Hap Hwf Hq. unfold lowerRun.
  apply takeWhile_is_filter
    with (R := fun a b : Key * Tree =>
                 keyBefore b a /\ notAfter (fst b) (fst a)).
  - apply StronglySorted_rev with
      (R := fun a b : Key * Tree => keyBefore a b /\ notAfter (fst a) (fst b)).
    apply StronglySorted_filter.
    apply StronglySorted_conj; [apply (keysAscend H) | exact Hap].
  - intros x y Hx Hy [Hyx Hna] Hmx.
    apply in_rev, filter_In in Hx. destruct Hx as [Hx Hxq].
    apply in_rev, filter_In in Hy. destruct Hy as [Hy _].
    apply Z.leb_le in Hxq.
    destruct (matches q (fst y)) eqn:Hmy; [|reflexivity].
    rewrite <- Hmx. symmetry.
    apply (lower_side law) with (ci := fst y); try assumption.
    + apply (childrenOk_cmp y H Hy).
    + apply (childrenOk_cmp x H Hx).
    + unfold siblingsWellFormed in Hwf. rewrite Forall_forall in Hwf.
      now apply (Hwf x).
Qed.

(** Under the invariant of siblings the higher run is every child above the
    query that answers it. *)
Lemma higherRun_all (q : Key) (m : Map) :
  childrenOk cmp m -> siblingsApart m -> siblingsWellFormed m ->
  cmp (start q) (end_ q) <= 0 ->
  higherRun q m =
  filter (fun e => matches q (fst e)) (splitHigher cmpK q false m).
Proof.
  intros H Hap Hwf Hq. unfold higherRun.
  apply takeWhile_is_filter
    with (R := fun a b : Key * Tree =>
                 keyBefore a b /\ notAfter (fst a) (fst b)).
  - apply StronglySorted_filter.
    apply StronglySorted_conj; [apply (keysAscend H) | exact Hap].
  - intros x y Hx Hy [Hxy Hna] Hmx.
    apply filter_In in Hx. destruct Hx as [Hx Hxq].
    apply filter_In in Hy. destruct Hy as [Hy _].
    apply Z.gtb_lt in Hxq.
    destruct (matches q (fst y)) eqn:Hmy; [|reflexivity].
    rewrite <- Hmx. symmetry.
    apply (higher_side law) with (cj := fst y); try assumption.
    + apply (childrenOk_cmp x H Hx).
    + apply (childrenOk_cmp y H Hy).
    + unfold siblingsWellFormed in Hwf. rewrite Forall_forall in Hwf.
      now apply (Hwf y).
Qed.

(** The nodes that answer a query, read off the two parts of the map. *)
Lemma matching_split (q : Key) (m : Map) :
  childrenOk cmp m ->
  matching q m =
  map snd (filter (fun e => matches q (fst e)) (splitLower cmpK q true m))
  ++ map snd (filter (fun e => matches q (fst e)) (splitHigher cmpK q false m)).
Proof.
  intro H. unfold matching, values.
  rewrite <- map_app, <- filter_app, <- (split_partition q H).
  pose proof (keysAreRanges H) as Hr. clear H.
  induction Hr as [|a m Ha _ IH]; simpl; [reflexivity|].
  rewrite Ha. destruct (matches q (fst a)); simpl; now rewrite IH.
Qed.

Lemma childrenOk_filter (p : Key * Tree -> bool) (m : Map) :
  childrenOk cmp m -> childrenOk cmp (filter p m).
Proof.
  intros [Hs Hc Hr].
  split; [now apply StronglySorted_filter | |];
    rewrite Forall_forall in *; intros e He; apply filter_In in He;
    [apply Hc | apply Hr]; tauto.
Qed.

Lemma removeIntersecting_ok (this : Tree) (q : Key) :
  childrenOk cmp (children this) ->
  childrenOk cmp (children (removeIntersecting this q)).
Proof.
  intro H. rewrite remove_scan. cbv zeta.
  rewrite !fold_delete. now repeat apply childrenOk_filter.
Qed.

(** What [removeIntersecting] leaves lies at or below the query, up to the
    first part, and above it, from there on. *)
Lemma beyond_lower (q : Key) (m : Map) :
  Forall (fun e => cmpK (fst e) q <= 0)
    (rev (dropWhile (fun e => matches q (fst e)) (rev (splitLower cmpK q true m)))).
Proof.
  pose proof (splitLower_Forall q m) as Hf.
  rewrite Forall_forall in *. intros e He. apply Hf.
  apply in_rev. apply in_rev in He. now apply dropWhile_incl in He.
Qed.

Lemma beyond_higher (q : Key) (m : Map) :
  Forall (fun e => 0 < cmpK (fst e) q)
    (dropWhile (fun e => matches q (fst e)) (splitHigher cmpK q false m)).
Proof.
  pose proof (splitHigher_Forall q m) as Hf.
  rewrite Forall_forall in *. intros e He. apply Hf.
  now apply dropWhile_incl in He.
Qed.

(** After [removeIntersecting] both scans stop at their first step. *)
Lemma runs_after_remove (this : Tree) (q : Key) :
  childrenOk cmp (children this) ->
  lowerRun q (children (removeIntersecting this q)) = [] /\
  higherRun q (children (removeIntersecting this q)) = [].
Proof.
  intro H. rewrite (remove_runs this q H). unfold lowerRun, higherRun.
  rewrite (@splitLower_app q _ _ (beyond_lower q _) (beyond_higher q _)).
  rewrite (@splitHigher_app q _ _ (beyond_lower q _) (beyond_higher q _)).
  rewrite rev_involutive. split; apply takeWhile_after_dropWhile.
Qed.

Lemma tree_ext (a b : Tree) :
  node a = node b -> range a = range b -> children a = children b -> a = b.
Proof.
  destruct a, b; simpl; intros; subst; reflexivity.
Qed.

(** [set] puts a key that lies between two parts of a map between them. *)
Lemma set_between (k : Key) (v : Tree) (A H : Map) :
  Forall (fun e => cmpK (fst e) k < 0) A ->
  Forall (fun e => 0 < cmpK (fst e) k) H ->
  set cmpK k v (A ++ H) = A ++ (k, v) :: H.
Proof.
  intros HA HH. induction HA as [|a A Ha _ IH]; simpl.
  - destruct HH as [|h H Hh _]; simpl; [reflexivity|].
    destruct h as [hk hv]. simpl in Hh.
    destruct (Z.gtb_spec (cmpK hk k) 0); [reflexivity | lia].
  - destruct a as [ak av]. simpl in Ha.
    destruct (Z.gtb_spec (cmpK ak k) 0); [lia|].
    destruct (Z.eqb_spec (cmpK ak k) 0); [lia|].
    now rewrite IH.
Qed.

(** The entries of a map after [set]. *)
Lemma set_In (k : Key) (v : Tree) (m : Map) e :
  childrenOk cmp m -> comparator k = cmp ->
  (In e (set cmpK k v m) <->
   e = (k, v) \/ (In e m /\ cmpK (fst e) k <> 0)).
Proof.
  intros H Hk. induction m as [|a m IH]; simpl.
  - split; [intros [<-|[]]; now left | intros [->|[[] _]]; now left].
  - assert (Hm : childrenOk cmp m)
      by (apply (childrenOk_app_inv [a] m) in H; tauto).
    assert (Hca : comparator (fst a) = cmp) by (apply (childrenOk_cmp a H); now left).
    destruct a as [ak av]. simpl in Hca.
    assert (Hlater : forall x, In x m -> cmpK ak (fst x) < 0).
    { intros x Hx. now destruct (keys_differ [(ak, av)] m (ak, av) x H);
        [now left | assumption |]. }
    destruct (Z.gtb_spec (cmpK ak k) 0) as [Hgt|Hle].
    + simpl. split.
      * intros [<-|[<-|He]]; [now left | right; split; [now left | simpl; lia] |].
        right. split; [now right|].
        specialize (Hlater _ He).
        assert (cmpK k (fst e) < 0).
        { apply (compare_lt_trans law) with ak; try assumption; [|lia].
          apply (compare_flip law); assumption. }
        apply (compare_flip law) in H0; [lia | assumption |].
        apply (childrenOk_cmp e Hm He).
      * intros [->|[[<-|He] _]]; [now left | right; now left | right; now right].
    + destruct (Z.eqb_spec (cmpK ak k) 0) as [Heq|Hne].
      * simpl. split.
        -- intros [<-|He]; [now left|]. right. split; [now right|].
           specialize (Hlater _ He).
           assert (cmpK k (fst e) < 0).
           { apply (compare_le_lt_trans law) with ak; try assumption.
             pose proof (compare_zero_sym law _ _ Hca Hk Heq). lia. }
           apply (compare_flip law) in H0; [lia | assumption |].
           apply (childrenOk_cmp e Hm He).
        -- intros [->|[[<-|He] Hne]]; [now left | simpl in Hne; lia | now right].
      * simpl. rewrite (IH Hm). split.
        -- intros [<-|[->|[He Hne']]]; [right; split; [now left | simpl; lia] | now left |].
           right. split; [now right | assumption].
        -- intros [->|[[<-|He] Hne']]; [right; now left | now left |].
           right. right. now split.
Qed.

(** [set] keeps a children map in order. *)
Lemma set_ok (k : Key) (v : Tree) (m : Map) :
  childrenOk cmp m -> comparator k = cmp -> range v = k ->
  childrenOk cmp (set cmpK k v m).
Proof.
  intros H Hk Hv. induction m as [|a m IH]; simpl.
  - split; repeat constructor; assumption.
  - assert (Hm : childrenOk cmp m)
      by (apply (childrenOk_app_inv [a] m) in H; tauto).
    assert (Hca : comparator (fst a) = cmp) by (apply (childrenOk_cmp a H); now left).
    assert (Hra : range (snd a) = fst a) by (apply (childrenOk_range a H); now left).
    assert (Hlater : forall x, In x m -> cmpK (fst a) (fst x) < 0).
    { intros x Hx. now destruct (keys_differ [a] m a x H);
        [now left | assumption |]. }
    destruct a as [ak av]. simpl in Hca, Hra, Hlater.
    assert (Hnew : childrenOk cmp [(k, v)])
      by (split; repeat constructor; assumption).
    destruct (Z.gtb_spec (cmpK ak k) 0) as [Hgt|Hle].
    + apply (@childrenOk_app [(k, v)] ((ak, av) :: m)); [assumption | assumption |].
      intros x y [<-|[]] Hy. unfold keyBefore. simpl.
      assert (Hka : cmpK k ak < 0) by (apply (compare_flip law); assumption).
      destruct Hy as [<-|Hy]; [assumption|].
      apply (compare_lt_trans law) with ak; try assumption.
      specialize (Hlater _ Hy). lia.
    + destruct (Z.eqb_spec (cmpK ak k) 0) as [Heq|Hne].
      * apply (@childrenOk_app [(k, v)] m); [assumption | assumption |].
        intros x y [<-|[]] Hy. unfold keyBefore. simpl.
        apply (compare_le_lt_trans law) with ak; try assumption.
        -- pose proof (compare_zero_sym law _ _ Hca Hk Heq). lia.
        -- now apply Hlater.
      * apply (@childrenOk_app [(ak, av)] (set cmpK k v m)).
        -- apply (childrenOk_app_inv [(ak, av)] m) in H. tauto.
        -- now apply IH.
        -- intros x y [<-|[]] Hy. unfold keyBefore. simpl.
           apply (set_In k v y Hm Hk) in Hy.
           destruct Hy as [->|[Hy _]]; [simpl; lia | now apply Hlater].
Qed.

(** Every method keeps the children map in order: a new node starts with an
    empty one, [addChildNode] and [addChild] insert under the range of the
    child, [remove] and [removeAll] only delete. *)
Lemma newRangeBinTree_ok (rng : Key) (n : T) :
  childrenOk cmp (children (newRangeBinTree rng n)).
Proof. split; constructor. Qed.

Lemma addChildNode_ok (this child : Tree) :
  childrenOk cmp (children this) -> comparator (range child) = cmp ->
  childrenOk cmp (children (addChildNode this child)).
Proof.
  intros H Hc. unfold addChildNode. rewrite children_with_children.
  apply set_ok; [assumption | assumption | reflexivity].
Qed.

Lemma addChild_ok (this : Tree) (rng : Key) (n : T) :
  childrenOk cmp (children this) -> comparator rng = cmp ->
  childrenOk cmp (children (addChild this rng n)).
Proof.
  intros H Hc. unfold addChild. now apply addChildNode_ok.
Qed.

Lemma remove_ok (this : Tree) (rng : Key) :
  childrenOk cmp (children this) -> childrenOk cmp (children (remove this rng)).
Proof.
  intro H. unfold remove. rewrite children_with_children.
  now apply childrenOk_filter.
Qed.

Lemma removeAll_ok (this : Tree) (ranges : list Key) :
  childrenOk cmp (children this) ->
  childrenOk cmp (children (removeAll this ranges)).
Proof.
  unfold removeAll. revert this.
  induction ranges as [|r ranges IH]; intros this H; simpl; [assumption|].
  apply IH. now apply remove_ok.
Qed.

(** What the lower scan of [removeIntersecting] leaves lies strictly below
    the query: a key equal to the query answers it and is the first the
    scan meets. *)
Lemma beyond_lower_strict (q : Key) (m : Map) :
  childrenOk cmp m ->
  Forall (fun e => cmpK (fst e) q < 0)
    (rev (dropWhile (fun e => matches q (fst e)) (rev (splitLower cmpK q true m)))).
Proof.
  intro H.
  set (mt := fun e : Key * Tree => matches q (fst e)).
  set (lower := splitLower cmpK q true m).
  assert (Hin : forall e, In e lower -> In e m /\ cmpK (fst e) q <= 0).
  { intros e He. apply filter_In in He. destruct He as [He Hq].
    apply Z.leb_le in Hq. now split. }
  assert (Hs : StronglySorted (fun a b : Key * Tree => keyBefore b a) (rev lower)).
  { apply StronglySorted_rev with (R := @keyBefore T RType).
    apply StronglySorted_filter, (keysAscend H). }
  pose proof (takeWhile_dropWhile mt (rev lower)) as Hsplit.
  destruct (dropWhile mt (rev lower)) as [|h rest] eqn:E; [constructor|].
  pose proof (dropWhile_head _ _ E) as Hh.
  rewrite <- Hsplit in Hs. apply StronglySorted_app_inv in Hs.
  destruct Hs as (_ & Hs & _). inversion Hs as [|? ? _ Hrest]; subst.
  assert (Hhl : In h lower).
  { apply in_rev. rewrite <- Hsplit. apply in_or_app. right. now left. }
  destruct (Hin h Hhl) as [Hhm Hhq].
  assert (Hhlt : cmpK (fst h) q < 0).
  { assert (cmpK (fst h) q <> 0); [|lia]. intro E0.
    assert (matches q (fst h) = true)
      by (eapply matches_equal_key; [apply (childrenOk_cmp h H Hhm) | assumption]).
    unfold mt in Hh. congruence. }
  rewrite Forall_forall in *. intros e He. apply in_rev in He.
  destruct He as [<-|He]; [assumption|].
  assert (Hel : In e lower).
  { apply in_rev. rewrite <- Hsplit. apply in_or_app. right. now right. }
  destruct (Hin e Hel) as [Hem _].
  apply (compare_lt_trans law) with (fst h).
  - apply (childrenOk_cmp e H Hem).
  - apply (childrenOk_cmp h H Hhm).
  - apply (Hrest e He).
  - lia.
Qed.

(** The children after [replaceIntersecting]: what the scans leave, with the
    new child between the two parts. *)
Lemma replace_children (this : Tree) (q : Key) (v : T) :
  childrenOk cmp (children this) ->
  children (replaceIntersecting this q v) =
  rev (dropWhile (fun e => matches q (fst e))
         (rev (splitLower cmpK q true (children this))))
  ++ (q, newRangeBinTree q v)
     :: dropWhile (fun e => matches q (fst e))
          (splitHigher cmpK q false (children this)).
Proof.
  intro H. unfold replaceIntersecting, addChild, addChildNode.
  rewrite children_with_children. simpl range.
  rewrite (remove_runs this q H).
  apply set_between; [now apply beyond_lower_strict | apply beyond_higher].
Qed.

Lemma replaceIntersecting_ok (this : Tree) (q : Key) (v : T) :
  childrenOk cmp (children this) -> comparator q = cmp ->
  childrenOk cmp (children (replaceIntersecting this q v)).
Proof.
  intros H Hq. unfold replaceIntersecting, addChild, addChildNode.
  rewrite children_with_children.
  apply set_ok; [now apply removeIntersecting_ok | assumption | reflexivity].
Qed.

(** A second [removeIntersecting] takes out the new child and nothing more. *)
Lemma remove_after_replace (this : Tree) (q : Key) (v : T) :
  childrenOk cmp (children this) -> comparator q = cmp ->
  children (removeIntersecting (replaceIntersecting this q v) q) =
  children (removeIntersecting this q).
Proof.
  intros H Hq.
  rewrite (remove_runs _ q (replaceIntersecting_ok this q v H Hq)).
  rewrite (remove_runs this q H), (replace_children this q v H).
  set (mt := fun e : Key * Tree => matches q (fst e)).
  set (dw := dropWhile mt (rev (splitLower cmpK q true (children this)))).
  set (dh := dropWhile mt (splitHigher cmpK q false (children this))).
  assert (Hqq : cmpK q q = 0) by now apply (compare_refl law).
  assert (Hlow : Forall (fun e : Key * Tree => cmpK (fst e) q <= 0)
                   (rev dw ++ [(q, newRangeBinTree q v)])).
  { rewrite Forall_app. split; [apply beyond_lower|].
    repeat constructor. simpl. lia. }
  pose proof (beyond_higher q (children this)) as Hhigh. fold mt dh in Hhigh.
  replace (rev dw ++ (q, newRangeBinTree q v) :: dh)
    with ((rev dw ++ [(q, newRangeBinTree q v)]) ++ dh)
    by now rewrite <- app_assoc.
  rewrite (@splitLower_app q _ _ Hlow Hhigh), (@splitHigher_app q _ _ Hlow Hhigh).
  rewrite rev_app_distr, rev_involutive. simpl rev. simpl app.
  simpl dropWhile. unfold mt at 1. simpl fst.
  assert (Hmq : matches q q = true) by (eapply matches_equal_key; eassumption).
  rewrite Hmq.
  unfold dw, dh. now rewrite !dropWhile_fixed.
Qed.

Lemma remove_incl (this : Tree) (q : Key) e :
  In e (children (removeIntersecting this q)) -> In e (children this).
Proof.
  rewrite remove_scan. cbv zeta. rewrite !fold_delete.
  intro He. apply filter_In in He. destruct He as [He _].
  apply filter_In in He. tauto.
Qed.

(** Under the invariant of siblings [removeIntersecting] deletes every child
    that answers the query and no other. *)
Lemma remove_all_matching (this : Tree) (q : Key) :
  childrenOk cmp (children this) ->
  siblingsApart (children this) -> siblingsWellFormed (children this) ->
  cmp (start q) (end_ q) <= 0 ->
  children (removeIntersecting this q) =
  filter (fun e => negb (matches q (fst e))) (children this).
Proof.
  intros H Hap Hwf Hq. rewrite (remove_runs this q H).
  rewrite (dropWhile_is_filter _ _ (lowerRun_all q H Hap Hwf Hq)).
  rewrite (dropWhile_is_filter _ _ (higherRun_all q H Hap Hwf Hq)).
  rewrite filter_rev, rev_involutive, <- filter_app.
  now rewrite <- (split_partition q H).
Qed.

Lemma replaceIntersecting_node (this : Tree) (q : Key) (v : T) :
  node (replaceIntersecting this q v) = node this /\
  range (replaceIntersecting this q v) = range this.
Proof.
  unfold replaceIntersecting, addChild, addChildNode, with_children. simpl.
  apply removeIntersecting_node.
Qed.

Lemma takeWhile_sorted (R : Key * Tree -> Key * Tree -> Prop)
    (p : Key * Tree -> bool) (l : Map) :
  StronglySorted R l -> StronglySorted R (takeWhile p l).
Proof.
  intro H. rewrite <- (takeWhile_dropWhile p l) in H.
  apply StronglySorted_app_inv in H. tauto.
Qed.

(** The lower run descends, the higher run ascends, in whatever order the
    map is sorted by. *)
Lemma lowerRun_sorted (R : Key * Tree -> Key * Tree -> Prop) (q : Key) (m : Map) :
  StronglySorted R m -> StronglySorted (fun a b => R b a) (lowerRun q m).
Proof.
  intro H. unfold lowerRun. apply takeWhile_sorted.
  apply StronglySorted_rev with (R := R). now apply StronglySorted_filter.
Qed.

Lemma higherRun_sorted (R : Key * Tree -> Key * Tree -> Prop) (q : Key) (m : Map) :
  StronglySorted R m -> StronglySorted R (higherRun q m).
Proof.
  intro H. unfold higherRun. apply takeWhile_sorted.
  now apply StronglySorted_filter.
Qed.

Lemma lowerRun_In (q : Key) (m : Map) e :
  In e (lowerRun q m) ->
  In e m /\ cmpK (fst e) q <= 0 /\ matches q (fst e) = true.
Proof.
  intro He. unfold lowerRun in He.
  pose proof (takeWhile_Forall (fun e => matches q (fst e))
                (rev (splitLower cmpK q true m))) as Hf.
  rewrite Forall_forall in Hf. specialize (Hf e He).
  apply takeWhile_incl, in_rev, filter_In in He. destruct He as [He Hq].
  apply Z.leb_le in Hq. tauto.
Qed.

Lemma higherRun_In (q : Key) (m : Map) e :
  In e (higherRun q m) ->
  In e m /\ 0 < cmpK (fst e) q /\ matches q (fst e) = true.
Proof.
  intro He. unfold higherRun in He.
  pose proof (takeWhile_Forall (fun e => matches q (fst e))
                (splitHigher cmpK q false m)) as Hf.
  rewrite Forall_forall in Hf. specialize (Hf e He).
  apply takeWhile_incl, filter_In in He. destruct He as [He Hq].
  apply Z.gtb_lt in Hq. tauto.
Qed.

(** The first entry of the lower run has the greatest key of the map that
    does not exceed the query. *)
Lemma lowerRun_head_greatest (q : Key) (m : Map) e rest :
  childrenOk cmp m -> lowerRun q m = e :: rest ->
  forall e', In e' m -> cmpK (fst e') q <= 0 -> cmpK (fst e') (fst e) <= 0.
Proof.
  intros H Hrun e' He' Hq'.
  assert (Hl : In e' (rev (splitLower cmpK q true m))).
  { rewrite <- in_rev. apply filter_In. split; [assumption | now apply Z.leb_le]. }
  assert (Hs : StronglySorted (fun a b : Key * Tree => keyBefore b a)
                 (rev (splitLower cmpK q true m))).
  { apply StronglySorted_rev with (R := @keyBefore T RType).
    apply StronglySorted_filter, (keysAscend H). }
  unfold lowerRun in Hrun.
  destruct (rev (splitLower cmpK q true m)) as [|x l]; [destruct Hl|].
  simpl in Hrun. destruct (matches q (fst x)); [|discriminate].
  inversion Hrun; subst x. inversion Hs as [|? ? _ Hf]; subst.
  destruct Hl as [<-|Hl].
  - rewrite (compare_refl law); [lia|]. now apply (childrenOk_cmp e H).
  - rewrite Forall_forall in Hf. specialize (Hf e' Hl). unfold keyBefore in Hf. lia.
Qed.

(** Every entry of the lower run comes before every entry of the higher run
    in the order of the map. *)
Lemma runs_in_order (q : Key) (m : Map) x y :
  childrenOk cmp m -> In x (lowerRun q m) -> In y (higherRun q m) -> keyBefore x y.
Proof.
  intros H Hx Hy.
  pose proof (split_partition q H) as Hm. rewrite Hm in H.
  apply childrenOk_app_inv in H. destruct H as (_ & _ & H). apply H.
  - unfold lowerRun in Hx. now apply takeWhile_incl, in_rev in Hx.
  - unfold higherRun in Hy. now apply takeWhile_incl in Hy.
Qed.

(** The sequence of the two runs ascends exactly when the lower run has one
    entry at most. *)
Lemma runs_ascending_iff (q : Key) (m : Map) :
  childrenOk cmp m ->
  (StronglySorted (@keyBefore T RType) (lowerRun q m ++ higherRun q m) <->
   (List.length (lowerRun q m) <= 1)%nat).
Proof.
  intro H.
  pose proof (lowerRun_sorted q (keysAscend H)) as Hlow.
  pose proof (higherRun_sorted q (keysAscend H)) as Hhigh.
  split.
  - intro Hs. apply StronglySorted_app_inv in Hs. destruct Hs as (Hs & _ & _).
    destruct (lowerRun q m) as [|x [|y l]] eqn:E; simpl; [lia | lia | exfalso].
    assert (Hx : In x (lowerRun q m)) by (rewrite E; now left).
    assert (Hy : In y (lowerRun q m)) by (rewrite E; right; now left).
    apply lowerRun_In in Hx, Hy.
    inversion Hs as [|? ? _ Hf]; subst. inversion Hf as [|? ? Hxy _]; subst.
    inversion Hlow as [|? ? _ Hf']; subst. inversion Hf' as [|? ? Hyx _]; subst.
    unfold keyBefore in *.
    apply (compare_flip law) in Hxy;
      [lia | apply (childrenOk_cmp x H) | apply (childrenOk_cmp y H)]; tauto.
  - intro Hlen. apply StronglySorted_app; [|assumption|].
    + destruct (lowerRun q m) as [|x [|y l]]; simpl in Hlen;
        [constructor | repeat constructor | lia].
    + intros x y. apply runs_in_order. assumption.
Qed.

(** Under the invariant of siblings one child at most at or below the query
    answers it. *)
Lemma lowerRun_single (q : Key) (m : Map) :
  childrenOk cmp m -> siblingsDisjoint m -> siblingsWellFormed m ->
  cmp (start q) (end_ q) <= 0 ->
  (List.length (lowerRun q m) <= 1)%nat.
Proof.
  intros H Hd Hwf Hq.
  pose proof (lowerRun_sorted q (StronglySorted_conj (keysAscend H) Hd)) as Hs.
  destruct (lowerRun q m) as [|x [|y l]] eqn:E; simpl; [lia | lia | exfalso].
  assert (Hx : In x (lowerRun q m)) by (rewrite E; now left).
  assert (Hy : In y (lowerRun q m)) by (rewrite E; right; now left).
  apply lowerRun_In in Hx, Hy.
  destruct Hx as (Hxm & Hxq & _). destruct Hy as (Hym & _ & Hmy).
  inversion Hs as [|? ? _ Hf]; subst. inversion Hf as [|? ? [Hyx Hlo] _]; subst.
  unfold siblingsWellFormed in Hwf. rewrite Forall_forall in Hwf.
  assert (Hno : matches q (fst y) = false).
  { apply (lower_side_single law) with (cj := fst x); try assumption.
    - apply (childrenOk_cmp y H Hym).
    - apply (childrenOk_cmp x H Hxm).
    - now apply (Hwf y). }
  congruence.
Qed.

Lemma siblingsApart_filter (p : Key * Tree -> bool) (m : Map) :
  siblingsApart m -> siblingsApart (filter p m).
Proof. apply StronglySorted_filter. Qed.

Lemma siblingsWellFormed_filter (p : Key * Tree -> bool) (m : Map) :
  siblingsWellFormed m -> siblingsWellFormed (filter p m).
Proof.
  unfold siblingsWellFormed. rewrite !Forall_forall. intros H e He.
  apply H. apply filter_In in He. tauto.
Qed.

(** [removeIntersecting] for one range after the other keeps the children
    map in order. *)
Lemma evict_ok (found : list (Key * T)) (t : Tree) :
  childrenOk cmp (children t) ->
  childrenOk cmp
    (children (fold_left (fun t p => removeIntersecting t (fst p)) found t)).
Proof.
  revert t. induction found as [|p found IH]; intros t H; simpl; [assumption|].
  apply IH. now apply removeIntersecting_ok.
Qed.

(** Under the invariant of siblings it leaves the children that answer none
    of the ranges. *)
Lemma evict_children (found : list (Key * T)) (t : Tree) :
  childrenOk cmp (children t) ->
  siblingsApart (children t) -> siblingsWellFormed (children t) ->
  Forall (fun p => cmp (start (fst p)) (end_ (fst p)) <= 0) found ->
  children (fold_left (fun t p => removeIntersecting t (fst p)) found t) =
  filter (fun e => forallb (fun p => negb (matches (fst p) (fst e))) found)
    (children t).
Proof.
  revert t. induction found as [|p found IH]; intros t H Hap Hwf Hq; simpl.
  - symmetry. apply filter_all. now apply Forall_forall.
  - inversion Hq as [|? ? Hp Hq']; subst.
    pose proof (remove_all_matching t (fst p) H Hap Hwf Hp) as Hrm.
    rewrite IH; try assumption.
    + rewrite Hrm. apply filter_twice.
    + now apply removeIntersecting_ok.
    + rewrite Hrm. now apply siblingsApart_filter.
    + rewrite Hrm. now apply siblingsWellFormed_filter.
Qed.

Lemma addChildren_children (found : list (Key * T)) (t : Tree) :
  children (addChildren t found) =
  fold_left (fun m p => set cmpK (fst p) (newRangeBinTree (fst p) (snd p)) m)
    found (children t).
Proof.
  unfold addChildren. revert t.
  induction found as [|p found IH]; intro t; simpl; [reflexivity|].
  now rewrite IH.
Qed.

Lemma inserted_ok (found : list (Key * T)) (m : Map) :
  childrenOk cmp m -> Forall (fun p => comparator (fst p) = cmp) found ->
  childrenOk cmp
    (fold_left (fun m p => set cmpK (fst p) (newRangeBinTree (fst p) (snd p)) m)
       found m).
Proof.
  revert m. induction found as [|p found IH]; intros m H Hc; simpl; [assumption|].
  pose proof (Forall_inv Hc) as Hc0. apply Forall_inv_tail in Hc.
  apply IH; [|assumption].
  apply set_ok; [assumption | assumption | reflexivity].
Qed.

(** The entries after a run of insertions: for each key the node inserted
    last, and the earlier entries whose key none of the insertions has. *)
Lemma inserted_In (found : list (Key * T)) (m : Map) e :
  childrenOk cmp m -> Forall (fun p => comparator (fst p) = cmp) found ->
  (In e (fold_left (fun m p => set cmpK (fst p) (newRangeBinTree (fst p) (snd p)) m)
           found m) <->
   (exists l1 p l2,
      found = l1 ++ p :: l2 /\ e = (fst p, newRangeBinTree (fst p) (snd p)) /\
      Forall (fun p' => cmpK (fst p) (fst p') <> 0) l2) \/
   (In e m /\ Forall (fun p => cmpK (fst e) (fst p) <> 0) found)).
Proof.
  revert m. induction found as [|p0 found IH]; intros m H Hc; simpl.
  - split.
    + intro He. right. split; [assumption | constructor].
    + intros [(l1 & p & l2 & Hf & _)|[He _]]; [|assumption].
      destruct l1; discriminate.
  - pose proof (Forall_inv Hc) as Hc0. pose proof (Forall_inv_tail Hc) as Hc'.
    assert (Hok : childrenOk cmp (set cmpK (fst p0) (newRangeBinTree (fst p0) (snd p0)) m))
      by (apply set_ok; [assumption | assumption | reflexivity]).
    rewrite (IH _ Hok Hc'). rewrite (set_In _ _ e H Hc0). split.
    + intros [(l1 & p & l2 & -> & He & Hl2)|[[->|[He Hne]] Hall]].
      * left. exists (p0 :: l1), p, l2. now repeat split.
      * left. exists [], p0, found. now repeat split.
      * right. split; [assumption|]. now constructor.
    + intros [(l1 & p & l2 & Hf & He & Hl2)|[He Hall]].
      * destruct l1 as [|p1 l1]; simpl in Hf; inversion Hf; subst.
        -- right. split; [now left | assumption].
        -- left. exists l1, p, l2. now repeat split.
      * inversion Hall; subst. right. split; [right; now split | assumption].
Qed.

(** Every key inserted is a key of the map afterwards. *)
Lemma inserted_present (found : list (Key * T)) (m : Map) p :
  childrenOk cmp m -> Forall (fun p => comparator (fst p) = cmp) found ->
  In p found ->
  has cmpK (fst p)
    (fold_left (fun m p => set cmpK (fst p) (newRangeBinTree (fst p) (snd p)) m)
       found m) = true.
Proof.
  intros H Hc Hp. unfold has. apply existsb_exists.
  assert (Hex : exists e,
    In e (fold_left (fun m p => set cmpK (fst p) (newRangeBinTree (fst p) (snd p)) m)
            found m) /\
    cmpK (fst e) (fst p) = 0);
    [|destruct Hex as (e & He & E0); exists e; split; [assumption|];
      now apply Z.eqb_eq].
  revert p Hp.
  induction found as [|pl found IH] using rev_ind; intros p Hp; [destruct Hp|].
  rewrite Forall_app in Hc. destruct Hc as [Hc Hcl]. pose proof (Forall_inv Hcl) as Hpl.
  rewrite fold_left_app. simpl.
  pose proof (@inserted_ok found m H Hc) as Hok. cbv beta in Hpl.
  apply in_app_or in Hp. destruct Hp as [Hp|[<-|[]]].
  - destruct (IH Hc p Hp) as (e & He & Hep).
    destruct (Z.eq_dec (cmpK (fst e) (fst pl)) 0) as [Heq|Hne].
    + exists (fst pl, newRangeBinTree (fst pl) (snd pl)). split.
      * apply (set_In _ _ _ Hok Hpl). now left.
      * simpl.
        assert (Hce : comparator (fst e) = cmp) by apply (childrenOk_cmp e Hok He).
        apply (compare_zero_trans law) with (fst e); try assumption.
        now apply (compare_zero_sym law).
    + exists e. split; [|assumption].
      apply (set_In _ _ _ Hok Hpl). right. now split.
  - exists (fst pl, newRangeBinTree (fst pl) (snd pl)). split.
    + apply (set_In _ _ _ Hok Hpl). now left.
    + simpl. now apply (compare_refl law).
Qed.
End ScanFacts.

(* ================================================================== *)
(** ** Properties of [Range] *)

(** C7. An interval whose comparator answers 0 on equal arguments lies
    inside itself and compares equal to itself. *)
Theorem inside_compare_reflexive (T : Type) (A : Range T) :
  (forall x, comparator A x x = 0) ->
  inside A A = true /\ compare A A = 0.
Proof.
  intro H. unfold inside, compare. rewrite !H. split; reflexivity.
Qed.

Lemma inside_compare_reflexive_witness :
  inside (NumberRange 3 8) (NumberRange 3 8) = true /\
  compare (NumberRange 3 8) (NumberRange 3 8) = 0.
Proof.
  apply (@inside_compare_reflexive Z (NumberRange 3 8)).
  intro x. simpl. unfold compareNumbers. lia.
Defined.

(** C6. [intersects] is not symmetric: two number intervals tell the two
    directions apart; and whenever [B] strictly contains [A] and no bound
    of [B] lies in [A], [A.intersects(B)] is false while [B.intersects(A)]
    is true. *)
Theorem intersects_not_symmetric :
  (exists A B : Range Z,
     comparator A = comparator B /\ intersects A B <> intersects B A) /\
  (forall (T : Type) (A B : Range T),
     comparator A = comparator B ->
     strictlyContains B A ->
     contains A (start B) = false -> contains A (end_ B) = false ->
     intersects A B = false /\ intersects B A = true).
Proof.
  split.
  - exists (NumberRange 2 3), (NumberRange 0 10). split; [reflexivity|].
    vm_compute. discriminate.
  - intros T A B _ (H1 & H2 & _ & _) Hs He. split.
    + unfold intersects. now rewrite Hs, He.
    + unfold intersects, contains.
      apply orb_true_iff. left. apply andb_true_iff.
      split; apply Z.leb_le; lia.
Qed.

Lemma intersects_not_symmetric_witness :
  intersects (NumberRange 2 3) (NumberRange 0 10) = false /\
  intersects (NumberRange 0 10) (NumberRange 2 3) = true.
Proof.
  apply (proj2 intersects_not_symmetric Z (NumberRange 2 3) (NumberRange 0 10)).
  - reflexivity.
  - unfold strictlyContains. simpl. unfold compareNumbers. lia.
  - reflexivity.
  - reflexivity.
Defined.

(* ================================================================== *)
(** ** Properties of the scans *)

(** C4. On a node whose children map is in order, [find(q)] right after
    [removeIntersecting(q)] returns the empty sequence. *)
Theorem find_after_removeIntersecting (T RType : Type) (cmp : RType -> RType -> Z)
    (this : RangeBinTree T RType) (q : Range RType) :
  Lawful cmp -> childrenOk cmp (children this) ->
  find (removeIntersecting this q) q = [].
Proof.
  intros law H.
  rewrite (find_runs law _ q (removeIntersecting_ok this q H)).
  destruct (runs_after_remove law this q H) as [-> ->]. reflexivity.
Qed.

Lemma find_after_removeIntersecting_witness :
  find (removeIntersecting threeSiblings (NumberRange 3 7)) (NumberRange 3 7) = [].
Proof.
  apply (@find_after_removeIntersecting nat Z compareNumbers threeSiblings).
  - exact compareNumbers_lawful.
  - solve_childrenOk.
Defined.

(** The sample of the specification: among the siblings [0,5], [6,9],
    [10,15] the query [7,7] finds the child [6,9] and no other. *)
Lemma find_three_siblings :
  find threeSiblings (NumberRange 7 7) = [Some (leafOf 6 9)].
Proof. reflexivity. Qed.

(** C1, as amended.  On a node whose children are well-formed, pairwise
    non-overlapping and in key order, and for a well-formed query [q],
    [find(q)] returns exactly the children that intersect [q] or lie inside
    it, each once.  Among [0,5], [6,9], [10,15] the query [7,7] finds
    [6,9] alone. *)
Theorem find_exact :
  (forall (T RType : Type) (cmp : RType -> RType -> Z)
          (this : RangeBinTree T RType) (q : Range RType),
     Lawful cmp -> childrenOk cmp (children this) ->
     siblingsDisjoint (children this) -> siblingsWellFormed (children this) ->
     comparator q = cmp -> wellFormed q ->
     exists l, find this q = map Some l /\
               Permutation l (matching q (children this))) /\
  find threeSiblings (NumberRange 7 7) = [Some (leafOf 6 9)].
Proof.
  split; [|reflexivity].
  intros T RType cmp this q law H Hd Hwf Hq Hwq.
  unfold wellFormed in Hwq. rewrite Hq in Hwq.
  pose proof (disjoint_apart Hd) as Hap.
  exists (map snd (lowerRun q (children this) ++ higherRun q (children this))).
  split.
  - rewrite (find_runs law this q H). now rewrite map_map.
  - rewrite (lowerRun_all law q H Hap Hwf Hwq), (higherRun_all law q H Hap Hwf Hwq).
    rewrite (matching_split law q H), map_app, filter_rev, map_rev.
    apply Permutation_app_tail. apply Permutation_sym, Permutation_rev.
Qed.

Lemma find_exact_witness :
  exists l, find threeSiblings (NumberRange 7 7) = map Some l /\
            Permutation l (matching (NumberRange 7 7) (children threeSiblings)).
Proof.
  apply (proj1 find_exact nat Z compareNumbers threeSiblings (NumberRange 7 7)).
  - exact compareNumbers_lawful.
  - solve_childrenOk.
  - repeat constructor; vm_compute; reflexivity.
  - repeat constructor; vm_compute; discriminate.
  - reflexivity.
  - vm_compute. discriminate.
Defined.

(** A child whose bounds are out of order hides behind its well-formed
    sibling: among [5,6] and [10,3] the query [0,4] holds [10,3] inside
    (10 >= 0 and 3 <= 4), but the higher scan stops at [5,6]. *)
Lemma find_misses_reversed_child :
  siblingsDisjoint (children reversedSibling) /\
  find reversedSibling (NumberRange 0 4) = [] /\
  matching (NumberRange 0 4) (children reversedSibling) = [leafOf 10 3].
Proof.
  split; [repeat constructor; vm_compute; reflexivity|].
  split; reflexivity.
Qed.

(** C1 as stated fails: the query may be any interval, also one whose bounds
    are out of order.  Among [0,5], [6,9], [10,15] the query [12,3] is
    intersected by [0,5] and by [10,15]; the lower scan stops at [6,9] and
    [find] returns [10,15] only. *)
Lemma find_exact_counterexample :
  ~ (forall (this : RangeBinTree nat Z) (q : Range Z),
       childrenOk compareNumbers (children this) ->
       siblingsDisjoint (children this) ->
       exists l, find this q = map Some l /\
                 Permutation l (matching q (children this))).
Proof.
  intro H.
  destruct (H threeSiblings (NumberRange 12 3)) as (l & Hf & Hp).
  - solve_childrenOk.
  - repeat constructor; vm_compute; reflexivity.
  - apply Permutation_length in Hp.
    apply (f_equal (@List.length _)) in Hf. rewrite List.length_map in Hf.
    rewrite <- Hf in Hp. vm_compute in Hp. discriminate.
Qed.

(** Where siblings overlap the scan stops early: among [0,10] and [2,3] the
    query [5,6] meets [2,3] first, which does not answer it, and [0,10],
    which does, is never looked at. *)
Lemma overlapping_siblings_scan :
  find overlappingSiblings (NumberRange 5 6) = [] /\
  matching (NumberRange 5 6) (children overlappingSiblings) = [leafOf 0 10].
Proof. split; reflexivity. Qed.

(** C3, as amended.  On every node, [replaceIntersecting(q, v)] done twice
    leaves the node as done once; afterwards [q] is the key of one child,
    which holds [v], and every other child was there before.  When the
    children are well-formed and pairwise non-overlapping and [q] is
    well-formed, the children afterwards are the new child and the earlier
    children that neither intersect [q] nor lie inside it. *)
Theorem replaceIntersecting_idempotent (T RType : Type) (cmp : RType -> RType -> Z)
    (this : RangeBinTree T RType) (q : Range RType) (v : T) :
  Lawful cmp -> childrenOk cmp (children this) -> comparator q = cmp ->
  let once := replaceIntersecting this q v in
  replaceIntersecting once q v = once /\
  get (@compare RType) q (children once) = Some (newRangeBinTree q v) /\
  List.length (filter (fun e => compare (fst e) q =? 0) (children once)) = 1%nat /\
  (forall e, In e (children once) ->
             e = (q, newRangeBinTree q v) \/ In e (children this)) /\
  (siblingsDisjoint (children this) -> siblingsWellFormed (children this) ->
   wellFormed q ->
   forall e, In e (children once) <->
             e = (q, newRangeBinTree q v) \/
             (In e (children this) /\ matches q (fst e) = false)).
Proof.
  intros law H Hq once.
  pose proof (replaceIntersecting_ok law this q v H Hq) as Hok. fold once in Hok.
  assert (Hqq : compare q q = 0) by now apply (compare_refl law).
  assert (Hin : In (q, newRangeBinTree q v) (children once)).
  { unfold once. rewrite (replace_children law this q v H).
    apply in_or_app. right. now left. }
  assert (Hset : forall e, In e (children once) <->
            e = (q, newRangeBinTree q v) \/
            (In e (children (removeIntersecting this q)) /\ compare (fst e) q <> 0)).
  { intro e. unfold once, replaceIntersecting, addChild, addChildNode.
    rewrite children_with_children. simpl range.
    apply (set_In law); [now apply removeIntersecting_ok | assumption]. }
  split; [|split; [|split; [|split]]].
  - apply tree_ext.
    + destruct (replaceIntersecting_node once q v) as [-> _]. reflexivity.
    + destruct (replaceIntersecting_node once q v) as [_ ->]. reflexivity.
    + subst once. unfold replaceIntersecting at 1. unfold addChild at 1.
      unfold addChildNode at 1. rewrite children_with_children.
      rewrite (remove_after_replace law this q v H Hq). reflexivity.
  - apply (get_entry law (q, newRangeBinTree q v) Hok Hin).
  - unfold once. rewrite (replace_children law this q v H), filter_app. simpl.
    rewrite Hqq. simpl.
    rewrite !filter_none; [reflexivity | |].
    + eapply Forall_impl; [|apply (beyond_higher q)]. intros e He. cbv beta in He.
      destruct (Z.eqb_spec (compare (fst e) q) 0); [lia | reflexivity].
    + eapply Forall_impl; [|apply (beyond_lower_strict law q H)].
      intros e He. cbv beta in He.
      destruct (Z.eqb_spec (compare (fst e) q) 0); [lia | reflexivity].
  - intros e He. apply Hset in He. destruct He as [->|[He _]]; [now left|].
    right. now apply remove_incl in He.
  - intros Hd Hwf Hwq e. unfold wellFormed in Hwq. rewrite Hq in Hwq.
    rewrite Hset.
    rewrite (remove_all_matching law this q H (disjoint_apart Hd) Hwf Hwq).
    rewrite filter_In, negb_true_iff.
    split; (intros [->|He]; [now left | right]); [tauto|].
    destruct He as [He Hm]. repeat split; try assumption.
    intro E0.
    assert (matches q (fst e) = true)
      by (eapply matches_equal_key; [apply (childrenOk_cmp e H He) | assumption]).
    congruence.
Qed.

Lemma replaceIntersecting_idempotent_witness :
  let once := replaceIntersecting threeSiblings (NumberRange 3 7) 42%nat in
  replaceIntersecting once (NumberRange 3 7) 42%nat = once /\
  get (@compare Z) (NumberRange 3 7) (children once)
    = Some (newRangeBinTree (NumberRange 3 7) 42%nat) /\
  List.length (filter (fun e => compare (fst e) (NumberRange 3 7) =? 0)
                 (children once)) = 1%nat /\
  (forall e, In e (children once) ->
             e = (NumberRange 3 7, newRangeBinTree (NumberRange 3 7) 42%nat) \/
             In e (children threeSiblings)) /\
  (siblingsDisjoint (children threeSiblings) ->
   siblingsWellFormed (children threeSiblings) ->
   wellFormed (NumberRange 3 7) ->
   forall e, In e (children once) <->
             e = (NumberRange 3 7, newRangeBinTree (NumberRange 3 7) 42%nat) \/
             (In e (children threeSiblings) /\
              matches (NumberRange 3 7) (fst e) = false)).
Proof.
  apply (@replaceIntersecting_idempotent nat Z compareNumbers threeSiblings
           (NumberRange 3 7) 42%nat).
  - exact compareNumbers_lawful.
  - solve_childrenOk.
  - reflexivity.
Defined.

(** C3 as stated fails on a node whose children overlap: among [0,10] and
    [2,3], [replaceIntersecting([5,6], v)] leaves the child [0,10] in
    place, which intersects [5,6]. *)
Lemma replaceIntersecting_counterexample :
  ~ (forall (this : RangeBinTree nat Z) (q : Range Z) (v : nat) e,
       childrenOk compareNumbers (children this) ->
       In e (children this) ->
       (intersects (fst e) q = true \/ inside (fst e) q = true) ->
       ~ In e (children (replaceIntersecting this q v))).
Proof.
  intro H.
  apply (H overlappingSiblings (NumberRange 5 6) 7%nat (NumberRange 0 10, leafOf 0 10)).
  - solve_childrenOk.
  - now left.
  - left. reflexivity.
  - now left.
Qed.

(** C9, as amended.  [find(q)] returns first the run of children that answer
    [q] met on the way down from the greatest key not above [q], in
    descending key order, then the run of children that answer [q] met on
    the way up from the least key above [q], in ascending key order.  When
    the lower run is not empty its first child has the greatest key of the
    map that does not exceed [q].  The whole sequence ascends exactly when
    the lower run has one child at most.  When the children are well-formed
    and pairwise non-overlapping and [q] is well-formed, the two runs are
    all the children that answer [q] on their side and the lower run has one
    child at most. *)
Theorem find_order (T RType : Type) (cmp : RType -> RType -> Z)
    (this : RangeBinTree T RType) (q : Range RType) :
  Lawful cmp -> childrenOk cmp (children this) ->
  let m := children this in
  let answers := fun e : Range RType * RangeBinTree T RType => matches q (fst e) in
  find this q = map (fun e => Some (snd e)) (lowerRun q m ++ higherRun q m) /\
  StronglySorted (fun a b => keyBefore b a) (lowerRun q m) /\
  (forall e, In e (lowerRun q m) ->
             In e m /\ compare (fst e) q <= 0 /\ answers e = true) /\
  StronglySorted (@keyBefore T RType) (higherRun q m) /\
  (forall e, In e (higherRun q m) ->
             In e m /\ 0 < compare (fst e) q /\ answers e = true) /\
  (forall e rest, lowerRun q m = e :: rest ->
     forall e', In e' m -> compare (fst e') q <= 0 -> compare (fst e') (fst e) <= 0) /\
  (StronglySorted (@keyBefore T RType) (lowerRun q m ++ higherRun q m) <->
   (List.length (lowerRun q m) <= 1)%nat) /\
  (siblingsDisjoint m -> siblingsWellFormed m -> comparator q = cmp ->
   wellFormed q ->
   lowerRun q m = filter answers (rev (splitLower (@compare RType) q true m)) /\
   higherRun q m = filter answers (splitHigher (@compare RType) q false m) /\
   (List.length (lowerRun q m) <= 1)%nat).
Proof.
  intros law H m answers. subst m.
  split; [apply (find_runs law this q H)|].
  split; [apply (lowerRun_sorted q (keysAscend H))|].
  split; [intros e He; now apply lowerRun_In|].
  split; [apply (higherRun_sorted q (keysAscend H))|].
  split; [intros e He; now apply higherRun_In|].
  split; [intros e rest; now apply (lowerRun_head_greatest law)|].
  split; [now apply (runs_ascending_iff law)|].
  intros Hd Hwf Hq Hwq. unfold wellFormed in Hwq. rewrite Hq in Hwq.
  split; [now apply (lowerRun_all law q H (disjoint_apart Hd))|].
  split; [now apply (higherRun_all law q H (disjoint_apart Hd))|].
  now apply (lowerRun_single law).
Qed.

Lemma find_order_witness :
  let m := children overlappingSiblings in
  let q := NumberRange 2 20 in
  let answers := fun e : Range Z * RangeBinTree nat Z => matches q (fst e) in
  find overlappingSiblings q
    = map (fun e => Some (snd e)) (lowerRun q m ++ higherRun q m) /\
  StronglySorted (fun a b => keyBefore b a) (lowerRun q m) /\
  (forall e, In e (lowerRun q m) ->
             In e m /\ compare (fst e) q <= 0 /\ answers e = true) /\
  StronglySorted (@keyBefore nat Z) (higherRun q m) /\
  (forall e, In e (higherRun q m) ->
             In e m /\ 0 < compare (fst e) q /\ answers e = true) /\
  (forall e rest, lowerRun q m = e :: rest ->
     forall e', In e' m -> compare (fst e') q <= 0 -> compare (fst e') (fst e) <= 0) /\
  (StronglySorted (@keyBefore nat Z) (lowerRun q m ++ higherRun q m) <->
   (List.length (lowerRun q m) <= 1)%nat) /\
  (siblingsDisjoint m -> siblingsWellFormed m -> comparator q = compareNumbers ->
   wellFormed q ->
   lowerRun q m = filter answers (rev (splitLower (@compare Z) q true m)) /\
   higherRun q m = filter answers (splitHigher (@compare Z) q false m) /\
   (List.length (lowerRun q m) <= 1)%nat).
Proof.
  apply (@find_order nat Z compareNumbers overlappingSiblings (NumberRange 2 20)).
  - exact compareNumbers_lawful.
  - solve_childrenOk.
Defined.

(** Where siblings overlap the lower run may hold two children, and the
    result descends before it ascends. *)
Lemma find_descends_on_overlap :
  find overlappingSiblings (NumberRange 2 20) = [Some (leafOf 2 3); Some (leafOf 0 10)].
Proof. reflexivity. Qed.

(** C9 as stated fails: among [0,5], [6,9], [10,15] the query [3,12] is
    answered by [0,5] below it and by [6,9] and [10,15] above it, and
    [find] returns the three in ascending order. *)
Lemma find_order_counterexample :
  ~ (forall (this : RangeBinTree nat Z) (q : Range Z) l,
       childrenOk compareNumbers (children this) ->
       find this q = map Some l ->
       (exists c, In c l /\ compare (range c) q <= 0) ->
       (exists c, In c l /\ 0 < compare (range c) q) ->
       ~ StronglySorted (fun a b => compare (range a) (range b) < 0) l).
Proof.
  intro H.
  apply (H threeSiblings (NumberRange 3 12) [leafOf 0 5; leafOf 6 9; leafOf 10 15]).
  - solve_childrenOk.
  - reflexivity.
  - exists (leafOf 0 5). split; [now left | vm_compute; discriminate].
  - exists (leafOf 6 9). split; [right; now left | vm_compute; reflexivity].
  - repeat constructor; vm_compute; reflexivity.
Qed.

(* ================================================================== *)
(** ** The lookup of the enclosing block *)

Section LookupFacts.
Variables T RType : Type.
Variable cmp : RType -> RType -> Z.
Hypothesis law : Lawful cmp.
Local Abbreviation Tree := (RangeBinTree T RType).

Lemma deepOk_children (t : Tree) : deepOk cmp t -> childrenOk cmp (children t).
Proof. destruct t. simpl. tauto. Qed.

Lemma deepOk_child (t : Tree) e :
  deepOk cmp t -> In e (children t) -> deepOk cmp (snd e).
Proof.
  destruct t as [n r c]. simpl. intros [_ H].
  induction c as [|a c IH]; intros He; [destruct He|].
  destruct H as [Ha Hc]. destruct He as [<-|He]; [assumption | now apply IH].
Qed.

Lemma height_child (t : Tree) e :
  In e (children t) -> (height (snd e) < height t)%nat.
Proof.
  destruct t as [n r c]. simpl. intro He.
  apply Nat.lt_succ_r.
  pose proof (proj1 (list_max_le (map (fun e => height (snd e)) c) _) (Nat.le_refl _)) as Hf.
  rewrite Forall_forall in Hf. apply Hf.
  apply in_map_iff. now exists e.
Qed.

Lemma height_pos (t : Tree) : (0 < height t)%nat.
Proof. destruct t. simpl. lia. Qed.

(** The first node [find] returns is a child of the node. *)
Lemma find_head (this : Tree) (q : Range RType) x :
  childrenOk cmp (children this) -> hd_error (find this q) = Some x ->
  exists e, In e (children this) /\ x = Some (snd e).
Proof.
  intros H Hx. rewrite (find_runs law this q H) in Hx.
  assert (Hin : In x (map (fun e : Range RType * Tree => Some (snd e))
                        (lowerRun q (children this) ++ higherRun q (children this)))).
  { destruct (map _ _) as [|y l]; [discriminate|]. inversion Hx. now left. }
  apply in_map_iff in Hin. destruct Hin as (e & <- & He).
  exists e. split; [|reflexivity].
  apply in_app_or in He. destruct He as [He|He].
  - now apply lowerRun_In in He.
  - now apply higherRun_In in He.
Qed.
End LookupFacts.

(** The loop of [findEnclosingBlock] ends, follows one way down the tree and
    answers with the last block on it, or with the result it started from
    when the way has no block. *)
Lemma loop_descends (rng : Range Z) (grab : bool) (fuel : nat) :
  forall (enclosings : list (option (RangeBinTree Node Z))) (result : option Node),
    (forall x, hd_error enclosings = Some x ->
       exists t, x = Some t /\ deepOk compareNumbers t /\ (height t <= fuel)%nat) ->
    exists path,
      descendsAlong rng enclosings path /\
      findEnclosingBlock_loop fuel rng grab enclosings result =
      Returned (match lastBlock path with
                | Some b => blockAnswer grab b
                | None => result
                end).
Proof.
  induction fuel as [|fuel IH]; intros enclosings result Hhd.
  - destruct enclosings as [|x rest]; [exists []; split; reflexivity|].
    destruct (Hhd x eq_refl) as (t & -> & _ & Hh).
    pose proof (height_pos t). lia.
  - destruct enclosings as [|x rest]; [exists []; split; reflexivity|].
    destruct (Hhd x eq_refl) as (t & -> & Hok & Hh).
    simpl findEnclosingBlock_loop.
    destruct ((childCount (node t) =? 0) || negb (inside rng (range t))) eqn:Eg.
    + exists []. split; [|reflexivity]. simpl. unfold passes. now rewrite Eg.
    + destruct (IH (find t rng)
                  (if String.eqb (type (node t)) "block"
                   then (if grab then parent (node t) else Some (node t))
                   else result)) as (path & Hpath & Hres).
      * intros x Hx.
        destruct (find_head compareNumbers_lawful t rng (deepOk_children _ t Hok) Hx)
          as (e & He & ->).
        exists (snd e). split; [reflexivity|]. split.
        -- apply (deepOk_child _ t e Hok He).
        -- pose proof (height_child t e He). lia.
      * exists (t :: path). split.
        -- simpl. unfold passes. rewrite Eg. now repeat split.
        -- rewrite Hres. simpl. unfold isBlock, blockAnswer.
           destruct (lastBlock path); [reflexivity|].
           destruct (String.eqb (type (node t)) "block"); reflexivity.
Qed.

(** C5, as amended.  The lookup of the enclosing block ends.  It goes down
    from the root through the first node of each [find], as long as
    something is found, the node found has children and the query lies
    inside the node's range.  It does not stop at a block: each block on the
    way replaces the answer, so the answer is the last block on the way, or
    that block's parent when [grabParentBlock] is set, and nothing when the
    way has no block. *)
Theorem findEnclosingBlock_deepest (tree : RangeBinTree Node Z) (rng : Range Z)
    (grabParentBlock : bool) :
  deepOk compareNumbers tree ->
  exists path,
    descendsAlong rng (find tree rng) path /\
    findEnclosingBlock tree rng grabParentBlock =
    Returned (match lastBlock path with
              | Some b => blockAnswer grabParentBlock b
              | None => None
              end).
Proof.
  intro Hok. unfold findEnclosingBlock. apply loop_descends.
  intros x Hx.
  destruct (find_head compareNumbers_lawful tree rng (deepOk_children _ tree Hok) Hx)
    as (e & He & ->).
  exists (snd e). split; [reflexivity|]. split.
  - apply (deepOk_child _ tree e Hok He).
  - pose proof (height_child tree e He). lia.
Qed.

Lemma findEnclosingBlock_deepest_witness :
  exists path,
    descendsAlong (NumberRange 3 4) (find nestedBlocks (NumberRange 3 4)) path /\
    findEnclosingBlock nestedBlocks (NumberRange 3 4) false =
    Returned (match lastBlock path with
              | Some b => blockAnswer false b
              | None => None
              end).
Proof.
  apply (findEnclosingBlock_deepest nestedBlocks (NumberRange 3 4) false).
  simpl. repeat split; repeat constructor; vm_compute; reflexivity.
Defined.

(** C5 as stated fails where a block lies inside a block: for a query inside
    the inner block the lookup goes on below the outer block and answers
    with the inner one (with the outer one, the inner block's parent, when
    [grabParentBlock] is set); a lookup that stopped at the first block
    would answer with the outer block (with the source file). *)
Lemma findEnclosingBlock_counterexample :
  (forall grabParentBlock,
     findEnclosingBlock nestedBlocks (NumberRange 3 4) grabParentBlock <>
     findEnclosingBlock_stopAtBlock nestedBlocks (NumberRange 3 4) grabParentBlock) /\
  findEnclosingBlock nestedBlocks (NumberRange 3 4) false = Returned (Some innerBlock) /\
  findEnclosingBlock_stopAtBlock nestedBlocks (NumberRange 3 4) false
    = Returned (Some outerBlock) /\
  findEnclosingBlock nestedBlocks (NumberRange 3 4) true = Returned (Some outerBlock) /\
  findEnclosingBlock_stopAtBlock nestedBlocks (NumberRange 3 4) true
    = Returned (Some fileNode).
Proof.
  split; [intros []; vm_compute; discriminate|].
  repeat split; reflexivity.
Qed.

(* ================================================================== *)
(** ** The results callback *)

Section BatchFacts.
Local Open Scope string_scope.

Lemma prefix_append (snip after : string) : String.prefix snip (snip ++ after) = true.
Proof.
  induction snip as [|a snip IH]; simpl; [now destruct after|].
  destruct (ascii_dec a a); [assumption | congruence].
Qed.

Lemma prefix_split (snip text : string) :
  String.prefix snip text = true -> exists after, text = snip ++ after.
Proof.
  revert text. induction snip as [|a snip IH]; intros text H.
  - now exists text.
  - destruct text as [|b text]; simpl in H; [discriminate|].
    destruct (ascii_dec a b) as [<-|]; [|discriminate].
    destruct (IH text H) as (after & ->). now exists after.
Qed.

(** [indexOf] answers a position from [i] on, and then the snippet occurs,
    or [-1]. *)
Lemma indexOfFrom_spec (text snip : string) (i : Z) :
  0 <= i ->
  (indexOfFrom text snip i = -1 /\ ~ occursIn snip text) \/
  (i <= indexOfFrom text snip i /\ occursIn snip text).
Proof.
  revert i. induction text as [|c text IH]; intros i Hi; cbn [indexOfFrom].
  - destruct (String.prefix snip "") eqn:E.
    + right. split; [lia|]. destruct (prefix_split _ _ E) as (after & Ha).
      now exists "", after.
    + left. split; [reflexivity|]. intros (before & after & H).
      destruct before; [|discriminate]. simpl in H.
      rewrite H, prefix_append in E. discriminate.
  - destruct (String.prefix snip (String c text)) eqn:E.
    + right. split; [lia|]. destruct (prefix_split _ _ E) as (after & Ha).
      now exists "", after.
    + destruct (IH (i + 1)) as [[Hr Hno]|[Hr (before & after & Hocc)]]; [lia | |].
      * left. split; [assumption|]. intros (before & after & H).
        destruct before as [|b before]; simpl in H.
        -- rewrite H, prefix_append in E. discriminate.
        -- inversion H; subst. apply Hno. now exists before, after.
      * right. split; [lia|]. exists (String c before), after.
        simpl. now rewrite Hocc.
Qed.

(** [indexOf] is negative exactly when the snippet does not occur. *)
Lemma indexOf_negative (text snip : string) :
  indexOf text snip < 0 <-> ~ occursIn snip text.
Proof.
  unfold indexOf.
  destruct (@indexOfFrom_spec text snip 0) as [[Hr Hno]|[Hr Hocc]]; [lia | |].
  - rewrite Hr. split; [intros _; assumption | lia].
  - split; [lia | intro H; contradiction].
Qed.

(** A finding resolves to a range unless the line cannot be read or the
    snippet does not occur in it. *)
Lemma resolveRange_none (doc : TextDocument) (result : AnalysisReport) :
  (forall lineText,
     getLineText doc (reportLine (location result) - 1) = Some lineText ->
     ~ occursIn (snippet (location result)) lineText) ->
  resolveRange doc result = None.
Proof.
  intro H. unfold resolveRange.
  destruct (getLineText doc (reportLine (location result) - 1)) as [lineText|];
    [|reflexivity].
  specialize (H lineText eq_refl). apply indexOf_negative in H.
  destruct (Z.ltb_spec (indexOf lineText (snippet (location result))) 0);
    [reflexivity | lia].
Qed.

(** The ranges the callback builds are position ranges with their bounds in
    order. *)
Lemma resolveRange_some (doc : TextDocument) (result : AnalysisReport) rng :
  resolveRange doc result = Some rng ->
  comparator rng = comparePositions /\
  comparePositions (start rng) (end_ rng) <= 0.
Proof.
  unfold resolveRange.
  destruct (getLineText doc (reportLine (location result) - 1)) as [lineText|];
    [|discriminate].
  destruct (Z.ltb_spec (indexOf lineText (snippet (location result))) 0);
    [discriminate|].
  intro E. inversion E; subst. split; [reflexivity|].
  simpl. unfold comparePositions. simpl. rewrite Z.eqb_refl. simpl. lia.
Qed.

Lemma resolved_ranges (doc : TextDocument) (results : list AnalysisReport) :
  Forall (fun p => comparator (fst p) = comparePositions) (resolved doc results) /\
  Forall (fun p => comparePositions (start (fst p)) (end_ (fst p)) <= 0)
    (resolved doc results).
Proof.
  unfold resolved. induction results as [|r results [IH1 IH2]]; simpl;
    [split; constructor|].
  destruct (resolveRange doc r) as [rng|] eqn:E; [|now split].
  destruct (resolveRange_some _ _ E) as [Hc Hw].
  split; constructor; assumption.
Qed.

Lemma resolved_app (doc : TextDocument) (l1 l2 : list AnalysisReport) :
  resolved doc (l1 ++ l2) = (resolved doc l1 ++ resolved doc l2)%list.
Proof. unfold resolved. apply flat_map_app. Qed.

Lemma uriSet_eq (V : Type) (u : string) (v : V) (m : UriMap V) u' :
  uriSet u v m u' = if String.eqb u' u then Some v else m u'.
Proof. reflexivity. Qed.

Lemma onTree_some (u : string) (f : DiagTree -> DiagTree) (m : UriMap DiagTree) t :
  m u = Some t -> onTree u f m = uriSet u (f t) m.
Proof. intro H. unfold onTree. now rewrite H. Qed.

(** The first loop, seen at each document identifier. *)
Lemma removeResolved_at (doc : TextDocument) (u0 : string)
    (results : list AnalysisReport) :
  forall (m : UriMap DiagTree) (t : DiagTree),
    m u0 = Some t ->
    forall u, removeResolved u0 (map (resolveRange doc) results) m u =
              if String.eqb u u0 then Some (evictAll (resolved doc results) t)
              else m u.
Proof.
  unfold removeResolved, evictAll.
  induction results as [|r results IH]; intros m t Hm u; simpl.
  - destruct (String.eqb_spec u u0) as [->|]; [assumption | reflexivity].
  - unfold resolved. simpl. fold (resolved doc results).
    destruct (resolveRange doc r) as [rng|]; simpl.
    + rewrite (@onTree_some _ _ _ _ Hm).
      rewrite (IH _ (removeIntersecting t rng)).
      * rewrite uriSet_eq. now destruct (String.eqb u u0).
      * rewrite uriSet_eq. now rewrite String.eqb_refl.
    + now apply IH.
Qed.

(** The second loop, seen at each document identifier: [before] is the part
    of the batch the loop has passed. *)
Lemma addResolved_at (doc : TextDocument) (u0 : string)
    (rest : list AnalysisReport) :
  forall (before : list AnalysisReport) (m : UriMap DiagTree) (t : DiagTree),
    m u0 = Some t ->
    forall u,
      forEachIndexedFrom (List.length before) (map (resolveRange doc) rest)
        (fun rng index m =>
           match rng with
           | None => m
           | Some rng =>
               match nth_error (before ++ rest)%list index with
               | None => m
               | Some result =>
                   onTree u0 (fun t => addChild t rng
                     (mkDiagnostic (vscodeRange (start rng) (end_ rng))
                        (description result) SeverityWarning)) m
               end
           end) m u =
      if String.eqb u u0 then Some (addChildren t (resolved doc rest)) else m u.
Proof.
  induction rest as [|r rest IH]; intros before m t Hm u.
  - simpl. destruct (String.eqb_spec u u0) as [->|]; [assumption | reflexivity].
  - cbn [map forEachIndexedFrom].
    assert (Hnth : nth_error (before ++ r :: rest) (List.length before) = Some r).
    { rewrite nth_error_app2 by lia. now rewrite Nat.sub_diag. }
    assert (Hshift : (before ++ r :: rest = (before ++ [r]) ++ rest)%list)
      by now rewrite <- app_assoc.
    assert (Hlen : S (List.length before) = List.length (before ++ [r]))
      by (rewrite length_app; simpl; lia).
    rewrite Hnth, Hlen. unfold resolved. simpl. fold (resolved doc rest).
    destruct (resolveRange doc r) as [rng|].
    + rewrite (@onTree_some _ _ _ _ Hm).
      pose proof (IH (before ++ [r])%list
                    (uriSet u0 (addChild t rng (diagnosticOf rng r)) m)
                    (addChild t rng (diagnosticOf rng r))) as IH'.
      rewrite <- Hshift in IH'. unfold diagnosticOf in IH' at 1 2.
      rewrite IH'.
      * rewrite uriSet_eq. simpl. unfold diagnosticOf.
        now destruct (String.eqb u u0).
      * rewrite uriSet_eq. now rewrite String.eqb_refl.
    + pose proof (IH (before ++ [r])%list m t Hm u) as IH'.
      rewrite <- Hshift in IH'. exact IH'.
Qed.

Lemma forEachChildren_push (t : DiagTree) :
  forEachChildren t (fun diag acc => (acc ++ [diag])%list) []
  = map (@node Diagnostic Position) (values (children t)).
Proof.
  unfold forEachChildren.
  now rewrite (fold_push_inline (@node Diagnostic Position)).
Qed.

(** The callback, seen at each document identifier: the tree of the document
    goes through the two passes, its diagnostics are published in key order,
    and nothing else changes. *)
Lemma resultsProcessor_at (doc : TextDocument) (results : list AnalysisReport)
    (st : ExtState) (u : string) :
  diagnosticsTree (resultsProcessor doc results st) u =
    (if String.eqb u (uri doc)
     then Some (appliedBatch (resolved doc results) (treeOf st doc))
     else diagnosticsTree st u) /\
  golangDiagnosticCollection (resultsProcessor doc results st) u =
    (if String.eqb u (uri doc)
     then Some (map (@node Diagnostic Position)
                  (values (children (appliedBatch (resolved doc results) (treeOf st doc)))))
     else golangDiagnosticCollection st u).
Proof.
  set (trees0 := match diagnosticsTree st (uri doc) with
                 | Some _ => diagnosticsTree st
                 | None => uriSet (uri doc) stubTree (diagnosticsTree st)
                 end).
  assert (H0 : trees0 (uri doc) = Some (treeOf st doc)).
  { unfold trees0, treeOf. destruct (diagnosticsTree st (uri doc)) eqn:E;
      [assumption|]. rewrite uriSet_eq. now rewrite String.eqb_refl. }
  assert (H0' : forall u', String.eqb u' (uri doc) = false ->
                           trees0 u' = diagnosticsTree st u').
  { intros u' Hu. unfold trees0. destruct (diagnosticsTree st (uri doc));
      [reflexivity|]. rewrite uriSet_eq. now rewrite Hu. }
  pose proof (removeResolved_at doc (uri doc) results trees0 H0) as H1.
  set (trees1 := removeResolved (uri doc) (map (resolveRange doc) results) trees0) in *.
  assert (H1' : trees1 (uri doc) = Some (evictAll (resolved doc results) (treeOf st doc))).
  { rewrite H1. now rewrite String.eqb_refl. }
  pose proof (addResolved_at doc (uri doc) results [] trees1 H1') as H2.
  simpl in H2.
  assert (Htree : forall u',
            diagnosticsTree (resultsProcessor doc results st) u' =
            if String.eqb u' (uri doc)
            then Some (appliedBatch (resolved doc results) (treeOf st doc))
            else diagnosticsTree st u').
  { intro u'. unfold resultsProcessor, addResolved. simpl.
    fold trees0. fold trees1. rewrite H2. unfold appliedBatch.
    destruct (String.eqb u' (uri doc)) eqn:Eu; [reflexivity|].
    rewrite H1, Eu. now apply H0'. }
  split; [apply Htree|].
  pose proof (Htree (uri doc)) as Hd. rewrite String.eqb_refl in Hd.
  unfold resultsProcessor in *. simpl in *. rewrite Hd.
  rewrite uriSet_eq. now rewrite forEachChildren_push.
Qed.
(** A finding whose snippet occurs in the text of its line resolves to a
    range. *)
Lemma resolveRange_resolves (doc : TextDocument) (result : AnalysisReport)
    (lineText : string) :
  getLineText doc (reportLine (location result) - 1) = Some lineText ->
  occursIn (snippet (location result)) lineText ->
  exists rng, resolveRange doc result = Some rng.
Proof.
  intros Hl Hocc. unfold resolveRange. rewrite Hl.
  destruct (Z.ltb_spec (indexOf lineText (snippet (location result))) 0) as [Hneg|_].
  - apply indexOf_negative in Hneg. contradiction.
  - eexists. reflexivity.
Qed.

(** A finding that resolves is among the resolved findings of every batch
    that holds it. *)
Lemma resolved_In (doc : TextDocument) (results : list AnalysisReport)
    (result : AnalysisReport) (rng : Range Position) :
  In result results -> resolveRange doc result = Some rng ->
  In (rng, diagnosticOf rng result) (resolved doc results).
Proof.
  intros Hin Hr. unfold resolved. apply in_flat_map.
  exists result. split; [assumption|]. rewrite Hr. now left.
Qed.
End BatchFacts.

(** C8. A finding whose snippet does not occur in the text of its line
    resolves to no range; the batch that holds it leaves the trees and the
    published diagnostics of every document as the same batch without it
    does.  Every other finding of the batch whose snippet occurs in the text
    of its line resolves to a range and is among the resolved findings of the
    batch; each resolved range is a key of the tree of the document when the
    batch is done, and a resolved finding is there as a child with its own
    diagnostic, and is published, unless a later finding of the batch has a
    range that compares equal to its range. *)
Theorem unresolved_finding_dropped (doc : TextDocument) (bad : AnalysisReport)
    (before after : list AnalysisReport) (st : ExtState) :
  (forall lineText,
     getLineText doc (reportLine (location bad) - 1) = Some lineText ->
     ~ occursIn (snippet (location bad)) lineText) ->
  resolveRange doc bad = None /\
  resolved doc (before ++ bad :: after) = resolved doc (before ++ after) /\
  (forall u,
     diagnosticsTree (resultsProcessor doc (before ++ bad :: after) st) u =
     diagnosticsTree (resultsProcessor doc (before ++ after) st) u /\
     golangDiagnosticCollection (resultsProcessor doc (before ++ bad :: after) st) u =
     golangDiagnosticCollection (resultsProcessor doc (before ++ after) st) u) /\
  (forall r lineText,
     In r (before ++ after) ->
     getLineText doc (reportLine (location r) - 1) = Some lineText ->
     occursIn (snippet (location r)) lineText ->
     exists rng,
       resolveRange doc r = Some rng /\
       In (rng, diagnosticOf rng r) (resolved doc (before ++ bad :: after))) /\
  (childrenOk comparePositions (children (treeOf st doc)) ->
   exists t' published,
     diagnosticsTree (resultsProcessor doc (before ++ bad :: after) st) (uri doc)
       = Some t' /\
     golangDiagnosticCollection (resultsProcessor doc (before ++ bad :: after) st)
       (uri doc) = Some published /\
     (forall p, In p (resolved doc (before ++ bad :: after)) ->
        has (@compare Position) (fst p) (children t') = true) /\
     (forall l1 p l2,
        resolved doc (before ++ bad :: after) = l1 ++ p :: l2 ->
        Forall (fun p' => compare (fst p) (fst p') <> 0) l2 ->
        In (childOf p) (children t') /\ In (snd p) published)).
Proof.
  intro H. pose proof (resolveRange_none doc bad H) as Hnone.
  assert (Hres : resolved doc (before ++ bad :: after) = resolved doc (before ++ after)).
  { rewrite !resolved_app. f_equal. unfold resolved. simpl. now rewrite Hnone. }
  split; [assumption|]. split; [assumption|]. split; [|split].
  - intro u.
    destruct (resultsProcessor_at doc (before ++ bad :: after) st u) as [-> ->].
    destruct (resultsProcessor_at doc (before ++ after) st u) as [-> ->].
    rewrite Hres. split; reflexivity.
  - intros r lineText Hin Hl Hocc.
    destruct (resolveRange_resolves doc r Hl Hocc) as (rng & Hr).
    exists rng. split; [assumption|].
    apply resolved_In; [|assumption].
    apply in_app_or in Hin. apply in_or_app.
    destruct Hin as [Hin|Hin]; [now left | right; now right].
  - intro Hok.
    set (found := resolved doc (before ++ bad :: after)).
    destruct (resolved_ranges doc (before ++ bad :: after)) as [Hcmp _].
    fold found in Hcmp.
    pose proof (evict_ok found (treeOf st doc) Hok) as Hev.
    destruct (resultsProcessor_at doc (before ++ bad :: after) st (uri doc))
      as [Htree Hpub].
    rewrite String.eqb_refl in Htree, Hpub. fold found in Htree, Hpub.
    exists (appliedBatch found (treeOf st doc)),
           (map (@node Diagnostic Position)
              (values (children (appliedBatch found (treeOf st doc))))).
    split; [exact Htree|]. split; [exact Hpub|]. split.
    + intros p Hp. unfold appliedBatch. rewrite addChildren_children.
      apply (inserted_present comparePositions_lawful _ Hev Hcmp Hp).
    + intros l1 p l2 Hf Hl2.
      assert (Hchild : In (childOf p) (children (appliedBatch found (treeOf st doc)))).
      { unfold appliedBatch. rewrite addChildren_children.
        apply (inserted_In comparePositions_lawful (childOf p) Hev Hcmp).
        left. exists l1, p, l2. now repeat split. }
      split; [assumption|].
      unfold values. rewrite map_map. apply in_map_iff.
      exists (childOf p). split; [reflexivity | assumption].
Qed.

Lemma unresolved_finding_dropped_witness :
  resolveRange sampleDoc lostFinding = None /\
  resolved sampleDoc ([newFinding] ++ lostFinding :: [lateFinding])
    = resolved sampleDoc ([newFinding] ++ [lateFinding]) /\
  (forall u,
     diagnosticsTree
       (resultsProcessor sampleDoc ([newFinding] ++ lostFinding :: [lateFinding])
          storedState) u =
     diagnosticsTree
       (resultsProcessor sampleDoc ([newFinding] ++ [lateFinding]) storedState) u /\
     golangDiagnosticCollection
       (resultsProcessor sampleDoc ([newFinding] ++ lostFinding :: [lateFinding])
          storedState) u =
     golangDiagnosticCollection
       (resultsProcessor sampleDoc ([newFinding] ++ [lateFinding]) storedState) u) /\
  (forall r lineText,
     In r ([newFinding] ++ [lateFinding]) ->
     getLineText sampleDoc (reportLine (location r) - 1) = Some lineText ->
     occursIn (snippet (location r)) lineText ->
     exists rng,
       resolveRange sampleDoc r = Some rng /\
       In (rng, diagnosticOf rng r)
          (resolved sampleDoc ([newFinding] ++ lostFinding :: [lateFinding]))) /\
  (exists t' published,
     diagnosticsTree
       (resultsProcessor sampleDoc ([newFinding] ++ lostFinding :: [lateFinding])
          storedState) (uri sampleDoc) = Some t' /\
     golangDiagnosticCollection
       (resultsProcessor sampleDoc ([newFinding] ++ lostFinding :: [lateFinding])
          storedState) (uri sampleDoc) = Some published /\
     (forall p,
        In p (resolved sampleDoc ([newFinding] ++ lostFinding :: [lateFinding])) ->
        has (@compare Position) (fst p) (children t') = true) /\
     (forall l1 p l2,
        resolved sampleDoc ([newFinding] ++ lostFinding :: [lateFinding])
        = l1 ++ p :: l2 ->
        Forall (fun p' => compare (fst p) (fst p') <> 0) l2 ->
        In (childOf p) (children t') /\ In (snd p) published)).
Proof.
  destruct (@unresolved_finding_dropped sampleDoc lostFinding [newFinding]
              [lateFinding] storedState) as (H1 & H2 & H3 & H4 & H5).
  - intros lineText E. simpl in E. inversion E; subst.
    apply indexOf_negative. vm_compute. reflexivity.
  - split; [exact H1|]. split; [exact H2|]. split; [exact H3|]. split; [exact H4|].
    apply H5. split; repeat constructor; vm_compute; reflexivity.
Defined.

(** C10, as amended.  The callback first calls [removeIntersecting] for every
    resolved range of the batch and only then [addChild] for each of them.
    Every resolved range is a key of the tree when the batch is done, and a
    finding is there as a child with its own diagnostic, whatever it
    overlaps, unless a later finding of the batch has a range that compares
    equal to its range. *)
Theorem batch_two_phases (doc : TextDocument) (results : list AnalysisReport)
    (st : ExtState) :
  childrenOk comparePositions (children (treeOf st doc)) ->
  let found := resolved doc results in
  let done := appliedBatch found (treeOf st doc) in
  diagnosticsTree (resultsProcessor doc results st) (uri doc) =
    Some (addChildren
            (fold_left (fun t p => removeIntersecting t (fst p)) found (treeOf st doc))
            found) /\
  (forall p, In p found ->
     has (@compare Position) (fst p) (children done) = true) /\
  (forall l1 p l2,
     found = l1 ++ p :: l2 ->
     Forall (fun p' => compare (fst p) (fst p') <> 0) l2 ->
     In (childOf p) (children done)).
Proof.
  intros H found done.
  destruct (resolved_ranges doc results) as [Hcmp _]. fold found in Hcmp.
  pose proof (evict_ok found (treeOf st doc) H) as Hok.
  split; [|split].
  - destruct (resultsProcessor_at doc results st (uri doc)) as [-> _].
    now rewrite String.eqb_refl.
  - intros p Hp. unfold done, appliedBatch. rewrite addChildren_children.
    apply (inserted_present comparePositions_lawful _ Hok Hcmp Hp).
  - intros l1 p l2 Hf Hl2. unfold done, appliedBatch. rewrite addChildren_children.
    apply (inserted_In comparePositions_lawful (childOf p) Hok Hcmp).
    left. exists l1, p, l2. now repeat split.
Qed.

Lemma batch_two_phases_witness :
  let found := resolved sampleDoc [newFinding; innerFinding] in
  let done := appliedBatch found (treeOf storedState sampleDoc) in
  diagnosticsTree (resultsProcessor sampleDoc [newFinding; innerFinding] storedState)
    (uri sampleDoc) =
    Some (addChildren
            (fold_left (fun t p => removeIntersecting t (fst p)) found
               (treeOf storedState sampleDoc))
            found) /\
  (forall p, In p found ->
     has (@compare Position) (fst p) (children done) = true) /\
  (forall l1 p l2,
     found = l1 ++ p :: l2 ->
     Forall (fun p' => compare (fst p) (fst p') <> 0) l2 ->
     In (childOf p) (children done)).
Proof.
  apply (batch_two_phases sampleDoc [newFinding; innerFinding] storedState).
  split; repeat constructor; vm_compute; reflexivity.
Defined.

(** Two findings of one batch that overlap are both kept. *)
Lemma batch_keeps_overlapping_findings :
  storedMessages (resultsProcessor sampleDoc [newFinding; innerFinding] storedState)
  = Some ["new"; "inner"]%string.
Proof. reflexivity. Qed.

(** Once siblings overlap, a later batch may leave a stored diagnostic it
    overlaps: after the batch of the findings at columns 0 to 10 and 2 to 4,
    the batch of the finding at columns 5 to 6 meets the diagnostic at
    columns 2 to 4 first, stops there, and the one at columns 0 to 10
    stays. *)
Lemma batch_after_overlap :
  storedMessages
    (resultsProcessor sampleDoc [lateFinding]
       (resultsProcessor sampleDoc [wideFinding; narrowFinding] emptyState))
  = Some ["wide"; "narrow"; "late"]%string.
Proof. reflexivity. Qed.

(** C10 as stated fails for two findings with the same range: the batch
    [newFinding; sameSpotFinding] resolves both to line 2, columns 3 to 8,
    and the one child at that range holds the diagnostic of the second. *)
Lemma batch_two_phases_counterexample :
  ~ (forall doc results st l1 p1 l2 p2 l3,
       resolved doc results = l1 ++ p1 :: l2 ++ p2 :: l3 ->
       matches (fst p1) (fst p2) = true ->
       exists t',
         diagnosticsTree (resultsProcessor doc results st) (uri doc) = Some t' /\
         In (childOf p1) (children t') /\ In (childOf p2) (children t')).
Proof.
  intro H.
  destruct (H sampleDoc [newFinding; sameSpotFinding] storedState
              [] (newRange, diagnosticOf newRange newFinding)
              [] (newRange, diagnosticOf newRange sameSpotFinding) [])
    as (t' & Ht & H1 & _); [reflexivity | reflexivity |].
  assert (E : diagnosticsTree
                (resultsProcessor sampleDoc [newFinding; sameSpotFinding] storedState)
                (uri sampleDoc)
              = Some (mkTree (node stubTree) (range stubTree)
                        [childOf (newRange, diagnosticOf newRange sameSpotFinding)]))
    by reflexivity.
  rewrite E in Ht. inversion Ht; subst t'. clear Ht E.
  destruct H1 as [H1|[]]. inversion H1.
Qed.

(** Where the stored diagnostics are well-formed and pairwise
    non-overlapping, a batch leaves in the tree, besides the children it
    adds, exactly the stored diagnostics that no resolved range of the batch
    is intersected by or holds inside.  The children added are one for each
    resolved range, holding the diagnostic of the last finding with that
    range.  With one diagnostic stored at line 2, columns 0 to 5, and one
    new finding at line 2, columns 3 to 8, the tree holds one diagnostic
    afterwards, the new one.  The callback itself does not keep the stored
    diagnostics from overlapping. *)
Lemma batch_among_disjoint :
  (forall (doc : TextDocument) (results : list AnalysisReport) (st : ExtState),
     let t := treeOf st doc in
     let found := resolved doc results in
     childrenOk comparePositions (children t) ->
     siblingsDisjoint (children t) -> siblingsWellFormed (children t) ->
     exists t',
       diagnosticsTree (resultsProcessor doc results st) (uri doc) = Some t' /\
       forall e,
         In e (children t') <->
         (exists l1 p l2,
            found = l1 ++ p :: l2 /\ e = childOf p /\
            Forall (fun p' => compare (fst p) (fst p') <> 0) l2) \/
         (In e (children t) /\
          Forall (fun p => matches (fst p) (fst e) = false) found)) /\
  golangDiagnosticCollection (resultsProcessor sampleDoc [newFinding] storedState)
    (uri sampleDoc)
  = Some [diagnosticOf newRange newFinding].
Proof.
  split; [|reflexivity].
  intros doc results st t found H Hd Hwf.
  destruct (resolved_ranges doc results) as [Hcmp Hwq].
  fold found in Hcmp, Hwq.
  exists (appliedBatch found t). split.
  - destruct (resultsProcessor_at doc results st (uri doc)) as [-> _].
    now rewrite String.eqb_refl.
  - intro e. unfold appliedBatch, evictAll. rewrite addChildren_children.
    rewrite (inserted_In comparePositions_lawful e (evict_ok found t H) Hcmp).
    rewrite (@evict_children _ _ _ comparePositions_lawful found t H
               (disjoint_apart Hd) Hwf Hwq).
    apply or_iff_compat_l. rewrite filter_In, forallb_forall, !Forall_forall.
    split.
    + intros [[He Hm] _]. split; [assumption|].
      intros p Hp. apply negb_true_iff. now apply Hm.
    + intros [He Hm]. repeat split; [assumption | |].
      * intros p Hp. apply negb_true_iff. now apply Hm.
      * intros p Hp E0.
        assert (Hyes : matches (fst p) (fst e) = true)
          by (eapply matches_equal_key; [apply (childrenOk_cmp e H He) | assumption]).
        rewrite (Hm p Hp) in Hyes. discriminate.
Qed.

(** The callback is not [replaceIntersecting] for each finding in turn:
    with a diagnostic stored at line 2, columns 0 to 5, the batch of the
    findings at columns 3 to 8 and at columns 4 to 7 leaves both as
    children, two diagnostics over columns 4 to 7; [replaceIntersecting]
    called for each in turn would leave the second alone. *)
Lemma batch_is_not_replaceEach :
  ~ (forall doc results st,
       diagnosticsTree (resultsProcessor doc results st) (uri doc) =
       Some (replaceEach (resolved doc results) (treeOf st doc))).
Proof.
  intro H.
  specialize (H sampleDoc [newFinding; innerFinding] storedState).
  apply (f_equal (option_map (fun t : DiagTree => List.length (children t)))) in H.
  vm_compute in H. discriminate.
Qed.

(** C2. A new finding does not always supersede the stored diagnostic it
    overlaps.  From the empty state the batch of the findings at line 2,
    columns 0 to 10 and columns 2 to 4, stores both.  The next batch holds
    one finding, at columns 5 to 6, which lies inside the stored diagnostic
    at columns 0 to 10.  Its [removeIntersecting] looks first at the stored
    diagnostic at columns 2 to 4, which it does not overlap, and stops: the
    diagnostic at columns 0 to 10 stays a child, beside the new one, and both
    are published. *)
Theorem batch_misses_overlapped_diagnostic :
  let wideRange := VSCodeRange (mkPosition 2 0) (mkPosition 2 10) in
  let narrowRange := VSCodeRange (mkPosition 2 2) (mkPosition 2 4) in
  let lateRange := VSCodeRange (mkPosition 2 5) (mkPosition 2 6) in
  let wide := diagnosticOf wideRange wideFinding in
  let narrow := diagnosticOf narrowRange narrowFinding in
  let late := diagnosticOf lateRange lateFinding in
  let stored := resultsProcessor sampleDoc [wideFinding; narrowFinding] emptyState in
  let after := resultsProcessor sampleDoc [lateFinding] stored in
  diagnosticsTree stored (uri sampleDoc)
    = Some (mkTree (node stubTree) (range stubTree)
              [childOf (wideRange, wide); childOf (narrowRange, narrow)]) /\
  resolved sampleDoc [lateFinding] = [(lateRange, late)] /\
  intersects wideRange lateRange = true /\
  inside lateRange wideRange = true /\
  find (treeOf stored sampleDoc) lateRange = [] /\
  diagnosticsTree after (uri sampleDoc)
    = Some (mkTree (node stubTree) (range stubTree)
              [childOf (wideRange, wide); childOf (narrowRange, narrow);
               childOf (lateRange, late)]) /\
  golangDiagnosticCollection after (uri sampleDoc) = Some [wide; narrow; late].
Proof. repeat split; reflexivity. Qed.

(* ================================================================== *)
(** ** More about [Range] *)

Section RangeOrder.
Variable T : Type.
Variable cmp : T -> T -> Z.
Hypothesis law : Lawful cmp.

Lemma compare_le_trans (a b c : Range T) :
  comparator a = cmp -> comparator b = cmp ->
  compare a b <= 0 -> compare b c <= 0 -> compare a c <= 0.
Proof.
  intros Ha Hb Hab Hbc.
  destruct (Z.eq_dec (compare a b) 0) as [E|N].
  - destruct (Z.eq_dec (compare b c) 0) as [E'|N'].
    + rewrite (compare_zero_trans law a b c Ha Hb E E'). lia.
    + assert (compare a c < 0); [|lia].
      apply (compare_le_lt_trans law) with b; try assumption; lia.
  - assert (compare a c < 0); [|lia].
    apply (compare_lt_trans law) with b; try assumption; lia.
Qed.

(** On well-formed ranges the test of the scans is the overlap of the two
    ranges. *)
Lemma matches_overlap_iff (q r : Range T) :
  comparator q = cmp -> comparator r = cmp -> wellFormed q -> wellFormed r ->
  (matches q r = true <->
   cmp (start r) (end_ q) <= 0 /\ cmp (start q) (end_ r) <= 0).
Proof.
  intros Hq Hr Hwq Hwr. unfold wellFormed in *. rewrite Hq in Hwq. rewrite Hr in Hwr.
  rewrite (matches_iff q r Hr). split.
  - intros [[H1 H2]|[[H1 H2]|[H1 H2]]].
    + split; [|assumption]. apply (cmp_trans law) with (start q); assumption.
    + split; [assumption|]. apply (cmp_trans law) with (end_ q); assumption.
    + apply (cmp_le_flip law) in H1. split.
      * apply (cmp_trans law) with (end_ r); assumption.
      * apply (cmp_trans law) with (start r); assumption.
  - intros [H1 H2].
    destruct (Z_le_gt_dec (cmp (start r) (start q)) 0) as [Hle|Hgt]; [now left|].
    destruct (Z_le_gt_dec (cmp (end_ r) (end_ q)) 0) as [Hle'|Hgt'].
    + right. right. split; [lia | assumption].
    + right. left. split; [assumption|].
      apply (cmp_le_flip law). lia.
Qed.
End RangeOrder.

(** X1. The comparators of the two range classes, [compareNumbers] and the
    one [VSCodeRange] passes to [super], are signs of total preorders: equal
    arguments give 0, swapping the arguments flips the sign, and "at most"
    is transitive. *)
Theorem comparators_lawful : Lawful compareNumbers /\ Lawful comparePositions.
Proof. split; [apply compareNumbers_lawful | apply comparePositions_lawful]. Qed.

(** X2. Over a shared lawful comparator [compare] orders ranges as a total
    preorder by start, then by end: a range compares equal to itself,
    swapping the arguments flips the sign, "at most" is transitive, and two
    ranges compare equal exactly when both bounds compare equal. *)
Theorem compare_total_preorder (T : Type) (cmp : T -> T -> Z) (a b c : Range T) :
  Lawful cmp ->
  comparator a = cmp -> comparator b = cmp -> comparator c = cmp ->
  compare a a = 0 /\
  (compare a b < 0 <-> 0 < compare b a) /\
  (compare a b <= 0 -> compare b c <= 0 -> compare a c <= 0) /\
  (compare a b = 0 <-> cmp (start a) (start b) = 0 /\ cmp (end_ a) (end_ b) = 0).
Proof.
  intros law Ha Hb Hc.
  split; [now apply (compare_refl law)|].
  split; [now apply (compare_flip law)|].
  split; [now apply (compare_le_trans law)|].
  now apply compare_eq_iff.
Qed.

Lemma compare_total_preorder_witness :
  compare (NumberRange 1 4) (NumberRange 1 4) = 0 /\
  (compare (NumberRange 1 4) (NumberRange 1 7) < 0 <->
   0 < compare (NumberRange 1 7) (NumberRange 1 4)) /\
  (compare (NumberRange 1 4) (NumberRange 1 7) <= 0 ->
   compare (NumberRange 1 7) (NumberRange 2 3) <= 0 ->
   compare (NumberRange 1 4) (NumberRange 2 3) <= 0) /\
  (compare (NumberRange 1 4) (NumberRange 1 7) = 0 <->
   compareNumbers 1 1 = 0 /\ compareNumbers 4 7 = 0).
Proof.
  apply (@compare_total_preorder Z compareNumbers
           (NumberRange 1 4) (NumberRange 1 7) (NumberRange 2 3)).
  - exact compareNumbers_lawful.
  - reflexivity.
  - reflexivity.
  - reflexivity.
Defined.

(** X3. For two well-formed ranges over a shared lawful comparator the test
    the scans use, [r.intersects(q) || r.inside(q)], holds exactly when the
    ranges overlap (neither ends before the other starts); so, unlike
    [intersects] alone, it gives the same answer with [q] and [r]
    exchanged. *)
Theorem matches_is_overlap (T : Type) (cmp : T -> T -> Z) (q r : Range T) :
  Lawful cmp ->
  comparator q = cmp -> comparator r = cmp -> wellFormed q -> wellFormed r ->
  (intersects r q || inside r q = true <->
   cmp (start r) (end_ q) <= 0 /\ cmp (start q) (end_ r) <= 0) /\
  intersects r q || inside r q = intersects q r || inside q r.
Proof.
  intros law Hq Hr Hwq Hwr.
  pose proof (@matches_overlap_iff T cmp law q r Hq Hr Hwq Hwr) as H1.
  pose proof (@matches_overlap_iff T cmp law r q Hr Hq Hwr Hwq) as H2.
  unfold matches in H1, H2. split; [assumption|].
  destruct (intersects r q || inside r q) eqn:E1;
    destruct (intersects q r || inside q r) eqn:E2; try reflexivity.
  - assert (false = true); [|discriminate]. apply H2. tauto.
  - assert (false = true); [|discriminate]. apply H1. tauto.
Qed.

Lemma matches_is_overlap_witness :
  (intersects (NumberRange 2 3) (NumberRange 0 10) || inside (NumberRange 2 3) (NumberRange 0 10) = true <->
   compareNumbers 2 10 <= 0 /\ compareNumbers 0 3 <= 0) /\
  intersects (NumberRange 2 3) (NumberRange 0 10) || inside (NumberRange 2 3) (NumberRange 0 10)
  = intersects (NumberRange 0 10) (NumberRange 2 3) || inside (NumberRange 0 10) (NumberRange 2 3).
Proof.
  apply (@matches_is_overlap Z compareNumbers (NumberRange 0 10) (NumberRange 2 3)).
  - exact compareNumbers_lawful.
  - reflexivity.
  - reflexivity.
  - vm_compute. discriminate.
  - vm_compute. discriminate.
Defined.

(** X4. Over a shared lawful comparator [inside] is a preorder whose
    equivalence is [compare = 0]: it is transitive, two ranges lie inside
    each other exactly when they compare equal, and a well-formed range
    lies inside another exactly when the other contains both its bounds. *)
Theorem inside_order (T : Type) (cmp : T -> T -> Z) (a b c : Range T) :
  Lawful cmp ->
  comparator a = cmp -> comparator b = cmp ->
  (inside a b = true -> inside b c = true -> inside a c = true) /\
  (inside a b = true /\ inside b a = true <-> compare a b = 0) /\
  (wellFormed a ->
   (inside a b = true <->
    contains b (start a) = true /\ contains b (end_ a) = true)).
Proof.
  intros law Ha Hb.
  unfold inside, contains, wellFormed. rewrite Ha, Hb.
  rewrite !andb_true_iff, !Z.geb_le, !Z.leb_le.
  split; [|split].
  - intros [H1 H2] [H3 H4]. split.
    + apply (cmp_le_flip law). apply (cmp_le_flip law) in H1, H3.
      apply (cmp_trans law) with (start b); assumption.
    + apply (cmp_trans law) with (end_ b); assumption.
  - rewrite (compare_eq_iff a b Ha).
    pose proof (cmp_le_flip law (start a) (start b)).
    pose proof (cmp_le_flip law (start b) (start a)).
    pose proof (cmp_le_flip law (end_ a) (end_ b)).
    pose proof (cmp_le_flip law (end_ b) (end_ a)).
    lia.
  - intro Hw. split.
    + intros [H1 H2]. apply (cmp_le_flip law) in H1. repeat split; try assumption.
      * apply (cmp_trans law) with (end_ a); assumption.
      * apply (cmp_trans law) with (start a); assumption.
    + intros [[H1 _] [_ H2]]. split; [now apply (cmp_le_flip law) | assumption].
Qed.

Lemma inside_order_witness :
  (inside (NumberRange 3 4) (NumberRange 2 8) = true ->
   inside (NumberRange 2 8) (NumberRange 0 10) = true ->
   inside (NumberRange 3 4) (NumberRange 0 10) = true) /\
  (inside (NumberRange 3 4) (NumberRange 2 8) = true /\
   inside (NumberRange 2 8) (NumberRange 3 4) = true <->
   compare (NumberRange 3 4) (NumberRange 2 8) = 0) /\
  (wellFormed (NumberRange 3 4) ->
   (inside (NumberRange 3 4) (NumberRange 2 8) = true <->
    contains (NumberRange 2 8) (start (NumberRange 3 4)) = true /\
    contains (NumberRange 2 8) (end_ (NumberRange 3 4)) = true)).
Proof.
  apply (@inside_order Z compareNumbers (NumberRange 3 4) (NumberRange 2 8)
           (NumberRange 0 10)).
  - exact compareNumbers_lawful.
  - reflexivity.
  - reflexivity.
Defined.

(* ================================================================== *)
(** ** More about the children map *)

Section MapFacts.
Variables T RType : Type.
Variable cmp : RType -> RType -> Z.
Hypothesis law : Lawful cmp.

Local Abbreviation Tree := (RangeBinTree T RType).
Local Abbreviation Key := (Range RType).
Local Abbreviation Map := (TreeMap Key Tree).
Local Abbreviation cmpK := (@compare RType).

(** [set] replaces the entry of a key that ends the lower part of a map. *)
Lemma set_replace (k k' : Key) (v v' : Tree) (A H : Map) :
  Forall (fun e => cmpK (fst e) k < 0) A ->
  cmpK k' k = 0 ->
  set cmpK k v (A ++ (k', v') :: H) = A ++ (k, v) :: H.
Proof.
  intros HA Hk. induction HA as [|a A Ha _ IH]; simpl.
  - rewrite Hk. reflexivity.
  - destruct a as [ak av]. simpl in Ha.
    destruct (Z.gtb_spec (cmpK ak k) 0); [lia|].
    destruct (Z.eqb_spec (cmpK ak k) 0); [lia|].
    now rewrite IH.
Qed.

(** A children map, seen from a key: the entries below it, the entry that
    compares equal to it if there is one, the entries above it. *)
Lemma map_around (k : Key) (m : Map) :
  childrenOk cmp m ->
  exists A E H,
    m = A ++ E ++ H /\
    Forall (fun e => cmpK (fst e) k < 0) A /\
    Forall (fun e => cmpK (fst e) k = 0) E /\
    Forall (fun e => 0 < cmpK (fst e) k) H /\
    (List.length E <= 1)%nat.
Proof.
  induction m as [|a m IH]; intro Hok.
  - exists [], [], [].
    split; [reflexivity|]. split; [constructor|]. split; [constructor|].
    split; [constructor | simpl; lia].
  - assert (Hm : childrenOk cmp m)
      by (apply (childrenOk_app_inv [a] m) in Hok; tauto).
    assert (Hca : comparator (fst a) = cmp) by (apply (childrenOk_cmp a Hok); now left).
    assert (Hlater : forall x, In x m -> 0 <= cmpK (fst a) k -> 0 < cmpK (fst x) k).
    { intros x Hx Hsign.
      destruct (keys_differ law [a] m a x Hok) as [Hlt _]; [now left | assumption |].
      destruct (Z_lt_le_dec 0 (cmpK (fst x) k)) as [|Hle]; [assumption | exfalso].
      assert (cmpK (fst a) k < 0); [|lia].
      apply (compare_lt_trans law) with (fst x); try assumption.
      apply (childrenOk_cmp x Hm Hx). }
    destruct (Z_lt_le_dec (cmpK (fst a) k) 0) as [Hlt|Hge].
    + destruct (IH Hm) as (A & E & H & -> & HA & HE & HH & HL).
      exists (a :: A), E, H.
      split; [reflexivity|]. split; [now constructor|]. now repeat split.
    + assert (HH : Forall (fun e => 0 < cmpK (fst e) k) m).
      { rewrite Forall_forall. intros x Hx. now apply Hlater. }
      destruct (Z.eq_dec (cmpK (fst a) k) 0) as [Heq|Hne].
      * exists [], [a], m.
        split; [reflexivity|]. split; [constructor|].
        split; [now repeat constructor|]. split; [assumption | simpl; lia].
      * exists [], [], (a :: m).
        split; [reflexivity|]. split; [constructor|]. split; [constructor|].
        split; [constructor; [lia | assumption] | simpl; lia].
Qed.

(** [set] on a map seen from the key set. *)
Lemma set_around (k : Key) (v : Tree) (A E H : Map) :
  Forall (fun e => cmpK (fst e) k < 0) A ->
  Forall (fun e => cmpK (fst e) k = 0) E ->
  Forall (fun e => 0 < cmpK (fst e) k) H ->
  (List.length E <= 1)%nat ->
  set cmpK k v (A ++ E ++ H) = A ++ (k, v) :: H.
Proof.
  intros HA HE HH HL.
  destruct E as [|[ek ev] [|e' E]]; simpl in HL; [| |lia].
  - now apply set_between.
  - simpl. apply set_replace; [assumption|]. now inversion HE.
Qed.

(** [delete] on a map seen from the key deleted. *)
Lemma delete_around (k : Key) (A E H : Map) :
  Forall (fun e => cmpK (fst e) k < 0) A ->
  Forall (fun e => cmpK (fst e) k = 0) E ->
  Forall (fun e => 0 < cmpK (fst e) k) H ->
  delete cmpK k (A ++ E ++ H) = A ++ H.
Proof.
  intros HA HE HH. unfold delete. rewrite !filter_app.
  rewrite (filter_all _ (l := A)), (filter_none _ (l := E)), (filter_all _ (l := H));
    [reflexivity | | |].
  - eapply Forall_impl; [|exact HH]. intros e He. cbv beta in He.
    destruct (Z.eqb_spec (cmpK (fst e) k) 0); [lia | reflexivity].
  - eapply Forall_impl; [|exact HE]. intros e He. cbv beta in He.
    now rewrite He.
  - eapply Forall_impl; [|exact HA]. intros e He. cbv beta in He.
    destruct (Z.eqb_spec (cmpK (fst e) k) 0); [lia | reflexivity].
Qed.

(** The parts of a map seen from a key are the parts seen from any key that
    compares equal to it. *)
Lemma around_equal_key (k k' : Key) (A E H : Map) :
  childrenOk cmp (A ++ E ++ H) ->
  comparator k = cmp -> comparator k' = cmp -> cmpK k k' = 0 ->
  Forall (fun e => cmpK (fst e) k < 0) A ->
  Forall (fun e => cmpK (fst e) k = 0) E ->
  Forall (fun e => 0 < cmpK (fst e) k) H ->
  Forall (fun e => cmpK (fst e) k' < 0) A /\
  Forall (fun e => cmpK (fst e) k' = 0) E /\
  Forall (fun e => 0 < cmpK (fst e) k') H.
Proof.
  intros Hok Hk Hk' Hkk HA HE HH.
  pose proof (compare_zero_sym law k k' Hk Hk' Hkk) as Hkk'.
  rewrite !Forall_forall in *.
  assert (Hc : forall e, In e (A ++ E ++ H) -> comparator (fst e) = cmp)
    by (intros e He; apply (childrenOk_cmp e Hok He)).
  repeat split; intros e He.
  - apply (compare_lt_trans law) with k; try assumption; [|apply HA; assumption|lia].
    apply Hc. apply in_or_app. now left.
  - apply (compare_zero_trans law) with k; try assumption; [|now apply HE].
    apply Hc. apply in_or_app. right. apply in_or_app. now left.
  - destruct (Z_lt_le_dec 0 (cmpK (fst e) k')) as [|Hle]; [assumption | exfalso].
    assert (cmpK (fst e) k <= 0).
    { apply (compare_le_trans law) with k'; try assumption; [|lia].
      apply Hc. apply in_or_app. right. apply in_or_app. now right. }
    specialize (HH e He). lia.
Qed.

(** [find] under the invariant of siblings with touching bounds allowed. *)
Lemma find_all_matching (this : Tree) (q : Key) :
  childrenOk cmp (children this) ->
  siblingsApart (children this) -> siblingsWellFormed (children this) ->
  cmp (start q) (end_ q) <= 0 ->
  find this q =
  map Some
    (map snd (rev (filter (fun e => matches q (fst e))
                     (splitLower cmpK q true (children this))))
     ++ map snd (filter (fun e => matches q (fst e))
                   (splitHigher cmpK q false (children this)))).
Proof.
  intros H Hap Hwf Hq.
  rewrite (find_runs law this q H).
  rewrite (lowerRun_all law q H Hap Hwf Hq), (higherRun_all law q H Hap Hwf Hq).
  rewrite filter_rev, <- map_app, map_map. reflexivity.
Qed.
End MapFacts.

(** X5. A child added with [addChild] is there to be looked up: the map
    answers its range with the new node, and [find] of that range returns
    the new node first. *)
Theorem find_added_first (T RType : Type) (cmp : RType -> RType -> Z)
    (this : RangeBinTree T RType) (r : Range RType) (v : T) :
  Lawful cmp -> childrenOk cmp (children this) -> comparator r = cmp ->
  get (@compare RType) r (children (addChild this r v)) = Some (newRangeBinTree r v) /\
  hd_error (find (addChild this r v) r) = Some (Some (newRangeBinTree r v)).
Proof.
  intros law H Hr.
  pose proof (addChild_ok law this r v H Hr) as Hok.
  destruct (map_around law r H) as (A & E & Hh & Hm & HA & HE & HH & HL).
  assert (Hch : children (addChild this r v) = A ++ (r, newRangeBinTree r v) :: Hh).
  { unfold addChild, addChildNode. rewrite children_with_children. simpl range.
    rewrite Hm. now apply set_around. }
  split.
  - apply (get_entry law (r, newRangeBinTree r v) Hok).
    rewrite Hch. apply in_or_app. right. now left.
  - rewrite (find_runs law _ r Hok). rewrite Hch. unfold lowerRun.
    assert (Hlow : Forall (fun e : Range RType * RangeBinTree T RType =>
                             compare (fst e) r <= 0)
                     (A ++ [(r, newRangeBinTree r v)])).
    { rewrite Forall_app. split.
      - eapply Forall_impl; [|exact HA]. intros e He. cbv beta in He. lia.
      - repeat constructor. simpl. rewrite (compare_refl law r Hr). lia. }
    replace (A ++ (r, newRangeBinTree r v) :: Hh)
      with ((A ++ [(r, newRangeBinTree r v)]) ++ Hh) by now rewrite <- app_assoc.
    rewrite (@splitLower_app _ _ r _ _ Hlow HH).
    rewrite rev_app_distr. simpl.
    assert (Hmq : matches r r = true)
      by (eapply matches_equal_key; [eassumption | now apply (compare_refl law)]).
    rewrite Hmq. reflexivity.
Qed.

Lemma find_added_first_witness :
  get (@compare Z) (NumberRange 7 8)
    (children (addChild threeSiblings (NumberRange 7 8) 42%nat))
    = Some (newRangeBinTree (NumberRange 7 8) 42%nat) /\
  hd_error (find (addChild threeSiblings (NumberRange 7 8) 42%nat) (NumberRange 7 8))
    = Some (Some (newRangeBinTree (NumberRange 7 8) 42%nat)).
Proof.
  apply (@find_added_first nat Z compareNumbers threeSiblings (NumberRange 7 8) 42%nat).
  - exact compareNumbers_lawful.
  - solve_childrenOk.
  - reflexivity.
Defined.

(** X6. [addChild] is last-write-wins: adding under a range that compares
    equal to the range of an earlier [addChild] leaves the node as if the
    earlier one had not happened. *)
Theorem addChild_overwrites (T RType : Type) (cmp : RType -> RType -> Z)
    (this : RangeBinTree T RType) (r r' : Range RType) (v v' : T) :
  Lawful cmp -> childrenOk cmp (children this) ->
  comparator r = cmp -> comparator r' = cmp -> compare r r' = 0 ->
  addChild (addChild this r v) r' v' = addChild this r' v'.
Proof.
  intros law H Hr Hr' Hrr.
  destruct (map_around law r H) as (A & E & Hh & Hm & HA & HE & HH & HL).
  assert (Hok : childrenOk cmp (A ++ E ++ Hh)) by now rewrite <- Hm.
  destruct (around_equal_key law r r' Hok Hr Hr' Hrr HA HE HH)
    as (HA' & HE' & HH').
  apply tree_ext; [reflexivity | reflexivity |].
  unfold addChild, addChildNode. rewrite !children_with_children. simpl range.
  rewrite Hm. rewrite (set_around r (newRangeBinTree r v) HA HE HH HL).
  rewrite (set_around r' (newRangeBinTree r' v') HA' HE' HH' HL).
  apply (set_around r' (newRangeBinTree r' v') (E := [(r, newRangeBinTree r v)]));
    try assumption; [|simpl; lia].
  repeat constructor. exact Hrr.
Qed.

Lemma addChild_overwrites_witness :
  addChild (addChild threeSiblings (NumberRange 6 9) 1%nat) (NumberRange 6 9) 2%nat
  = addChild threeSiblings (NumberRange 6 9) 2%nat.
Proof.
  apply (@addChild_overwrites nat Z compareNumbers threeSiblings
           (NumberRange 6 9) (NumberRange 6 9) 1%nat 2%nat).
  - exact compareNumbers_lawful.
  - solve_childrenOk.
  - reflexivity.
  - reflexivity.
  - reflexivity.
Defined.

Section RemoveAllFacts.
Variables T RType : Type.
Local Abbreviation Tree := (RangeBinTree T RType).
Local Abbreviation Key := (Range RType).

Lemma takeWhile_never (A : Type) (l : list A) :
  takeWhile (fun x => negb (neverBreak x)) l = l.
Proof. induction l as [|x l IH]; simpl; [reflexivity | f_equal; exact IH]. Qed.

Lemma removeAll_fold (ranges : list Key) (this : Tree) :
  removeAll this ranges =
  with_children this
    (fold_left (fun m k => delete (@compare RType) k m) ranges (children this)).
Proof.
  unfold removeAll. rewrite forEachIter_run, takeWhile_never.
  revert this. induction ranges as [|r ranges IH]; intro this; simpl.
  - symmetry. apply with_children_id.
  - rewrite IH. unfold remove. rewrite children_with_children.
    now destruct this.
Qed.

Lemma forallb_Permutation (A : Type) (f : A -> bool) (l l' : list A) :
  Permutation l l' -> forallb f l = forallb f l'.
Proof.
  induction 1 as [|x l l' _ IH|x y l|l l' l'' _ IH1 _ IH2]; simpl.
  - reflexivity.
  - now rewrite IH.
  - now destruct (f x), (f y).
  - now rewrite IH1.
Qed.

Lemma matching_keys (cmp : RType -> RType -> Z) (q : Key)
    (m : TreeMap Key Tree) :
  childrenOk cmp m ->
  matching q m = map snd (filter (fun e => matches q (fst e)) m).
Proof.
  intro H. unfold matching, values.
  pose proof (keysAreRanges H) as Hr. clear H.
  induction Hr as [|a m Ha _ IH]; simpl; [reflexivity|].
  rewrite Ha. destruct (matches q (fst a)); simpl; now rewrite IH.
Qed.
End RemoveAllFacts.

Section RemovalFacts.
Variables T RType : Type.
Variable cmp : RType -> RType -> Z.
Hypothesis law : Lawful cmp.

Local Abbreviation Tree := (RangeBinTree T RType).
Local Abbreviation Key := (Range RType).
Local Abbreviation Map := (TreeMap Key Tree).
Local Abbreviation cmpK := (@compare RType).

(** In a map in order [delete] takes out one entry at most. *)
Lemma delete_length (k : Key) (m : Map) :
  childrenOk cmp m ->
  (List.length m <= S (List.length (delete cmpK k m)))%nat.
Proof.
  intro Hok.
  destruct (map_around law k Hok) as (A & E & H & -> & HA & HE & HH & HL).
  rewrite (delete_around k HA HE HH). rewrite !length_app. lia.
Qed.

Lemma deleted_length (ks : list Key) :
  forall m : Map, childrenOk cmp m ->
  (List.length m
   <= List.length (fold_left (fun m k => delete cmpK k m) ks m) + List.length ks)%nat.
Proof.
  induction ks as [|k ks IH]; intros m Hok; simpl; [lia|].
  pose proof (delete_length k Hok) as Hk.
  assert (Hok' : childrenOk cmp (delete cmpK k m))
    by (unfold delete; now apply childrenOk_filter).
  specialize (IH _ Hok'). lia.
Qed.

(** What [removeIntersecting] takes out is what the two scans of [find]
    meet. *)
Lemma removed_runs (this : Tree) (q : Key) :
  childrenOk cmp (children this) ->
  Permutation (children this)
    (children (removeIntersecting this q)
     ++ lowerRun q (children this) ++ higherRun q (children this)).
Proof.
  intro Hok. rewrite (remove_runs law this q Hok).
  unfold lowerRun, higherRun.
  set (mt := fun e : Key * Tree => matches q (fst e)).
  set (lower := splitLower cmpK q true (children this)).
  set (higher := splitHigher cmpK q false (children this)).
  rewrite (split_partition law q Hok) at 1. fold lower higher.
  rewrite <- (rev_involutive lower) at 1.
  rewrite <- (takeWhile_dropWhile mt (rev lower)) at 1.
  rewrite <- (takeWhile_dropWhile mt higher) at 1.
  rewrite rev_app_distr, <- !app_assoc.
  apply Permutation_app_head.
  apply Permutation_trans
    with (takeWhile mt (rev lower) ++ takeWhile mt higher ++ dropWhile mt higher).
  - apply Permutation_app_tail. apply Permutation_sym, Permutation_rev.
  - rewrite (app_assoc (takeWhile mt (rev lower)) (takeWhile mt higher)
               (dropWhile mt higher)).
    apply Permutation_app_comm.
Qed.
End RemovalFacts.

(** X7. [removeIntersecting] takes out exactly the children [find] returns:
    on a node whose children map is in order, whatever its siblings overlap,
    the children before the call are those after it together with the
    children [find] of the same range returns, and each of these intersects
    the range or lies inside it. *)
Theorem removeIntersecting_removes_found (T RType : Type)
    (cmp : RType -> RType -> Z) (this : RangeBinTree T RType) (q : Range RType) :
  Lawful cmp -> childrenOk cmp (children this) ->
  exists removed,
    find this q = map (fun e => Some (snd e)) removed /\
    Permutation (children this) (children (removeIntersecting this q) ++ removed) /\
    Forall (fun e => matches q (fst e) = true) removed.
Proof.
  intros law Hok.
  exists (lowerRun q (children this) ++ higherRun q (children this)).
  split; [apply (find_runs law this q Hok)|].
  split; [apply (removed_runs law this q Hok)|].
  apply Forall_app. split; apply takeWhile_Forall.
Qed.

Lemma removeIntersecting_removes_found_witness :
  exists removed,
    find threeSiblings (NumberRange 4 7) = map (fun e => Some (snd e)) removed /\
    Permutation (children threeSiblings)
      (children (removeIntersecting threeSiblings (NumberRange 4 7)) ++ removed) /\
    Forall (fun e => matches (NumberRange 4 7) (fst e) = true) removed.
Proof.
  apply (@removeIntersecting_removes_found nat Z compareNumbers threeSiblings
           (NumberRange 4 7)).
  - exact compareNumbers_lawful.
  - solve_childrenOk.
Defined.

(** X8. [remove] and [removeAll] take out only children whose key compares
    equal to a range given, and one child for a range at most: on a node
    whose children map is in order, every child left was a child before,
    every child whose key compares equal to none of the ranges is left, and
    the number of children falls by no more than the number of ranges.
    Neither touches the value or the range of the node, and the order of
    the ranges given to [removeAll] does not matter. *)
Theorem removals_take_only_equal_keys (T RType : Type) (cmp : RType -> RType -> Z)
    (this : RangeBinTree T RType) (r : Range RType)
    (ranges ranges' : list (Range RType)) :
  Lawful cmp -> childrenOk cmp (children this) ->
  ((forall e, In e (children (remove this r)) -> In e (children this)) /\
   (forall e, In e (children this) -> compare (fst e) r <> 0 ->
      In e (children (remove this r))) /\
   (List.length (children this) <= S (List.length (children (remove this r))))%nat /\
   node (remove this r) = node this /\ range (remove this r) = range this) /\
  ((forall e, In e (children (removeAll this ranges)) -> In e (children this)) /\
   (forall e, In e (children this) ->
      Forall (fun r => compare (fst e) r <> 0) ranges ->
      In e (children (removeAll this ranges))) /\
   (List.length (children this)
    <= List.length (children (removeAll this ranges)) + List.length ranges)%nat /\
   node (removeAll this ranges) = node this /\
   range (removeAll this ranges) = range this /\
   (Permutation ranges ranges' -> removeAll this ranges = removeAll this ranges')).
Proof.
  intros law Hok. split.
  - unfold remove. rewrite children_with_children. unfold delete at 1 2.
    split; [intros e He; apply filter_In in He; tauto|].
    split; [|split; [now apply (delete_length law)|split; reflexivity]].
    intros e He Hne. apply filter_In. split; [assumption|].
    destruct (Z.eqb_spec (compare (fst e) r) 0); [contradiction | reflexivity].
  - rewrite !removeAll_fold, children_with_children.
    split; [|split; [|split; [now apply (deleted_length law)|]]].
    + intros e He. rewrite fold_delete in He. apply filter_In in He. tauto.
    + intros e He Hne. rewrite fold_delete. apply filter_In. split; [assumption|].
      apply forallb_forall. intros k Hk. rewrite Forall_forall in Hne.
      specialize (Hne k Hk).
      destruct (Z.eqb_spec (compare (fst e) k) 0); [contradiction | reflexivity].
    + split; [reflexivity|]. split; [reflexivity|].
      intro Hp. rewrite !fold_delete. f_equal. apply filter_ext. intro e.
      now apply forallb_Permutation.
Qed.

Lemma removals_take_only_equal_keys_witness :
  (List.length (children threeSiblings)
   <= List.length
        (children (removeAll threeSiblings
                     [NumberRange 10 15; NumberRange 0 5; NumberRange 7 7]))
      + 3)%nat /\
  removeAll threeSiblings [NumberRange 10 15; NumberRange 0 5; NumberRange 7 7]
  = removeAll threeSiblings [NumberRange 7 7; NumberRange 0 5; NumberRange 10 15].
Proof.
  destruct (@removals_take_only_equal_keys nat Z compareNumbers threeSiblings
              (NumberRange 7 7)
              [NumberRange 10 15; NumberRange 0 5; NumberRange 7 7]
              [NumberRange 7 7; NumberRange 0 5; NumberRange 10 15]
              compareNumbers_lawful)
    as (_ & _ & _ & Hlen & _ & _ & Hperm).
  - solve_childrenOk.
  - split; [exact Hlen|]. apply Hperm.
    apply perm_trans with [NumberRange 0 5; NumberRange 10 15; NumberRange 7 7].
    + apply perm_swap.
    + apply perm_trans with [NumberRange 0 5; NumberRange 7 7; NumberRange 10 15].
      * apply perm_skip, perm_swap.
      * apply perm_swap.
Defined.

(** X9. Among well-formed siblings that at most touch, [find] of a
    well-formed range returns every child that intersects the range or lies
    inside it, each once and in this order: first those whose key is at or
    below the range, nearest first, then those above it in ascending order. *)
Theorem find_order_touching (T RType : Type) (cmp : RType -> RType -> Z)
    (this : RangeBinTree T RType) (q : Range RType) :
  Lawful cmp -> childrenOk cmp (children this) ->
  siblingsApart (children this) -> siblingsWellFormed (children this) ->
  comparator q = cmp -> wellFormed q ->
  exists lo hi,
    children this = lo ++ hi /\
    Forall (fun e => compare (fst e) q <= 0) lo /\
    Forall (fun e => 0 < compare (fst e) q) hi /\
    find this q = map Some (rev (matching q lo) ++ matching q hi).
Proof.
  intros law H Hap Hwf Hq Hwq.
  unfold wellFormed in Hwq. rewrite Hq in Hwq.
  exists (splitLower (@compare RType) q true (children this)),
         (splitHigher (@compare RType) q false (children this)).
  pose proof (split_partition law q H) as Hsplit.
  split; [exact Hsplit|].
  split; [apply splitLower_Forall|]. split; [apply splitHigher_Forall|].
  pose proof H as Hparts. rewrite Hsplit in Hparts.
  apply childrenOk_app_inv in Hparts. destruct Hparts as (Hlo & Hhi & _).
  rewrite (matching_keys q Hlo), (matching_keys q Hhi), <- map_rev.
  now apply (find_all_matching law).
Qed.

Lemma find_order_touching_witness :
  exists lo hi,
    children touchingSiblings = lo ++ hi /\
    Forall (fun e => compare (fst e) (NumberRange 4 4) <= 0) lo /\
    Forall (fun e => 0 < compare (fst e) (NumberRange 4 4)) hi /\
    find touchingSiblings (NumberRange 4 4)
    = map Some (rev (matching (NumberRange 4 4) lo) ++ matching (NumberRange 4 4) hi).
Proof.
  apply (@find_order_touching nat Z compareNumbers touchingSiblings (NumberRange 4 4)).
  - exact compareNumbers_lawful.
  - solve_childrenOk.
  - repeat constructor; vm_compute; discriminate.
  - repeat constructor; vm_compute; discriminate.
  - reflexivity.
  - vm_compute. discriminate.
Defined.

(** X10. The two revisions of [find] agree: the earlier one, which has the
    two scans written out in the method, returns on every node and every
    range the list the later one returns through [processIntersecting]. *)
Theorem find_revisions_agree (T RType : Type) (this : RangeBinTree T RType)
    (q : Range RType) :
  find_inline this q = find this q.
Proof. apply find_inline_eq. Qed.

(** X11. The class keeps the children map in order: on a node whose keys
    ascend strictly, share the comparator and are the ranges of the nodes
    stored under them, every method that changes the map leaves such a map,
    provided the ranges it is given have the comparator of the map. *)
Theorem mutators_keep_order (T RType : Type) (cmp : RType -> RType -> Z)
    (this child : RangeBinTree T RType) (rng q : Range RType) (v : T)
    (cs : list (Range RType * T)) (ranges : list (Range RType)) :
  Lawful cmp -> childrenOk cmp (children this) ->
  childrenOk cmp (children (newRangeBinTree rng v)) /\
  (comparator (range child) = cmp ->
   childrenOk cmp (children (addChildNode this child))) /\
  (comparator rng = cmp -> childrenOk cmp (children (addChild this rng v))) /\
  (Forall (fun p => comparator (fst p) = cmp) cs ->
   childrenOk cmp (children (addChildren this cs))) /\
  childrenOk cmp (children (remove this rng)) /\
  childrenOk cmp (children (removeAll this ranges)) /\
  childrenOk cmp (children (removeIntersecting this q)) /\
  (comparator q = cmp -> childrenOk cmp (children (replaceIntersecting this q v))).
Proof.
  intros law H.
  split; [apply newRangeBinTree_ok|].
  split; [intro Hc; now apply addChildNode_ok|].
  split; [intro Hc; now apply addChild_ok|].
  split; [intro Hc; rewrite addChildren_children; now apply inserted_ok|].
  split; [now apply remove_ok|].
  split; [now apply removeAll_ok|].
  split; [now apply removeIntersecting_ok|].
  intro Hc. now apply replaceIntersecting_ok.
Qed.

Lemma mutators_keep_order_witness :
  childrenOk compareNumbers
    (children (replaceIntersecting
                 (addChildren (removeAll threeSiblings [NumberRange 0 5]) twiceSixNine)
                 (NumberRange 3 7) 5%nat)).
Proof.
  apply (@mutators_keep_order nat Z compareNumbers
           (addChildren (removeAll threeSiblings [NumberRange 0 5]) twiceSixNine)
           threeSiblings (NumberRange 3 7) (NumberRange 3 7) 5%nat [] []).
  - exact compareNumbers_lawful.
  - apply (@mutators_keep_order nat Z compareNumbers
             (removeAll threeSiblings [NumberRange 0 5])
             threeSiblings (NumberRange 3 7) (NumberRange 3 7) 5%nat twiceSixNine []).
    + exact compareNumbers_lawful.
    + apply (@mutators_keep_order nat Z compareNumbers threeSiblings
               threeSiblings (NumberRange 3 7) (NumberRange 3 7) 5%nat []
               [NumberRange 0 5]).
      * exact compareNumbers_lawful.
      * solve_childrenOk.
    + repeat constructor.
  - reflexivity.
Defined.

(** X12. After [addChildren] the node has, for each range given, the node
    made of the last pair given with that range, and of its earlier children
    those whose key compares equal to none of the ranges given. *)
Theorem addChildren_last_wins (T RType : Type) (cmp : RType -> RType -> Z)
    (this : RangeBinTree T RType) (cs : list (Range RType * T))
    (e : Range RType * RangeBinTree T RType) :
  Lawful cmp -> childrenOk cmp (children this) ->
  Forall (fun p => comparator (fst p) = cmp) cs ->
  (In e (children (addChildren this cs)) <->
   (exists l1 p l2,
      cs = l1 ++ p :: l2 /\ e = (fst p, newRangeBinTree (fst p) (snd p)) /\
      Forall (fun p' => compare (fst p) (fst p') <> 0) l2) \/
   (In e (children this) /\ Forall (fun p => compare (fst e) (fst p) <> 0) cs)).
Proof.
  intros law H Hc. rewrite addChildren_children.
  now apply (inserted_In law).
Qed.

Lemma addChildren_last_wins_witness :
  In (NumberRange 6 9, newRangeBinTree (NumberRange 6 9) 2%nat)
     (children (addChildren threeSiblings twiceSixNine)).
Proof.
  apply (@addChildren_last_wins nat Z compareNumbers threeSiblings twiceSixNine).
  - exact compareNumbers_lawful.
  - solve_childrenOk.
  - repeat constructor.
  - left. exists [(NumberRange 6 9, 1%nat)], (NumberRange 6 9, 2%nat), [].
    repeat split. constructor.
Defined.

(** X13. [addChildNodes] never adds a child: given an empty array it returns
    with the node as it was, given anything else it throws a [TypeError] at
    the first element, the method having lost its receiver. *)
Theorem addChildNodes_never_adds (T RType : Type) (this : RangeBinTree T RType)
    (cs : list (RangeBinTree T RType)) :
  (cs = [] -> addChildNodes this cs = Returned this) /\
  (cs <> [] -> addChildNodes this cs = TypeError) /\
  (forall t, addChildNodes this cs = Returned t -> cs = [] /\ t = this).
Proof.
  destruct cs as [|c cs]; simpl.
  - split; [reflexivity|]. split; [congruence|].
    intros t Ht. inversion Ht. now split.
  - split; [discriminate|]. split; [reflexivity | discriminate].
Qed.

Lemma addChildNodes_never_adds_witness :
  addChildNodes threeSiblings [leafOf 20 30] = TypeError.
Proof.
  apply (@addChildNodes_never_adds nat Z threeSiblings [leafOf 20 30]).
  discriminate.
Defined.

(* ================================================================== *)
(** ** The index of a syntax tree *)

Section NodesInserted.
Variables T RType : Type.
Variable cmp : RType -> RType -> Z.
Hypothesis law : Lawful cmp.

Local Abbreviation Tree := (RangeBinTree T RType).
Local Abbreviation Key := (Range RType).
Local Abbreviation Map := (TreeMap Key Tree).
Local Abbreviation cmpK := (@compare RType).

Lemma addChildNode_fold (ts : list Tree) (t : Tree) :
  fold_left (fun node c => addChildNode node c) ts t =
  with_children t (fold_left (fun m c => set cmpK (range c) c m) ts (children t)).
Proof.
  revert t. induction ts as [|c ts IH]; intro t; simpl.
  - symmetry. apply with_children_id.
  - rewrite IH. unfold addChildNode. rewrite children_with_children.
    now destruct t.
Qed.

Lemma nodes_inserted_ok (ts : list Tree) (m : Map) :
  childrenOk cmp m -> Forall (fun c => comparator (range c) = cmp) ts ->
  childrenOk cmp (fold_left (fun m c => set cmpK (range c) c m) ts m).
Proof.
  revert m. induction ts as [|c ts IH]; intros m H Hc; simpl; [assumption|].
  pose proof (Forall_inv Hc) as Hc0. apply Forall_inv_tail in Hc.
  apply IH; [|assumption].
  apply (set_ok law); [assumption | assumption | reflexivity].
Qed.

(** The entries after a run of [addChildNode]: for each range the node
    added last, and the earlier entries whose key none of the nodes has. *)
Lemma nodes_inserted_In (ts : list Tree) (m : Map) e :
  childrenOk cmp m -> Forall (fun c => comparator (range c) = cmp) ts ->
  (In e (fold_left (fun m c => set cmpK (range c) c m) ts m) <->
   (exists l1 c l2,
      ts = l1 ++ c :: l2 /\ e = (range c, c) /\
      Forall (fun c' => cmpK (range c) (range c') <> 0) l2) \/
   (In e m /\ Forall (fun c => cmpK (fst e) (range c) <> 0) ts)).
Proof.
  revert m. induction ts as [|c0 ts IH]; intros m H Hc; simpl.
  - split.
    + intro He. right. split; [assumption | constructor].
    + intros [(l1 & c & l2 & Hf & _)|[He _]]; [|assumption].
      destruct l1; discriminate.
  - pose proof (Forall_inv Hc) as Hc0. pose proof (Forall_inv_tail Hc) as Hc'.
    assert (Hok : childrenOk cmp (set cmpK (range c0) c0 m))
      by (apply (set_ok law); [assumption | assumption | reflexivity]).
    rewrite (IH _ Hok Hc'). rewrite (set_In law _ _ e H Hc0). split.
    + intros [(l1 & c & l2 & -> & He & Hl2)|[[->|[He Hne]] Hall]].
      * left. exists (c0 :: l1), c, l2. now repeat split.
      * left. exists [], c0, ts. now repeat split.
      * right. split; [assumption|]. now constructor.
    + intros [(l1 & c & l2 & Hf & -> & Hl2)|[He Hall]].
      * destruct l1 as [|c1 l1]; simpl in Hf.
        -- injection Hf as <- <-. right. split; [now left | exact Hl2].
        -- injection Hf as <- ->. left. exists l1, c, l2. now repeat split.
      * pose proof (Forall_inv Hall) as Hne. apply Forall_inv_tail in Hall.
        right. split; [right; now split | assumption].
Qed.

Lemma deepOk_iff (t : Tree) :
  deepOk cmp t <->
  childrenOk cmp (children t) /\ Forall (fun e => deepOk cmp (snd e)) (children t).
Proof.
  destruct t as [n r c]. simpl. apply and_iff_compat_l.
  induction c as [|a c IH]; simpl.
  - split; [constructor | trivial].
  - rewrite IH. split.
    + intros [Ha Hc]. now constructor.
    + intro Hall. split; [exact (Forall_inv Hall) | exact (Forall_inv_tail Hall)].
Qed.

(** A run of [addChildNode] keeps every level in order. *)
Lemma nodes_inserted_deep (ts : list Tree) (t : Tree) :
  deepOk cmp t ->
  Forall (fun c => comparator (range c) = cmp) ts ->
  Forall (fun c => deepOk cmp c) ts ->
  deepOk cmp (fold_left (fun node c => addChildNode node c) ts t).
Proof.
  intros Ht Hc Hd. apply deepOk_iff in Ht. destruct Ht as [Hok Hall].
  apply deepOk_iff. rewrite addChildNode_fold, children_with_children.
  split; [now apply nodes_inserted_ok|].
  apply Forall_forall. intros e He.
  apply (@nodes_inserted_In ts (children t) e Hok Hc) in He.
  rewrite Forall_forall in Hd, Hall.
  destruct He as [(l1 & c & l2 & -> & -> & _)|[He _]].
  - apply Hd. apply in_or_app. right. now left.
  - now apply Hall.
Qed.

Lemma reaches_trans (t u w : Tree) : reaches t u -> reaches u w -> reaches t w.
Proof.
  intros Htu Huw. induction Htu as [t e He|t e u He _ IH].
  - now apply reaches_below with e.
  - apply reaches_below with e; [assumption | now apply IH].
Qed.
End NodesInserted.

Section BuiltFacts.
Local Abbreviation SyntaxTree := (RangeBinTree Node Z).

Lemma SyntaxNode_induction (P : SyntaxNode -> Prop) :
  (forall ty s e cs, Forall P cs -> P (mkSyntax ty s e cs)) -> forall n, P n.
Proof.
  intro H. fix IH 1. intros [ty s e cs]. apply H.
  revert cs. fix IHl 1. intros [|c cs]; constructor; [apply IH | apply IHl].
Qed.

Lemma createRangeBTreeNode_unfold (up : option Node) (n : SyntaxNode) :
  createRangeBTreeNode up n =
  fold_left (fun node t => addChildNode node t)
    (map (createRangeBTreeNode (Some (nodeOf up n))) (syntaxChildren n))
    (newRangeBinTree (span n) (nodeOf up n)).
Proof. now destruct n. Qed.

Lemma createRangeBTreeNode_root (up : option Node) (n : SyntaxNode) :
  range (createRangeBTreeNode up n) = span n /\
  node (createRangeBTreeNode up n) = nodeOf up n.
Proof.
  rewrite createRangeBTreeNode_unfold, addChildNode_fold. split; reflexivity.
Qed.

Lemma built_comparators (up : option Node) (cs : list SyntaxNode) :
  Forall (fun c : SyntaxTree => comparator (range c) = compareNumbers)
    (map (createRangeBTreeNode up) cs).
Proof.
  rewrite Forall_forall. intros t Ht. apply in_map_iff in Ht.
  destruct Ht as (c & <- & _).
  now rewrite (proj1 (createRangeBTreeNode_root up c)).
Qed.

Lemma built_deepOk (n : SyntaxNode) :
  forall up, deepOk compareNumbers (createRangeBTreeNode up n).
Proof.
  induction n as [ty s e cs IH] using SyntaxNode_induction. intro up.
  rewrite createRangeBTreeNode_unfold.
  apply (nodes_inserted_deep compareNumbers_lawful).
  - simpl. split; [split; constructor | trivial].
  - apply built_comparators.
  - rewrite Forall_forall in *. intros t Ht. apply in_map_iff in Ht.
    destruct Ht as (c & <- & Hc). now apply IH.
Qed.

(** The children of a built node: one for each span among the children of
    the syntax node, built from the last child with that span. *)
Lemma built_children (up : option Node) (n : SyntaxNode) e :
  In e (children (createRangeBTreeNode up n)) <->
  exists l1 c l2,
    syntaxChildren n = l1 ++ c :: l2 /\
    e = (span c, createRangeBTreeNode (Some (nodeOf up n)) c) /\
    Forall (fun c' => compare (span c) (span c') <> 0) l2.
Proof.
  rewrite createRangeBTreeNode_unfold, addChildNode_fold, children_with_children.
  rewrite (@nodes_inserted_In _ _ _ compareNumbers_lawful _ _ e
             (newRangeBinTree_ok compareNumbers (span n) (nodeOf up n))
             (built_comparators (Some (nodeOf up n)) (syntaxChildren n))).
  simpl children. split.
  - intros [(l1 & t & l2 & Hts & -> & Hl2)|[[] _]].
    apply map_eq_app in Hts. destruct Hts as (k1 & k2 & Hcs & <- & Hk2).
    destruct k2 as [|c k2]; [discriminate|]. simpl in Hk2.
    injection Hk2 as <- <-.
    exists k1, c, k2. split; [assumption|].
    rewrite (proj1 (createRangeBTreeNode_root _ c)). split; [reflexivity|].
    rewrite Forall_map in Hl2. eapply Forall_impl; [|exact Hl2].
    intros c' Hc'. cbv beta in Hc'.
    now rewrite !(proj1 (createRangeBTreeNode_root _ _)) in Hc'.
  - intros (l1 & c & l2 & Hcs & -> & Hl2). left.
    exists (map (createRangeBTreeNode (Some (nodeOf up n))) l1),
           (createRangeBTreeNode (Some (nodeOf up n)) c),
           (map (createRangeBTreeNode (Some (nodeOf up n))) l2).
    split; [now rewrite Hcs, map_app|].
    rewrite (proj1 (createRangeBTreeNode_root _ c)). split; [reflexivity|].
    rewrite Forall_map. eapply Forall_impl; [|exact Hl2].
    intros c' Hc'. cbv beta.
    now rewrite !(proj1 (createRangeBTreeNode_root _ _)).
Qed.

(** What lies below a built node is built from what lies below the syntax
    node. *)
Lemma built_reaches (n : SyntaxNode) :
  forall up t, reaches (createRangeBTreeNode up n) t ->
  exists up' c, below n c /\ t = createRangeBTreeNode up' c.
Proof.
  induction n as [ty s e cs IH] using SyntaxNode_induction.
  intros up t Ht.
  remember (createRangeBTreeNode up (mkSyntax ty s e cs)) as b eqn:Hb.
  destruct Ht as [x Hx|x u Hx Hu]; subst b;
    apply built_children in Hx; destruct Hx as (l1 & c & l2 & Hcs & -> & _);
    simpl in Hcs;
    (assert (Hin : In c cs) by (rewrite Hcs; apply in_or_app; right; now left)).
  - exists (Some (nodeOf up (mkSyntax ty s e cs))), c.
    split; [now apply below_child | reflexivity].
  - rewrite Forall_forall in IH. simpl snd in Hu.
    destruct (IH c Hin _ _ Hu) as (up' & d & Hd & ->).
    exists up', d. split; [|reflexivity].
    now apply below_deeper with c.
Qed.

Lemma lastBlock_In (path : list SyntaxTree) (b : SyntaxTree) :
  lastBlock path = Some b -> In b path /\ isBlock b = true.
Proof.
  induction path as [|t path IH]; simpl; [discriminate|].
  destruct (lastBlock path) as [b'|].
  - intro E. injection E as ->. destruct (IH eq_refl). split; [now right | assumption].
  - destruct (isBlock t) eqn:Et; [|discriminate].
    intro E. injection E as ->. split; [now left | assumption].
Qed.

(** Every node on the way of the lookup lies below the node the lookup
    started at, and passed the test. *)
Lemma descendsAlong_reaches (rng : Range Z) (path : list SyntaxTree) :
  forall t, deepOk compareNumbers t ->
  descendsAlong rng (find t rng) path ->
  forall u, In u path -> reaches t u /\ passes rng u = true.
Proof.
  induction path as [|w path IH]; intros t Hok Hpath u Hu; [destruct Hu|].
  simpl in Hpath. destruct Hpath as (Hhd & Hpass & Hrest).
  destruct (find_head compareNumbers_lawful t rng (deepOk_children _ t Hok) Hhd)
    as (e & He & Hw).
  injection Hw as ->.
  destruct Hu as [<-|Hu].
  - split; [now apply reaches_child | assumption].
  - destruct (IH (snd e) (deepOk_child _ t e Hok He) Hrest u Hu) as [Hr Hp].
    split; [now apply reaches_below with e | assumption].
Qed.

(** The lookup returns, and what it returns comes from a block below the
    node it started at that has children and holds the range inside. *)
Lemma findEnclosingBlock_reaches (tree : SyntaxTree) (rng : Range Z) (grab : bool) :
  deepOk compareNumbers tree ->
  exists r,
    findEnclosingBlock tree rng grab = Returned r /\
    forall b, r = Some b ->
      exists t, reaches tree t /\ type (node t) = "block"%string /\
                childCount (node t) <> 0 /\ inside rng (range t) = true /\
                blockAnswer grab t = Some b.
Proof.
  intro Hok. unfold findEnclosingBlock.
  destruct (@loop_descends rng grab (height tree) (find tree rng) None)
    as (path & Hpath & Hres).
  { intros x Hx.
    destruct (find_head compareNumbers_lawful tree rng (deepOk_children _ tree Hok) Hx)
      as (e & He & ->).
    exists (snd e). split; [reflexivity|]. split.
    - apply (deepOk_child _ tree e Hok He).
    - pose proof (height_child tree e He). lia. }
  rewrite Hres. eexists. split; [reflexivity|].
  intros b Hb. destruct (lastBlock path) as [t|] eqn:El; [|discriminate].
  destruct (lastBlock_In _ El) as [Hin Hblock].
  destruct (descendsAlong_reaches rng path tree Hok Hpath t Hin) as [Hr Hp].
  exists t. split; [assumption|].
  unfold isBlock in Hblock. apply String.eqb_eq in Hblock.
  unfold passes in Hp. apply negb_true_iff, orb_false_iff in Hp.
  destruct Hp as [Hcc Hin']. apply Z.eqb_neq in Hcc. apply negb_false_iff in Hin'.
  now repeat split.
Qed.
End BuiltFacts.

(** X14. Every index [createRangeBTreeNode] builds is in order at every
    level, whatever the syntax tree: the keys of each children map ascend
    strictly, are number ranges and are the ranges of the nodes stored under
    them.  Its root has the span of the syntax node for range. *)
Theorem createRangeBTreeNode_ordered (up : option Node) (n : SyntaxNode) :
  deepOk compareNumbers (createRangeBTreeNode up n) /\
  range (createRangeBTreeNode up n) = NumberRange (startIndex n) (endIndex n) /\
  node (createRangeBTreeNode up n) = nodeOf up n.
Proof.
  split; [apply built_deepOk | apply createRangeBTreeNode_root].
Qed.

(** X15. A built node has one child for each span among the children of the
    syntax node, built from the last child with that span: a child whose
    span a later sibling shares is not in the index.  So the index has at
    most as many children as the syntax node, and its [childCount] can
    exceed them. *)
Theorem createRangeBTreeNode_children (up : option Node) (n : SyntaxNode) :
  (forall e,
     In e (children (createRangeBTreeNode up n)) <->
     exists l1 c l2,
       syntaxChildren n = l1 ++ c :: l2 /\
       e = (span c, createRangeBTreeNode (Some (nodeOf up n)) c) /\
       Forall (fun c' => compare (span c) (span c') <> 0) l2) /\
  Z.of_nat (List.length (children (createRangeBTreeNode up n)))
    <= childCount (node (createRangeBTreeNode up n)).
Proof.
  split; [intro e; apply built_children|].
  rewrite (proj2 (createRangeBTreeNode_root up n)). simpl childCount.
  apply inj_le.
  rewrite createRangeBTreeNode_unfold, addChildNode_fold, children_with_children.
  simpl children.
  rewrite <- (length_map (createRangeBTreeNode (Some (nodeOf up n))) (syntaxChildren n)).
  generalize (map (createRangeBTreeNode (Some (nodeOf up n))) (syntaxChildren n)).
  intro ts.
  assert (Hgen : forall m : TreeMap (Range Z) (RangeBinTree Node Z),
            (List.length (fold_left (fun m c => set (@compare Z) (range c) c m) ts m)
             <= List.length m + List.length ts)%nat); [|apply (Hgen [])].
  induction ts as [|c ts IH]; intro m; simpl; [lia|].
  specialize (IH (set (@compare Z) (range c) c m)).
  assert (Hset : forall (k : Range Z) (v : RangeBinTree Node Z) m,
            (List.length (set (@compare Z) k v m) <= S (List.length m))%nat).
  { clear. intros k v m. induction m as [|[ak av] m IHm]; simpl; [lia|].
    destruct (compare ak k >? 0); [simpl; lia|].
    destruct (compare ak k =? 0); simpl; lia. }
  specialize (Hset (range c) c m). lia.
Qed.

(** Two children with one span: of the three children of the sample block
    the index keeps two, the statement in the place of the empty node before
    it, while [childCount] stays 3. *)
Lemma shared_span_child_dropped :
  map fst (children (createRangeBTreeNode None sharedSpanSyntax))
    = [NumberRange 1 4; NumberRange 5 8] /\
  map (fun e => type (node (snd e))) (children (createRangeBTreeNode None sharedSpanSyntax))
    = ["statement"%string; "comment"%string] /\
  childCount (node (createRangeBTreeNode None sharedSpanSyntax)) = 3.
Proof. repeat split; reflexivity. Qed.

(** X16. On an index that is in order at every level the lookup of the
    enclosing block returns: it neither runs on for ever nor reads a
    property of [undefined].  A node it returns comes from a node below the
    root whose category is ["block"], that has children and holds the range
    inside its own: that node itself, or its parent when [grabParentBlock] is
    set. *)
Theorem findEnclosingBlock_sound (tree : RangeBinTree Node Z) (rng : Range Z)
    (grabParentBlock : bool) :
  deepOk compareNumbers tree ->
  exists r,
    findEnclosingBlock tree rng grabParentBlock = Returned r /\
    forall b, r = Some b ->
      exists t, reaches tree t /\ type (node t) = "block"%string /\
                childCount (node t) <> 0 /\ inside rng (range t) = true /\
                blockAnswer grabParentBlock t = Some b.
Proof. apply findEnclosingBlock_reaches. Qed.

Lemma findEnclosingBlock_sound_witness :
  exists r,
    findEnclosingBlock nestedBlocks (NumberRange 3 4) true = Returned r /\
    forall b, r = Some b ->
      exists t, reaches nestedBlocks t /\ type (node t) = "block"%string /\
                childCount (node t) <> 0 /\ inside (NumberRange 3 4) (range t) = true /\
                blockAnswer true t = Some b.
Proof.
  apply (findEnclosingBlock_sound nestedBlocks (NumberRange 3 4) true).
  simpl. repeat split; repeat constructor; vm_compute; reflexivity.
Defined.

(** X17. On the index of a syntax tree the lookup always returns, and with
    [grabParentBlock] unset a node it returns is a block that lies below the
    root of the syntax tree, has children, and whose text holds the range:
    it starts at or before the start of the range and ends at or after its
    end. *)
Theorem findEnclosingBlock_on_built (root : SyntaxNode) (rng : Range Z)
    (grabParentBlock : bool) :
  exists r,
    findEnclosingBlock (createRangeBTreeNode None root) rng grabParentBlock
      = Returned r /\
    (grabParentBlock = false ->
     forall b, r = Some b ->
       exists up c,
         below root c /\ b = nodeOf up c /\ syntaxType c = "block"%string /\
         syntaxChildren c <> [] /\
         comparator rng (start rng) (startIndex c) >= 0 /\
         comparator rng (end_ rng) (endIndex c) <= 0).
Proof.
  destruct (@findEnclosingBlock_reaches (createRangeBTreeNode None root) rng
              grabParentBlock (built_deepOk root None)) as (r & Hr & Hb).
  exists r. split; [assumption|].
  intros -> b Er. destruct (Hb b Er) as (t & Ht & Hty & Hcc & Hin & Hans).
  destruct (@built_reaches root None t Ht) as (up & c & Hc & ->).
  destruct (createRangeBTreeNode_root up c) as [Hrange Hnode].
  exists up, c. split; [assumption|].
  unfold blockAnswer in Hans. rewrite Hnode in Hans, Hty, Hcc.
  split; [congruence|]. split; [exact Hty|]. split.
  - intro E. apply Hcc. simpl. now rewrite E.
  - rewrite Hrange in Hin. unfold inside in Hin. simpl in Hin.
    apply andb_true_iff in Hin. destruct Hin as [H1 H2].
    split; [apply Z.geb_le in H1; lia | now apply Z.leb_le in H2].
Qed.

Lemma findEnclosingBlock_on_built_witness :
  exists r,
    findEnclosingBlock (createRangeBTreeNode None nestedSyntax) (NumberRange 3 4) false
      = Returned r /\
    forall b, r = Some b ->
      exists up c,
        below nestedSyntax c /\ b = nodeOf up c /\ syntaxType c = "block"%string /\
        syntaxChildren c <> [] /\
        comparator (NumberRange 3 4) (start (NumberRange 3 4)) (startIndex c) >= 0 /\
        comparator (NumberRange 3 4) (end_ (NumberRange 3 4)) (endIndex c) <= 0.
Proof.
  destruct (findEnclosingBlock_on_built nestedSyntax (NumberRange 3 4) false)
    as (r & Hr & Hb).
  exists r. split; [assumption | now apply Hb].
Defined.

(* ================================================================== *)
(** ** Where a finding is placed, and what a batch publishes *)

Section PlacementFacts.
Local Open Scope string_scope.

(** [indexOf] answers the first position at which the snippet occurs. *)
Lemma indexOfFrom_first (text snip : string) :
  forall i, 0 <= i -> 0 <= indexOfFrom text snip i ->
  exists before after,
    text = before ++ snip ++ after /\
    indexOfFrom text snip i = i + Z.of_nat (String.length before) /\
    forall before' after',
      text = before' ++ snip ++ after' ->
      (String.length before <= String.length before')%nat.
Proof.
  induction text as [|c text IH]; intros i Hi Hr; cbn [indexOfFrom] in *.
  - destruct (String.prefix snip "") eqn:E; [|lia].
    destruct (prefix_split _ _ E) as (after & Ha).
    exists "", after. split; [exact Ha|]. split; [simpl; lia|].
    intros; simpl; lia.
  - destruct (String.prefix snip (String c text)) eqn:E.
    + destruct (prefix_split _ _ E) as (after & Ha).
      exists "", after. split; [exact Ha|]. split; [simpl; lia|].
      intros; simpl; lia.
    + destruct (IH (i + 1)) as (before & after & Ht & Hidx & Hmin); [lia | exact Hr |].
      exists (String c before), after.
      split; [simpl; now rewrite <- Ht|].
      split; [rewrite Hidx; simpl String.length; lia|].
      intros before' after' Hdec.
      destruct before' as [|c' before']; simpl in Hdec.
      * rewrite Hdec, prefix_append in E. discriminate.
      * injection Hdec as _ Hdec. simpl. apply le_n_S. now apply (Hmin before' after').
Qed.
End PlacementFacts.

(** X18. A finding that resolves is placed on the first occurrence of its
    snippet in the text of line [line - 1]: the range starts at the column
    where that occurrence starts and ends where it ends, on that line, and
    has the comparator of positions. *)
Theorem resolveRange_first_occurrence (doc : TextDocument) (result : AnalysisReport)
    (rng : Range Position) :
  resolveRange doc result = Some rng ->
  let l := reportLine (location result) - 1 in
  let snip := snippet (location result) in
  exists lineText before after,
    getLineText doc l = Some lineText /\
    lineText = (before ++ snip ++ after)%string /\
    (forall before' after',
       lineText = (before' ++ snip ++ after')%string ->
       (String.length before <= String.length before')%nat) /\
    rng = VSCodeRange
            (mkPosition l (Z.of_nat (String.length before)))
            (mkPosition l (Z.of_nat (String.length before) + Z.of_nat (String.length snip))).
Proof.
  intro H. cbv zeta. unfold resolveRange in H.
  set (l := reportLine (location result) - 1) in *.
  set (snip := snippet (location result)) in *.
  destruct (getLineText doc l) as [lineText|]; [|discriminate].
  destruct (Z.ltb_spec (indexOf lineText snip) 0) as [|Hge]; [discriminate|].
  destruct (@indexOfFrom_first lineText snip 0) as (before & after & Ht & Hidx & Hmin);
    [lia | exact Hge |].
  exists lineText, before, after.
  split; [reflexivity|]. split; [assumption|]. split; [assumption|].
  unfold indexOf in H. rewrite Hidx in H. simpl in H. now injection H as <-.
Qed.

Lemma resolveRange_first_occurrence_witness :
  exists lineText before after,
    getLineText sampleDoc 2 = Some lineText /\
    lineText = (before ++ "defgh" ++ after)%string /\
    (forall before' after',
       lineText = (before' ++ "defgh" ++ after')%string ->
       (String.length before <= String.length before')%nat) /\
    newRange = VSCodeRange
                 (mkPosition 2 (Z.of_nat (String.length before)))
                 (mkPosition 2 (Z.of_nat (String.length before)
                                + Z.of_nat (String.length "defgh"))).
Proof.
  apply (@resolveRange_first_occurrence sampleDoc newFinding newRange).
  reflexivity.
Defined.

(** X19. A batch for one document touches no other document: the trees, the
    published diagnostics and the stored results of every other identifier
    stay as they are.  For the document itself there is a tree afterwards
    and the results stored are those of the batch. *)
Theorem batch_frame (doc : TextDocument) (results : list AnalysisReport)
    (st : ExtState) (u : string) :
  u <> uri doc ->
  diagnosticsTree (resultsProcessor doc results st) u = diagnosticsTree st u /\
  golangDiagnosticCollection (resultsProcessor doc results st) u
    = golangDiagnosticCollection st u /\
  analysisResults (resultsProcessor doc results st) u = analysisResults st u /\
  diagnosticsTree (resultsProcessor doc results st) (uri doc) <> None /\
  analysisResults (resultsProcessor doc results st) (uri doc) = Some results.
Proof.
  intro Hu. apply String.eqb_neq in Hu.
  destruct (resultsProcessor_at doc results st u) as [Ht Hp].
  rewrite Hu in Ht, Hp.
  split; [assumption|]. split; [assumption|].
  split; [unfold resultsProcessor; simpl; rewrite uriSet_eq; now rewrite Hu|].
  split.
  - destruct (resultsProcessor_at doc results st (uri doc)) as [Hd _].
    rewrite String.eqb_refl in Hd. now rewrite Hd.
  - unfold resultsProcessor. simpl. rewrite uriSet_eq. now rewrite String.eqb_refl.
Qed.

Lemma batch_frame_witness :
  diagnosticsTree (resultsProcessor sampleDoc [newFinding] storedState)
    "file:///other.go"%string
  = diagnosticsTree storedState "file:///other.go"%string /\
  golangDiagnosticCollection (resultsProcessor sampleDoc [newFinding] storedState)
    "file:///other.go"%string
  = golangDiagnosticCollection storedState "file:///other.go"%string /\
  analysisResults (resultsProcessor sampleDoc [newFinding] storedState)
    "file:///other.go"%string
  = analysisResults storedState "file:///other.go"%string /\
  diagnosticsTree (resultsProcessor sampleDoc [newFinding] storedState) (uri sampleDoc)
  <> None /\
  analysisResults (resultsProcessor sampleDoc [newFinding] storedState) (uri sampleDoc)
  = Some [newFinding].
Proof.
  apply (@batch_frame sampleDoc [newFinding] storedState "file:///other.go"%string).
  discriminate.
Defined.

Section PublishedFacts.

Lemma evict_incl (found : list (Range Position * Diagnostic)) (t : DiagTree) e :
  In e (children (evictAll found t)) -> In e (children t).
Proof.
  unfold evictAll. revert t.
  induction found as [|p found IH]; intros t He; simpl in He; [assumption|].
  apply IH in He. now apply (@remove_incl _ _ t (fst p) e).
Qed.

Lemma resolved_diagnostics (doc : TextDocument) (results : list AnalysisReport) :
  Forall (fun p => diagRange (snd p) = (start (fst p), end_ (fst p)))
    (resolved doc results).
Proof.
  unfold resolved. induction results as [|r results IH]; simpl; [constructor|].
  destruct (resolveRange doc r) as [rng|] eqn:E; [|assumption].
  constructor; [|assumption]. simpl.
  destruct (resolveRange_some _ _ E) as [_ Hw].
  unfold vscodeRange. destruct (Z.leb_spec (comparePositions (start rng) (end_ rng)) 0);
    [reflexivity | lia].
Qed.

Lemma appliedBatch_ok (doc : TextDocument) (results : list AnalysisReport)
    (t : DiagTree) :
  diagnosticsOk t -> diagnosticsOk (appliedBatch (resolved doc results) t).
Proof.
  intros [H Hd].
  destruct (resolved_ranges doc results) as [Hcmp _].
  pose proof (evict_ok (resolved doc results) t H) as Hok.
  unfold appliedBatch. split.
  - rewrite addChildren_children. now apply (inserted_ok comparePositions_lawful).
  - rewrite addChildren_children. apply Forall_forall. intros e He.
    apply (inserted_In comparePositions_lawful e Hok Hcmp) in He.
    destruct He as [(l1 & p & l2 & Hf & -> & _)|[He _]].
    + pose proof (resolved_diagnostics doc results) as Hr.
      rewrite Forall_forall in Hr. simpl. apply Hr.
      rewrite Hf. apply in_or_app. right. now left.
    + rewrite Forall_forall in Hd. apply Hd. now apply evict_incl with (resolved doc results).
Qed.

Lemma published_sorted (m : TreeMap (Range Position) DiagTree) :
  childrenOk comparePositions m ->
  Forall (fun e => diagRange (node (snd e)) = (start (fst e), end_ (fst e))) m ->
  StronglySorted rangeBefore (map (@node Diagnostic Position) (values m)).
Proof.
  intros [Hs Hc _] Hd. unfold values. rewrite map_map.
  induction Hs as [|a m Hm IH Ha]; simpl; [constructor|].
  pose proof (Forall_inv Hc) as Hca. pose proof (Forall_inv Hd) as Hda.
  apply Forall_inv_tail in Hc. apply Forall_inv_tail in Hd.
  constructor; [now apply IH|].
  rewrite Forall_map. rewrite Forall_forall in *. intros e He.
  specialize (Ha e He). specialize (Hd e He).
  unfold rangeBefore, DiagTree in *. cbv beta in Hda, Hd. rewrite Hda, Hd. simpl.
  unfold keyBefore, compare in Ha. cbv beta in Hca. rewrite Hca in Ha.
  destruct (Z.eqb_spec (comparePositions (start (fst a)) (start (fst e))) 0) as [E0|N0];
    simpl in Ha.
  - right. now split.
  - left. assumption.
Qed.
End PublishedFacts.

(** X20. The callback keeps the diagnostics trees in order: when every
    stored tree has its children map in order and each diagnostic on the
    range it is stored under, so has every tree after a batch.  The
    diagnostics it publishes for the document are the children of its tree
    in strictly ascending order of their ranges, start first, so no two of
    them have the same range; the root is not among them. *)
Theorem batch_publishes_in_order (doc : TextDocument) (results : list AnalysisReport)
    (st : ExtState) :
  stateOk st ->
  stateOk (resultsProcessor doc results st) /\
  exists t published,
    diagnosticsTree (resultsProcessor doc results st) (uri doc) = Some t /\
    golangDiagnosticCollection (resultsProcessor doc results st) (uri doc)
      = Some published /\
    published = map (@node Diagnostic Position) (values (children t)) /\
    StronglySorted rangeBefore published.
Proof.
  intro Hst.
  assert (Ht : diagnosticsOk (treeOf st doc)).
  { unfold treeOf. destruct (diagnosticsTree st (uri doc)) as [t|] eqn:E.
    - now apply (Hst (uri doc)).
    - split; [split; constructor | constructor]. }
  pose proof (appliedBatch_ok doc results Ht) as Hdone.
  split.
  - intros u t Hu.
    destruct (resultsProcessor_at doc results st u) as [Htree _].
    rewrite Htree in Hu. destruct (String.eqb u (uri doc)).
    + injection Hu as <-. assumption.
    + now apply (Hst u).
  - destruct (resultsProcessor_at doc results st (uri doc)) as [Htree Hpub].
    rewrite String.eqb_refl in Htree, Hpub.
    eexists. eexists. split; [exact Htree|]. split; [exact Hpub|].
    split; [reflexivity|].
    destruct Hdone as [Hok Hd]. now apply published_sorted.
Qed.

Lemma batch_publishes_in_order_witness :
  stateOk (resultsProcessor sampleDoc [newFinding; lateFinding] storedState) /\
  exists t published,
    diagnosticsTree (resultsProcessor sampleDoc [newFinding; lateFinding] storedState)
      (uri sampleDoc) = Some t /\
    golangDiagnosticCollection
      (resultsProcessor sampleDoc [newFinding; lateFinding] storedState)
      (uri sampleDoc) = Some published /\
    published = map (@node Diagnostic Position) (values (children t)) /\
    StronglySorted rangeBefore published.
Proof.
  apply (@batch_publishes_in_order sampleDoc [newFinding; lateFinding] storedState).
  intros u t. unfold storedState. simpl. rewrite uriSet_eq.
  destruct (String.eqb u "file:///main.go"%string); [|discriminate].
  intro E. injection E as <-.
  split; [solve_childrenOk | repeat constructor].
Defined.

(* ================================================================== *)
(** ** The reply of the model *)

Section ReplyFacts.
Local Open Scope string_scope.

Lemma length_append (a b : string) :
  String.length (a ++ b) = (String.length a + String.length b)%nat.
Proof. induction a as [|c a IH]; simpl; [reflexivity | now rewrite IH]. Qed.

Lemma append_assoc (a b c : string) : (a ++ b) ++ c = a ++ b ++ c.
Proof. induction a as [|x a IH]; simpl; [reflexivity | now rewrite IH]. Qed.

Lemma append_empty_r (a : string) : a ++ "" = a.
Proof. induction a as [|x a IH]; simpl; [reflexivity | now rewrite IH]. Qed.

Lemma occursIn_trans (a b c : string) : occursIn a b -> occursIn b c -> occursIn a c.
Proof.
  intros (p & q & ->) (p' & q' & ->).
  exists (p' ++ p), (q ++ q'). now rewrite !append_assoc.
Qed.

Lemma occursIn_length (a b : string) :
  occursIn a b -> (String.length a <= String.length b)%nat.
Proof. intros (p & q & ->). rewrite !length_append. lia. Qed.

Lemma drop_occurs (n : nat) (s : string) : exists p, s = p ++ JsString.drop n s.
Proof.
  revert s. induction n as [|n IH]; intro s; [now exists ""|].
  destruct s as [|c s]; [now exists ""|].
  destruct (IH s) as (p & Hp). exists (String c p). simpl. now rewrite <- Hp.
Qed.

Lemma take_occurs (n : nat) (s : string) : exists q, s = JsString.take n s ++ q.
Proof.
  revert s. induction n as [|n IH]; intro s; [now exists s|].
  destruct s as [|c s]; [now exists ""|].
  destruct (IH s) as (q & Hq). exists q. simpl. now rewrite <- Hq.
Qed.

Lemma substring_occurs (s : string) (a b : Z) : occursIn (JsString.substring s a b) s.
Proof.
  unfold JsString.substring.
  set (lo := Nat.min _ _). set (len := (_ - _)%nat).
  destruct (drop_occurs lo s) as (p & Hp).
  destruct (take_occurs len (JsString.drop lo s)) as (q & Hq).
  exists p, q. now rewrite <- Hq.
Qed.

Lemma trimStart_occurs (s : string) : exists p, s = p ++ JsString.trimStart s.
Proof.
  induction s as [|c s (p & Hp)]; [now exists ""|]. simpl.
  destruct (JsString.isWhiteSpace c); [|now exists ""].
  exists (String c p). simpl. now rewrite <- Hp.
Qed.

Lemma trimEnd_occurs (s : string) : exists q, s = JsString.trimEnd s ++ q.
Proof.
  induction s as [|c s (q & Hq)]; [now exists ""|]. simpl.
  destruct (JsString.trimEnd s) as [|c' t].
  - destruct (JsString.isWhiteSpace c).
    + now exists (String c s).
    + exists q. simpl. simpl in Hq. now rewrite <- Hq.
  - exists q. simpl. simpl in Hq. now rewrite <- Hq.
Qed.

Lemma trim_occurs (s : string) : occursIn (JsString.trim s) s.
Proof.
  unfold JsString.trim.
  destruct (trimStart_occurs s) as (p & Hp).
  destruct (trimEnd_occurs (JsString.trimStart s)) as (q & Hq).
  exists p, q. now rewrite <- Hq.
Qed.

Lemma trimStart_clean (s : string) : startsClean (JsString.trimStart s).
Proof.
  induction s as [|c s IH]; simpl; [exact I|].
  destruct (JsString.isWhiteSpace c) eqn:E; [assumption | exact E].
Qed.

Lemma trimStart_fixed (s : string) : startsClean s -> JsString.trimStart s = s.
Proof. destruct s as [|c s]; simpl; [reflexivity | now intros ->]. Qed.

Lemma trimStart_white (w x : string) :
  JsString.trimStart w = "" -> JsString.trimStart (w ++ x) = JsString.trimStart x.
Proof.
  induction w as [|c w IH]; simpl; [reflexivity|].
  destruct (JsString.isWhiteSpace c); [assumption | discriminate].
Qed.

Lemma trimEnd_clean (s : string) : startsClean s -> startsClean (JsString.trimEnd s).
Proof.
  destruct s as [|c s]; simpl; [trivial|]. intro Hc.
  destruct (JsString.trimEnd s); [rewrite Hc|]; exact Hc.
Qed.

Lemma take_clean (n : nat) (s : string) : startsClean s -> startsClean (JsString.take n s).
Proof. destruct n, s; simpl; trivial. Qed.

Lemma trimEnd_cons (c : ascii) (s : string) :
  JsString.isWhiteSpace c = false ->
  JsString.trimEnd (String c s) = String c (JsString.trimEnd s).
Proof. intro Hc. simpl. rewrite Hc. now destruct (JsString.trimEnd s). Qed.

Lemma trimEnd_append (a b : string) :
  JsString.trimEnd b <> "" -> JsString.trimEnd (a ++ b) = a ++ JsString.trimEnd b.
Proof.
  intro Hb. induction a as [|c a IH]; simpl; [reflexivity|].
  rewrite IH. destruct (a ++ JsString.trimEnd b) eqn:E; [|reflexivity].
  destruct a; simpl in E; [contradiction | discriminate].
Qed.

Lemma drop_append (a b : string) : JsString.drop (String.length a) (a ++ b) = b.
Proof. induction a as [|c a IH]; simpl; [now destruct b | assumption]. Qed.

Lemma take_append (a b : string) : JsString.take (String.length a) (a ++ b) = a.
Proof. induction a as [|c a IH]; simpl; [now destruct b | now rewrite IH]. Qed.

Lemma take_all (s : string) : JsString.take (String.length s) s = s.
Proof. induction s as [|c s IH]; simpl; [reflexivity | now rewrite IH]. Qed.

Lemma clampIndex_inside (s : string) (n : nat) :
  (n <= String.length s)%nat -> JsString.clampIndex s (Z.of_nat n) = n.
Proof. intro H. unfold JsString.clampIndex. lia. Qed.

Lemma clampIndex_negative (s : string) (i : Z) :
  i <= 0 -> JsString.clampIndex s i = O.
Proof. intro H. unfold JsString.clampIndex. lia. Qed.

Lemma substring_zero (s : string) (b : Z) :
  JsString.substring s 0 b = JsString.take (JsString.clampIndex s b) s.
Proof.
  unfold JsString.substring. rewrite (clampIndex_negative s (i := 0)) by lia.
  simpl. rewrite Nat.sub_0_r. now destruct s.
Qed.

Lemma substring_rest (a b : string) :
  JsString.substringFrom (a ++ b) (Z.of_nat (String.length a)) = b.
Proof.
  unfold JsString.substringFrom, JsString.substring.
  rewrite !clampIndex_inside by (rewrite length_append; lia).
  rewrite length_append.
  rewrite Nat.min_l, Nat.max_r by lia.
  rewrite drop_append.
  replace (String.length a + String.length b - String.length a)%nat
    with (String.length b) by lia.
  apply take_all.
Qed.

(** A text without a backtick is skipped by the search for a fence. *)
Lemma indexOfFrom_skip (pre tail x : string) :
  ~ occursIn "`" pre ->
  forall i,
    indexOfFrom (pre ++ String "`" tail ++ x) (String "`" tail) i
    = i + Z.of_nat (String.length pre).
Proof.
  induction pre as [|c pre IH]; intros Hno i; cbn [indexOfFrom append].
  - change (String "`" (tail ++ x)) with (String "`" tail ++ x).
    rewrite prefix_append. simpl. lia.
  - assert (Hc : c <> "`"%char).
    { intros ->. apply Hno. now exists "", pre. }
    assert (Hpre : ~ occursIn "`" pre).
    { intros (p & q & ->). apply Hno. now exists (String c p), q. }
    cbn [String.prefix]. destruct (ascii_dec "`" c) as [E|_]; [now subst|].
    rewrite (IH Hpre). simpl String.length. lia.
Qed.

Lemma fence_in_json (s : string) : occursIn "```json" s -> occursIn "```" s.
Proof.
  intros (p & q & ->). exists p, ("json" ++ q). reflexivity.
Qed.

Lemma indexOf_found (text snip : string) :
  0 <= indexOf text snip -> occursIn snip text.
Proof.
  intro H. destruct (@indexOfFrom_first text snip 0) as (b & a & Ht & _);
    [lia | exact H |]. now exists b, a.
Qed.

(** The callback on a reply whose first backtick opens a fence. *)
Lemma responseJson_json (pre rest : string) :
  ~ occursIn "`" pre ->
  responseJson (pre ++ "```json" ++ rest) =
  if (String.length pre + String.length rest =? 0)%nat then None
  else Some (JsString.substring (JsString.trim rest) 0
               (indexOf (JsString.trim rest) "```")).
Proof.
  intro Hno. unfold responseJson.
  assert (H1 : indexOf (pre ++ "```json" ++ rest) "```json"
               = Z.of_nat (String.length pre)).
  { unfold indexOf. now rewrite (indexOfFrom_skip "``json" rest Hno). }
  rewrite H1.
  assert (Hge : (Z.of_nat (String.length pre) >=? 0) = true)
    by (apply Z.geb_le; lia).
  rewrite Hge. cbv iota. rewrite Hge.
  rewrite length_append. simpl String.length at 1.
  replace (pre ++ "```json" ++ rest) with ((pre ++ "```json") ++ rest)
    by apply append_assoc.
  replace (Z.of_nat (String.length pre) + 7)
    with (Z.of_nat (String.length (pre ++ "```json")))
    by (rewrite length_append; simpl String.length; lia).
  rewrite substring_rest.
  destruct (Nat.eqb_spec (String.length pre + String.length rest) 0) as [E|N];
    simpl andb.
  - destruct (Z.gtb_spec (Z.of_nat (String.length pre + S (S (S (S (S (S (S (String.length rest))))))))) 7);
      [lia | reflexivity].
  - destruct (Z.gtb_spec (Z.of_nat (String.length pre + S (S (S (S (S (S (S (String.length rest))))))))) 7);
      [reflexivity | lia].
Qed.

Lemma responseJson_plain (pre rest : string) :
  ~ occursIn "`" pre ->
  ~ occursIn "```json" (pre ++ "```" ++ rest) ->
  responseJson (pre ++ "```" ++ rest) =
  if (String.length pre + String.length rest =? 0)%nat then None
  else Some (JsString.substring (JsString.trim rest) 0
               (indexOf (JsString.trim rest) "```")).
Proof.
  intros Hno Hnj. unfold responseJson.
  apply indexOf_negative in Hnj.
  assert (H2 : indexOf (pre ++ "```" ++ rest) "```" = Z.of_nat (String.length pre)).
  { unfold indexOf. now rewrite (indexOfFrom_skip "``" rest Hno). }
  rewrite H2.
  destruct (Z.geb_spec (indexOf (pre ++ "```" ++ rest) "```json") 0) as [|_]; [lia|].
  assert (Hge : (Z.of_nat (String.length pre) >=? 0) = true)
    by (apply Z.geb_le; lia).
  rewrite Hge.
  rewrite length_append. simpl String.length at 1.
  replace (pre ++ "```" ++ rest) with ((pre ++ "```") ++ rest)
    by apply append_assoc.
  replace (Z.of_nat (String.length pre) + 3)
    with (Z.of_nat (String.length (pre ++ "```")))
    by (rewrite length_append; simpl String.length; lia).
  rewrite substring_rest.
  destruct (Nat.eqb_spec (String.length pre + String.length rest) 0) as [E|N];
    simpl andb.
  - destruct (Z.gtb_spec (Z.of_nat (String.length pre + S (S (S (String.length rest))))) 3);
      [lia | reflexivity].
  - destruct (Z.gtb_spec (Z.of_nat (String.length pre + S (S (S (String.length rest))))) 3);
      [reflexivity | lia].
Qed.

(** The text up to the closing fence. *)
Lemma closed_body (w body post : string) :
  JsString.trimStart w = "" -> startsClean body -> ~ occursIn "`" body ->
  JsString.substring (JsString.trim (w ++ body ++ "```" ++ post)) 0
    (indexOf (JsString.trim (w ++ body ++ "```" ++ post)) "```") = body.
Proof.
  intros Hw Hclean Hno.
  assert (Hstr : JsString.trim (w ++ body ++ "```" ++ post)
                 = body ++ "```" ++ JsString.trimEnd post).
  { unfold JsString.trim. rewrite trimStart_white by exact Hw.
    rewrite trimStart_fixed by (destruct body; [reflexivity | exact Hclean]).
    rewrite trimEnd_append.
    - f_equal. cbn [append]. now rewrite !trimEnd_cons by reflexivity.
    - cbn [append]. rewrite trimEnd_cons by reflexivity. discriminate. }
  rewrite Hstr. unfold indexOf.
  rewrite (indexOfFrom_skip "``" (JsString.trimEnd post) Hno). simpl Z.add.
  rewrite substring_zero, clampIndex_inside by (rewrite length_append; lia).
  apply take_append.
Qed.

(** The text when the fence is not closed. *)
Lemma unclosed_body (rest : string) :
  ~ occursIn "```" rest ->
  JsString.substring (JsString.trim rest) 0 (indexOf (JsString.trim rest) "```") = "".
Proof.
  intro Hno.
  assert (Hneg : indexOf (JsString.trim rest) "```" < 0).
  { apply indexOf_negative. intro Hocc. apply Hno.
    apply occursIn_trans with (JsString.trim rest); [assumption | apply trim_occurs]. }
  rewrite substring_zero, clampIndex_negative by lia. now destruct (JsString.trim rest).
Qed.
End ReplyFacts.

(** X21. The callback hands nothing to [JSON.parse] exactly when the reply
    has no run of three backticks, or is nothing but an opening fence, with
    or without the tag [json]. *)
Theorem responseJson_none_iff (analysisResponse : string) :
  responseJson analysisResponse = None <->
  ~ occursIn "```" analysisResponse \/
  analysisResponse = "```"%string \/ analysisResponse = "```json"%string.
Proof.
  split.
  - unfold responseJson.
    destruct (Z.geb_spec (indexOf analysisResponse "```json") 0) as [H1|H1].
    + destruct (Z.geb_spec (indexOf analysisResponse "```json") 0) as [_|]; [|lia].
      destruct (Z.gtb_spec (Z.of_nat (String.length analysisResponse)) 7) as [|Hlen];
        [discriminate|].
      intros _. right. right.
      destruct (indexOf_found _ _ H1) as (p & q & ->).
      rewrite !length_append in Hlen. simpl String.length in Hlen.
      destruct p; [|simpl in Hlen; lia]. destruct q; [reflexivity | simpl in Hlen; lia].
    + destruct (Z.geb_spec (indexOf analysisResponse "```") 0) as [H2|H2].
      * destruct (Z.gtb_spec (Z.of_nat (String.length analysisResponse)) 3) as [|Hlen];
          [discriminate|].
        intros _. right. left.
        destruct (indexOf_found _ _ H2) as (p & q & ->).
        rewrite !length_append in Hlen. simpl String.length in Hlen.
        destruct p; [|simpl in Hlen; lia].
        destruct q; [reflexivity | simpl in Hlen; lia].
      * intros _. left. now apply indexOf_negative.
  - intros [Hno | [ -> | -> ]]; [|reflexivity|reflexivity].
    unfold responseJson.
    assert (H2 : indexOf analysisResponse "```" < 0) by now apply indexOf_negative.
    assert (H1 : indexOf analysisResponse "```json" < 0).
    { apply indexOf_negative. intro Hj. apply Hno. now apply fence_in_json. }
    destruct (Z.geb_spec (indexOf analysisResponse "```json") 0); [lia|].
    destruct (Z.geb_spec (indexOf analysisResponse "```") 0); [lia | reflexivity].
Qed.

(** X22. Whatever the reply, the text handed to [JSON.parse] is a
    contiguous part of the reply that holds no run of three backticks and
    does not begin with white space. *)
Theorem responseJson_sound (analysisResponse str : string) :
  responseJson analysisResponse = Some str ->
  occursIn str analysisResponse /\ ~ occursIn "```" str /\ startsClean str.
Proof.
  unfold responseJson.
  set (k := (if indexOf analysisResponse "```json" >=? 0
             then indexOf analysisResponse "```json"
             else indexOf analysisResponse "```")
            + (if indexOf analysisResponse "```json" >=? 0 then 7 else 3)).
  destruct (_ && _); [|discriminate].
  set (t := JsString.trim (JsString.substringFrom analysisResponse k)).
  intro E. injection E as <-.
  split; [|split].
  - apply occursIn_trans with t; [apply substring_occurs|].
    apply occursIn_trans with (JsString.substringFrom analysisResponse k);
      [apply trim_occurs | apply substring_occurs].
  - destruct (Z.ltb_spec (indexOf t "```") 0) as [Hneg|Hpos].
    + rewrite substring_zero, clampIndex_negative by lia.
      intro Hocc. apply occursIn_length in Hocc. destruct t; simpl in Hocc; lia.
    + destruct (@indexOfFrom_first t "```" 0) as (b & a & Ht & Hidx & Hmin);
        [lia | exact Hpos |].
      unfold indexOf. rewrite Hidx. simpl Z.add.
      rewrite substring_zero, clampIndex_inside
        by (rewrite Ht, length_append; lia).
      rewrite Ht, take_append.
      intros (b1 & b2 & Hb).
      specialize (Hmin b1 (b2 ++ "```" ++ a)%string).
      rewrite Hb, !length_append in Hmin. simpl String.length in Hmin.
      assert (Hdec : t = (b1 ++ "```" ++ b2 ++ "```" ++ a)%string)
        by (rewrite Ht, Hb; now rewrite !append_assoc).
      specialize (Hmin Hdec). lia.
  - rewrite substring_zero. apply take_clean. unfold t, JsString.trim.
    apply trimEnd_clean, trimStart_clean.
Qed.

Lemma responseJson_sound_witness :
  occursIn "[1]" "Here: ```json [1]``` done" /\ ~ occursIn "```" "[1]" /\
  startsClean "[1]".
Proof.
  apply (@responseJson_sound "Here: ```json [1]``` done" "[1]").
  reflexivity.
Defined.

(** X23. A fenced text comes back: when the reply has no backtick before
    the opening fence, and the fence holds white space and then a text that
    has no backtick and does not begin with white space, the text handed to
    [JSON.parse] is that text, whatever follows the closing fence.  The same
    holds for a fence without the tag when [```json] occurs nowhere in the
    reply. *)
Theorem responseJson_fenced (pre w body post : string) :
  ~ occursIn "`" pre -> JsString.trimStart w = ""%string ->
  startsClean body -> ~ occursIn "`" body ->
  responseJson (pre ++ "```json" ++ w ++ body ++ "```" ++ post) = Some body /\
  (~ occursIn "```json" (pre ++ "```" ++ w ++ body ++ "```" ++ post) ->
   responseJson (pre ++ "```" ++ w ++ body ++ "```" ++ post) = Some body).
Proof.
  intros Hpre Hw Hclean Hbody.
  assert (Hlen : (String.length pre
                  + String.length (w ++ body ++ "```" ++ post) =? 0)%nat = false).
  { apply Nat.eqb_neq. rewrite !length_append. simpl String.length. lia. }
  split; [|intro Hnj].
  - rewrite (@responseJson_json pre _ Hpre), Hlen.
    now rewrite (@closed_body w body post Hw Hclean Hbody).
  - rewrite (@responseJson_plain pre _ Hpre Hnj), Hlen.
    now rewrite (@closed_body w body post Hw Hclean Hbody).
Qed.

Lemma responseJson_fenced_witness :
  responseJson "Found: ```json  [{}]``` and more" = Some "[{}]"%string.
Proof.
  refine (proj1 (@responseJson_fenced "Found: " "  " "[{}]" " and more" _ _ _ _)).
  - intros (p & q & H). destruct p as [|c0 [|c1 [|c2 [|c3 [|c4 [|c5 [|c6 [|c7 p]]]]]]]];
      discriminate.
  - reflexivity.
  - reflexivity.
  - intros (p & q & H). destruct p as [|c0 [|c1 [|c2 [|c3 [|c4 p]]]]]; discriminate.
Defined.

(** X24. A fence that is not closed yields the empty text, on which
    [JSON.parse] throws: when the reply has no backtick before the opening
    fence and no run of three backticks after it, and is more than the
    fence, the text handed to [JSON.parse] is empty, whatever the fence
    holds. *)
Theorem responseJson_unclosed (pre rest : string) :
  ~ occursIn "`" pre -> ~ occursIn "```" rest ->
  (pre ++ rest)%string <> ""%string ->
  responseJson (pre ++ "```json" ++ rest) = Some ""%string /\
  (~ occursIn "```json" (pre ++ "```" ++ rest) ->
   responseJson (pre ++ "```" ++ rest) = Some ""%string).
Proof.
  intros Hpre Hrest Hne.
  assert (Hlen : (String.length pre + String.length rest =? 0)%nat = false).
  { apply Nat.eqb_neq. intro E. apply Hne.
    destruct pre; [|simpl in E; lia]. destruct rest; [reflexivity | simpl in E; lia]. }
  split; [|intro Hnj].
  - rewrite (@responseJson_json pre _ Hpre), Hlen. now rewrite (@unclosed_body rest Hrest).
  - rewrite (@responseJson_plain pre _ Hpre Hnj), Hlen. now rewrite (@unclosed_body rest Hrest).
Qed.

Lemma responseJson_unclosed_witness :
  responseJson "```json[{}]" = Some ""%string.
Proof.
  refine (proj1 (@responseJson_unclosed "" "[{}]" _ _ _)).
  - intros (p & q & H). destruct p; discriminate.
  - intros (p & q & H). destruct p as [|c0 [|c1 [|c2 [|c3 [|c4 p]]]]]; discriminate.
  - discriminate.
Defined.

(* ================================================================== *)
(** ** One analysis at a time *)

Section RequestFacts.
Variable parse : string -> option (list AnalysisReport).

Lemma removeNth_split (A : Type) (n : nat) (l : list A) (x : A) :
  nth_error l n = Some x ->
  exists l1 l2, l = l1 ++ x :: l2 /\ removeNth n l = l1 ++ l2.
Proof.
  revert l. induction n as [|n IH]; intros [|y l] H; simpl in H; try discriminate.
  - injection H as ->. now exists [], l.
  - destruct (IH l H) as (l1 & l2 & -> & Hr).
    exists (y :: l1), l2. simpl. now rewrite Hr.
Qed.

Lemma handleReply_frame (doc : TextDocument) (reply : option string)
    (st : ExtState) (u : string) :
  u <> uri doc ->
  diagnosticsTree (handleReply parse doc reply st) u = diagnosticsTree st u /\
  golangDiagnosticCollection (handleReply parse doc reply st) u
  = golangDiagnosticCollection st u.
Proof.
  intro Hu. apply String.eqb_neq in Hu. unfold handleReply.
  destruct reply as [r|]; [|now split].
  destruct (responseJson r) as [str|]; [|now split].
  destruct (parse str) as [results|]; [|now split].
  destruct (resultsProcessor_at doc results st u) as [Ht Hp].
  rewrite Hu in Ht, Hp. now split.
Qed.

(** A session after a call of [checkCode] that went ahead. *)
Lemma ok_after_check (s : Session) (doc : TextDocument) (e' : ExtState)
    (flags : UriMap bool) (sent : list TextDocument) :
  sessionOk s -> doneFlags s (uri doc) <> Some false ->
  (forall u, u <> uri doc -> flags u = doneFlags s u) ->
  flags (uri doc) = Some false ->
  sent = [] \/ sent = [doc] ->
  sessionOk (mkSession e' flags (pending s ++ sent)).
Proof.
  intros Hs Hfree Hflags Hdoc Hsent u.
  destruct (Hs u) as [Hlen Hflag]. unfold pendingFor in *. simpl.
  rewrite filter_app.
  destruct (String.eqb_spec u (uri doc)) as [->|Hu].
  - assert (Hnone : filter (fun d => String.eqb (uri d) (uri doc)) (pending s) = []).
    { destruct (filter _ (pending s)) eqn:E; [reflexivity|].
      exfalso. apply Hfree. apply (proj2 (Hs (uri doc))).
      unfold pendingFor. rewrite E. discriminate. }
    rewrite Hnone. split; [|intros _; exact Hdoc].
    destruct Hsent as [->| ->]; simpl; [lia|].
    destruct (String.eqb (uri doc) (uri doc)); simpl; lia.
  - assert (Hout : filter (fun d => String.eqb (uri d) u) sent = []).
    { destruct Hsent as [->| ->]; simpl; [reflexivity|].
      destruct (String.eqb_spec (uri doc) u); [congruence | reflexivity]. }
    rewrite Hout, app_nil_r. split; [assumption|].
    intro Hne. rewrite (Hflags u Hu). now apply Hflag.
Qed.

Lemma checkCode_ok (doc : TextDocument) (model : option string) (s : Session) :
  sessionOk s -> sessionOk (checkCode doc model s).
Proof.
  intro Hs. unfold checkCode.
  destruct (doneFlags s (uri doc)) as [[|]|] eqn:Ef; cbn [doneFlags ext pending].
  - rewrite Ef.
    destruct (modelMissing model);
      [rewrite <- (app_nil_r (pending s)) | ];
      apply ok_after_check with (doc := doc); try assumption; try congruence; auto;
      try (rewrite uriSet_eq; now rewrite String.eqb_refl);
      intros u Hu; rewrite uriSet_eq; apply String.eqb_neq in Hu; now rewrite Hu.
  - rewrite Ef. assumption.
  - rewrite uriSet_eq, String.eqb_refl.
    destruct (modelMissing model);
      [rewrite <- (app_nil_r (pending s)) | ];
      apply ok_after_check with (doc := doc); try assumption; try congruence; auto;
      try (rewrite uriSet_eq; now rewrite String.eqb_refl);
      intros u Hu; rewrite !uriSet_eq; apply String.eqb_neq in Hu; now rewrite Hu.
Qed.

Lemma settle_ok (n : nat) (reply : option string) (s : Session) :
  sessionOk s -> sessionOk (settle parse n reply s).
Proof.
  intro Hs. unfold settle.
  destruct (nth_error (pending s) n) as [d|] eqn:E; [|assumption].
  destruct (removeNth_split _ _ E) as (l1 & l2 & Hp & Hr).
  intro u. destruct (Hs u) as [Hlen Hflag].
  unfold pendingFor in *. simpl. rewrite Hr. rewrite Hp in Hlen, Hflag.
  rewrite filter_app in *. simpl in Hlen, Hflag.
  destruct (String.eqb_spec (uri d) u) as [Hd|Hd].
  - rewrite length_app in Hlen. simpl in Hlen.
    assert (H1 : filter (fun doc => String.eqb (uri doc) u) l1 = [])
      by (destruct (filter _ l1); [reflexivity | simpl in Hlen; lia]).
    assert (H2 : filter (fun doc => String.eqb (uri doc) u) l2 = [])
      by (destruct (filter _ l2); [reflexivity | simpl in Hlen; lia]).
    rewrite H1, H2. split; [simpl; lia | intro Hne; now contradiction Hne].
  - split; [assumption|]. intro Hne. rewrite uriSet_eq.
    destruct (String.eqb_spec u (uri d)); [congruence | now apply Hflag].
Qed.

Lemma run_ok (events : list Event) (s : Session) :
  sessionOk s -> sessionOk (run parse events s).
Proof.
  unfold run. revert s. induction events as [|e events IH]; intros s Hs; simpl;
    [assumption|].
  apply IH. destruct e; [now apply checkCode_ok | now apply settle_ok].
Qed.

(** [checkCode] for a document whose flag is unset does nothing. *)
Lemma checkCode_dropped (doc : TextDocument) (model : option string) (s : Session) :
  doneFlags s (uri doc) = Some false -> checkCode doc model s = s.
Proof. intro H. unfold checkCode. now rewrite H, H. Qed.

(** A document that is locked out stays so, and nothing is published for
    it. *)
Lemma lockedOut_step (u : string) (s : Session) (e : Event) :
  lockedOut u s ->
  lockedOut u (step parse s e) /\
  diagnosticsTree (ext (step parse s e)) u = diagnosticsTree (ext s) u /\
  golangDiagnosticCollection (ext (step parse s e)) u
  = golangDiagnosticCollection (ext s) u.
Proof.
  intros [Hflag Hnone]. destruct e as [doc model|n reply]; simpl.
  - destruct (String.eqb_spec (uri doc) u) as [<-|Hu].
    + rewrite (checkCode_dropped doc model s Hflag). now repeat split.
    + assert (Hu' : String.eqb u (uri doc) = false)
        by (apply String.eqb_neq; congruence).
      assert (Hd : String.eqb (uri doc) u = false) by now apply String.eqb_neq.
      unfold checkCode, lockedOut, pendingFor in *.
      destruct (doneFlags s (uri doc)) as [[|]|] eqn:Ef; cbn [doneFlags ext pending];
        rewrite ?Ef, ?uriSet_eq, ?String.eqb_refl;
        try destruct (modelMissing model); simpl;
        rewrite ?uriSet_eq, ?Hu', ?filter_app; simpl; rewrite ?Hd, ?Hnone;
        now repeat split.
  - unfold settle. destruct (nth_error (pending s) n) as [d|] eqn:E;
      [|now repeat split].
    destruct (removeNth_split _ _ E) as (l1 & l2 & Hp & Hr).
    unfold lockedOut, pendingFor in *. simpl. rewrite Hr. rewrite Hp in Hnone.
    rewrite filter_app in *. simpl in Hnone.
    destruct (String.eqb_spec (uri d) u) as [Hd|Hd].
    + destruct (filter _ l1); discriminate.
    + apply app_eq_nil in Hnone. destruct Hnone as [-> ->].
      assert (Hu : u <> uri d) by congruence.
      destruct (handleReply_frame d reply (ext s) Hu) as [Ht Hg].
      rewrite uriSet_eq. apply String.eqb_neq in Hu. rewrite Hu.
      now repeat split.
Qed.

Lemma lockedOut_run (u : string) (events : list Event) (s : Session) :
  lockedOut u s ->
  lockedOut u (run parse events s) /\
  diagnosticsTree (ext (run parse events s)) u = diagnosticsTree (ext s) u /\
  golangDiagnosticCollection (ext (run parse events s)) u
  = golangDiagnosticCollection (ext s) u.
Proof.
  unfold run. revert s. induction events as [|e events IH]; intros s Hs; simpl;
    [split; [assumption | now split]|].
  destruct (lockedOut_step e Hs) as (Hl & Ht & Hg).
  destruct (IH _ Hl) as (Hl' & Ht' & Hg').
  split; [assumption|]. split; congruence.
Qed.
End RequestFacts.

(** X25. One analysis at a time: in a session that starts with no request
    pending, whatever calls of [checkCode] and replies follow, no document
    ever has more than one request pending, its [done] flag is unset while
    it has one, and a call of [checkCode] for it during that time changes
    nothing: the text it was called with is not analysed. *)
Theorem one_request_per_document (parse : string -> option (list AnalysisReport))
    (events : list Event) (s : Session) :
  sessionOk s ->
  let s' := run parse events s in
  sessionOk s' /\
  forall doc model,
    pendingFor (uri doc) s' <> [] -> checkCode doc model s' = s'.
Proof.
  intros Hs s'. pose proof (run_ok parse events Hs) as Hok. fold s' in Hok.
  split; [assumption|].
  intros doc model Hp. apply checkCode_dropped. now apply (proj2 (Hok (uri doc))).
Qed.

Lemma one_request_per_document_witness :
  let s' := run (fun _ => None)
              [Checked sampleDoc (Some "qwen3:1.7b"%string);
               Checked sampleDoc (Some "qwen3:1.7b"%string)] newSession in
  sessionOk s' /\
  forall doc model,
    pendingFor (uri doc) s' <> [] -> checkCode doc model s' = s'.
Proof.
  apply (@one_request_per_document (fun _ => None)
           [Checked sampleDoc (Some "qwen3:1.7b"%string);
            Checked sampleDoc (Some "qwen3:1.7b"%string)] newSession).
  intro u. split; [simpl; lia | intro H; now contradiction H].
Defined.

(** X26. A call of [checkCode] while the setting [aiInspection.model] is
    missing or empty locks the document out: the flag is unset, no request
    is sent and nothing will set the flag again.  Whatever happens
    afterwards, every later call of [checkCode] for the document does
    nothing, also once the setting is there, and its tree and its published
    diagnostics stay as they were. *)
Theorem missing_model_locks_out (parse : string -> option (list AnalysisReport))
    (doc : TextDocument) (model : option string) (s : Session)
    (events : list Event) :
  sessionOk s -> modelMissing model = true ->
  doneFlags s (uri doc) <> Some false ->
  let s' := run parse events (checkCode doc model s) in
  lockedOut (uri doc) s' /\
  (forall doc' model', uri doc' = uri doc -> checkCode doc' model' s' = s') /\
  diagnosticsTree (ext s') (uri doc) = diagnosticsTree (ext s) (uri doc) /\
  golangDiagnosticCollection (ext s') (uri doc)
  = golangDiagnosticCollection (ext s) (uri doc).
Proof.
  intros Hs Hm Hfree s'.
  assert (Hnone : pendingFor (uri doc) s = []).
  { destruct (pendingFor (uri doc) s) eqn:E; [reflexivity|].
    exfalso. apply Hfree. apply (proj2 (Hs (uri doc))). rewrite E. discriminate. }
  assert (Hstart : lockedOut (uri doc) (checkCode doc model s) /\
                   diagnosticsTree (ext (checkCode doc model s)) (uri doc)
                   = diagnosticsTree (ext s) (uri doc) /\
                   golangDiagnosticCollection (ext (checkCode doc model s)) (uri doc)
                   = golangDiagnosticCollection (ext s) (uri doc)).
  { unfold checkCode, lockedOut, pendingFor in *.
    destruct (doneFlags s (uri doc)) as [[|]|] eqn:Ef; cbn [doneFlags ext pending];
      [| congruence |];
      rewrite ?Ef, ?uriSet_eq, ?String.eqb_refl, Hm; simpl;
      rewrite ?uriSet_eq, ?String.eqb_refl; now repeat split. }
  destruct Hstart as (Hl & Ht & Hg).
  destruct (lockedOut_run parse events Hl) as (Hl' & Ht' & Hg'). fold s' in Hl', Ht', Hg'.
  split; [assumption|]. split; [|split; congruence].
  intros doc' model' Hu. apply checkCode_dropped. rewrite Hu. apply Hl'.
Qed.

Lemma missing_model_locks_out_witness :
  let s' := run (fun _ => None)
              [Checked sampleDoc (Some "qwen3:1.7b"%string); Settled 0 None]
              (checkCode sampleDoc (Some ""%string) newSession) in
  lockedOut (uri sampleDoc) s' /\
  (forall doc' model', uri doc' = uri sampleDoc -> checkCode doc' model' s' = s') /\
  diagnosticsTree (ext s') (uri sampleDoc)
  = diagnosticsTree (ext newSession) (uri sampleDoc) /\
  golangDiagnosticCollection (ext s') (uri sampleDoc)
  = golangDiagnosticCollection (ext newSession) (uri sampleDoc).
Proof.
  apply (@missing_model_locks_out (fun _ => None) sampleDoc (Some ""%string) newSession
           [Checked sampleDoc (Some "qwen3:1.7b"%string); Settled 0 None]).
  - intro u. split; [simpl; lia | intro H; now contradiction H].
  - reflexivity.
  - discriminate.
Defined.

(* ================================================================== *)
(** ** Siblings that do not overlap *)

Section ReplaceFacts.
Variables T RType : Type.
Variable cmp : RType -> RType -> Z.
Hypothesis law : Lawful cmp.

Local Abbreviation Tree := (RangeBinTree T RType).
Local Abbreviation Key := (Range RType).
Local Abbreviation Map := (TreeMap Key Tree).
Local Abbreviation cmpK := (@compare RType).

Lemma compare_le_start (r q : Key) :
  comparator r = cmp -> cmpK r q <= 0 -> cmp (start r) (start q) <= 0.
Proof.
  intros Hr H. destruct (Z.eq_dec (cmpK r q) 0) as [E|N].
  - apply (compare_eq_iff r q Hr) in E. lia.
  - assert (Hlt : cmpK r q < 0) by lia.
    apply (compare_lt_iff r q Hr) in Hlt. lia.
Qed.

Lemma compare_gt_start (r q : Key) :
  comparator r = cmp -> 0 < cmpK r q -> cmp (start q) (start r) <= 0.
Proof.
  intros Hr H. apply (compare_gt_iff r q Hr) in H.
  apply (cmp_le_flip law). lia.
Qed.

(** A child at or below the query that does not answer it lies to its left,
    and a child above the query that does not answer it lies to its right. *)
Lemma unmatched_lower (q r : Key) :
  comparator q = cmp -> comparator r = cmp -> wellFormed q -> wellFormed r ->
  cmpK r q <= 0 -> matches q r = false -> leftOf r q.
Proof.
  intros Hq Hr Hwq Hwr Hle Hm. unfold leftOf. rewrite Hr.
  destruct (Z_lt_le_dec (cmp (end_ r) (start q)) 0) as [|Hge]; [assumption|exfalso].
  assert (Hyes : matches q r = true); [|congruence].
  apply (matches_overlap_iff law Hq Hr Hwq Hwr).
  unfold wellFormed in Hwq. rewrite Hq in Hwq.
  split.
  - apply (cmp_trans law) with (start q); [|assumption].
    now apply compare_le_start.
  - now apply (cmp_le_flip law).
Qed.

Lemma unmatched_higher (q r : Key) :
  comparator q = cmp -> comparator r = cmp -> wellFormed q -> wellFormed r ->
  0 < cmpK r q -> matches q r = false -> leftOf q r.
Proof.
  intros Hq Hr Hwq Hwr Hgt Hm. unfold leftOf. rewrite Hq.
  destruct (Z_lt_le_dec (cmp (end_ q) (start r)) 0) as [|Hge]; [assumption|exfalso].
  assert (Hyes : matches q r = true); [|congruence].
  apply (matches_overlap_iff law Hq Hr Hwq Hwr).
  unfold wellFormed in Hwr. rewrite Hr in Hwr.
  split.
  - now apply (cmp_le_flip law).
  - apply (cmp_trans law) with (start r); [|assumption].
    now apply compare_gt_start.
Qed.

(** [replaceIntersecting] among siblings that do not overlap. *)
Lemma replace_among_disjoint (this : Tree) (q : Key) (v : T) :
  childrenOk cmp (children this) ->
  siblingsDisjoint (children this) -> siblingsWellFormed (children this) ->
  comparator q = cmp -> wellFormed q ->
  exists A H,
    children (replaceIntersecting this q v) = A ++ (q, newRangeBinTree q v) :: H /\
    A ++ H = filter (fun e => negb (matches q (fst e))) (children this) /\
    Forall (fun e => cmpK (fst e) q < 0) A /\
    Forall (fun e => 0 < cmpK (fst e) q) H /\
    siblingsDisjoint (A ++ (q, newRangeBinTree q v) :: H) /\
    siblingsWellFormed (A ++ (q, newRangeBinTree q v) :: H).
Proof.
  intros Hok Hd Hwf Hq Hwq.
  pose proof Hwq as Hwq'. unfold wellFormed in Hwq'. rewrite Hq in Hwq'.
  pose proof (disjoint_apart Hd) as Hap.
  set (A := rev (dropWhile (fun e : Key * Tree => matches q (fst e))
                   (rev (splitLower cmpK q true (children this))))).
  set (H := dropWhile (fun e : Key * Tree => matches q (fst e))
              (splitHigher cmpK q false (children this))).
  assert (HAH : A ++ H = filter (fun e => negb (matches q (fst e))) (children this)).
  { rewrite <- (remove_all_matching law this q Hok Hap Hwf Hwq').
    apply eq_sym, (remove_runs law this q Hok). }
  assert (HA : Forall (fun e => cmpK (fst e) q < 0) A)
    by apply (beyond_lower_strict law q Hok).
  assert (HH : Forall (fun e => 0 < cmpK (fst e) q) H)
    by apply beyond_higher.
  assert (Hin : forall e, In e (A ++ H) ->
                  In e (children this) /\ matches q (fst e) = false).
  { intros e He. rewrite HAH in He. apply filter_In in He.
    destruct He as [He Hm]. split; [assumption | now apply negb_true_iff]. }
  assert (Hleft : forall e, In e A -> leftOf (fst e) q).
  { intros e He. destruct (Hin e (in_or_app _ _ _ (or_introl He))) as [Hc Hm].
    unfold siblingsWellFormed in Hwf. rewrite Forall_forall in HA, Hwf.
    apply unmatched_lower; try assumption.
    - apply (childrenOk_cmp e Hok Hc).
    - now apply Hwf.
    - pose proof (HA e He). lia. }
  assert (Hright : forall e, In e H -> leftOf q (fst e)).
  { intros e He. destruct (Hin e (in_or_app _ _ _ (or_intror He))) as [Hc Hm].
    unfold siblingsWellFormed in Hwf. rewrite Forall_forall in HH, Hwf.
    apply unmatched_higher; try assumption.
    - apply (childrenOk_cmp e Hok Hc).
    - now apply Hwf.
    - now apply HH. }
  assert (Hd' : siblingsDisjoint (A ++ H)).
  { rewrite HAH. now apply StronglySorted_filter. }
  apply StronglySorted_app_inv in Hd'. destruct Hd' as (HdA & HdH & Hcross).
  exists A, H. split; [apply (replace_children law this q v Hok)|].
  split; [assumption|]. split; [assumption|]. split; [assumption|]. split.
  - apply StronglySorted_app; [assumption | |].
    + constructor; [assumption|]. apply Forall_forall. intros e He. now apply Hright.
    + intros x y Hx [<-|Hy]; [now apply Hleft | now apply Hcross].
  - assert (Hw' : siblingsWellFormed (A ++ H))
      by (rewrite HAH; now apply siblingsWellFormed_filter).
    unfold siblingsWellFormed in *. rewrite Forall_app in *.
    destruct Hw' as [HwA HwH]. split; [assumption|]. now constructor.
Qed.
End ReplaceFacts.

(** X27. [replaceIntersecting] keeps siblings from overlapping: on a node
    whose children are well-formed, in order and pairwise non-overlapping,
    and for a well-formed range, the node afterwards has the same three
    properties; its children are the new child and the earlier children that
    neither intersect the range nor lie inside it; and [find] of the range
    returns the new child and nothing else. *)
Theorem replaceIntersecting_keeps_disjoint (T RType : Type)
    (cmp : RType -> RType -> Z) (this : RangeBinTree T RType)
    (q : Range RType) (v : T) :
  Lawful cmp -> childrenOk cmp (children this) ->
  siblingsDisjoint (children this) -> siblingsWellFormed (children this) ->
  comparator q = cmp -> wellFormed q ->
  let after := replaceIntersecting this q v in
  childrenOk cmp (children after) /\
  siblingsDisjoint (children after) /\
  siblingsWellFormed (children after) /\
  (forall e, In e (children after) <->
     e = (q, newRangeBinTree q v) \/
     (In e (children this) /\ matches q (fst e) = false)) /\
  find after q = [Some (newRangeBinTree q v)].
Proof.
  intros law Hok Hd Hwf Hq Hwq after.
  destruct (replace_among_disjoint law this v Hok Hd Hwf Hq Hwq)
    as (A & H & Hch & HAH & HA & HH & Hd' & Hwf').
  fold after in Hch.
  pose proof (replaceIntersecting_ok law this q v Hok Hq) as Hok'. fold after in Hok'.
  rewrite Hch in *.
  split; [assumption|]. split; [assumption|]. split; [assumption|]. split.
  - intro e. rewrite in_app_iff. simpl.
    assert (Hmem : In e (A ++ H) <->
                   In e (children this) /\ matches q (fst e) = false).
    { rewrite HAH, filter_In, negb_true_iff. reflexivity. }
    rewrite in_app_iff in Hmem. split.
    + intros [He|[<-|He]]; [right; apply Hmem; now left | now left |
                             right; apply Hmem; now right].
    + intros [->|He]; [right; now left|].
      apply Hmem in He. destruct He as [He|He]; [now left | right; now right].
  - assert (Hfind : find after q =
             map Some
               (map snd (rev (filter (fun e => matches q (fst e))
                                (splitLower (@compare RType) q true (children after))))
                ++ map snd (filter (fun e => matches q (fst e))
                              (splitHigher (@compare RType) q false (children after))))).
    { apply (find_all_matching law).
      - now rewrite Hch.
      - rewrite Hch. now apply disjoint_apart.
      - now rewrite Hch.
      - unfold wellFormed in Hwq. now rewrite Hq in Hwq. }
    rewrite Hfind, Hch.
    assert (Hlow : Forall (fun e : Range RType * RangeBinTree T RType =>
                             compare (fst e) q <= 0)
                     (A ++ [(q, newRangeBinTree q v)])).
    { rewrite Forall_app. split.
      - eapply Forall_impl; [|exact HA]. intros e He. cbv beta in He. lia.
      - repeat constructor. simpl. rewrite (compare_refl law q Hq). lia. }
    replace (A ++ (q, newRangeBinTree q v) :: H)
      with ((A ++ [(q, newRangeBinTree q v)]) ++ H) by now rewrite <- app_assoc.
    rewrite (@splitLower_app _ _ q _ _ Hlow HH), (@splitHigher_app _ _ q _ _ Hlow HH).
    assert (Hnone : forall l, (forall e, In e l -> In e (A ++ H)) ->
              filter (fun e : Range RType * RangeBinTree T RType => matches q (fst e)) l
              = []).
    { intros l Hl. apply filter_none. apply Forall_forall. intros e He.
      specialize (Hl e He). rewrite HAH in Hl. apply filter_In in Hl.
      now apply negb_true_iff. }
    rewrite filter_app, (Hnone A), (Hnone H);
      [| intros e He; apply in_or_app; now right
       | intros e He; apply in_or_app; now left].
    simpl.
    assert (Hmq : matches q q = true)
      by (eapply matches_equal_key; [eassumption | now apply (compare_refl law)]).
    now rewrite Hmq.
Qed.

Lemma replaceIntersecting_keeps_disjoint_witness :
  let after := replaceIntersecting threeSiblings (NumberRange 4 7) 42%nat in
  childrenOk compareNumbers (children after) /\
  siblingsDisjoint (children after) /\
  siblingsWellFormed (children after) /\
  (forall e, In e (children after) <->
     e = (NumberRange 4 7, newRangeBinTree (NumberRange 4 7) 42%nat) \/
     (In e (children threeSiblings) /\ matches (NumberRange 4 7) (fst e) = false)) /\
  find after (NumberRange 4 7) = [Some (newRangeBinTree (NumberRange 4 7) 42%nat)].
Proof.
  apply (@replaceIntersecting_keeps_disjoint nat Z compareNumbers threeSiblings
           (NumberRange 4 7) 42%nat).
  - exact compareNumbers_lawful.
  - solve_childrenOk.
  - repeat constructor; vm_compute; reflexivity.
  - repeat constructor; vm_compute; discriminate.
  - reflexivity.
  - vm_compute. discriminate.
Defined.

(* ================================================================== *)
(** ** The two revisions of the results callback *)

Section RevisionFacts.

Lemma earlier_published (doc : TextDocument) (results : list AnalysisReport)
    (st : ExtState) :
  golangDiagnosticCollection (resultsProcessor_earlier doc results st) (uri doc)
  = Some (map snd (resolved doc results)).
Proof.
  unfold resultsProcessor_earlier. simpl. rewrite uriSet_eq, String.eqb_refl.
  f_equal.
  assert (Hgen : forall acc,
    fold_left
      (fun documentDiagnostics result =>
         match getLineText doc (reportLine (location result) - 1) with
         | None => documentDiagnostics
         | Some lineText =>
             if indexOf lineText (snippet (location result)) <? 0
             then documentDiagnostics
             else
               documentDiagnostics ++
               [mkDiagnostic
                  (vscodeRange
                     (mkPosition (reportLine (location result) - 1)
                        (indexOf lineText (snippet (location result))))
                     (mkPosition (reportLine (location result) - 1)
                        (indexOf lineText (snippet (location result))
                         + Z.of_nat (String.length (snippet (location result))))))
                  (description result) SeverityWarning]
         end) results acc
    = acc ++ map snd (resolved doc results)); [|apply (Hgen [])].
  induction results as [|r results IH]; intro acc; simpl.
  - now rewrite app_nil_r.
  - rewrite IH. unfold resolved at 2. simpl. fold (resolved doc results).
    unfold resolveRange.
    destruct (getLineText doc (reportLine (location r) - 1)) as [lineText|];
      [|reflexivity].
    destruct (indexOf lineText (snippet (location r)) <? 0); [reflexivity|].
    simpl. now rewrite <- app_assoc.
Qed.

Lemma evict_nothing (found : list (Range Position * Diagnostic)) (t : DiagTree) :
  children t = [] -> children (evictAll found t) = [].
Proof.
  intro Ht. destruct (children (evictAll found t)) as [|e l] eqn:E; [reflexivity|].
  exfalso. assert (He : In e (children t))
    by (apply evict_incl with found; rewrite E; now left).
  now rewrite Ht in He.
Qed.

Lemma sorted_NoDup (l : list Diagnostic) : StronglySorted rangeBefore l -> NoDup l.
Proof.
  induction 1 as [|d l Hl IH Hd]; constructor; [|assumption].
  intro Hin. rewrite Forall_forall in Hd. specialize (Hd d Hin).
  unfold rangeBefore in Hd.
  rewrite !(cmp_refl comparePositions_lawful) in Hd. lia.
Qed.

Lemma ordPairs_later (A : Type) (R : A -> A -> Prop) (l1 l2 : list A) (p : A) :
  ForallOrdPairs R (l1 ++ p :: l2) -> Forall (R p) l2.
Proof.
  induction l1 as [|a l1 IH]; simpl; intro H; inversion H; subst;
    [assumption | now apply IH].
Qed.

(** The diagnostics of the first batch of a document. *)
Lemma first_batch (doc : TextDocument) (results : list AnalysisReport) :
  let found := resolved doc results in
  let published :=
    map (@node Diagnostic Position) (values (children (appliedBatch found stubTree))) in
  StronglySorted rangeBefore published /\
  incl published (map snd found) /\
  (ForallOrdPairs (fun p p' => compare (fst p) (fst p') <> 0) found ->
   Permutation (map snd found) published).
Proof.
  intros found published.
  destruct (resolved_ranges doc results) as [Hcmp _]. fold found in Hcmp.
  assert (Hstub : diagnosticsOk stubTree)
    by (split; [split; constructor | constructor]).
  destruct (appliedBatch_ok doc results Hstub) as [Hok Hd]. fold found in Hok, Hd.
  assert (Hempty : children (evictAll found stubTree) = [])
    by now apply evict_nothing.
  assert (Hmem : forall e,
            In e (children (appliedBatch found stubTree)) <->
            exists l1 p l2,
              found = l1 ++ p :: l2 /\ e = childOf p /\
              Forall (fun p' => compare (fst p) (fst p') <> 0) l2).
  { intro e. unfold appliedBatch. rewrite addChildren_children, Hempty.
    rewrite (@inserted_In _ _ _ comparePositions_lawful found [] e);
      [|split; constructor | assumption].
    split; [intros [He|[[] _]]; exact He | intro He; now left]. }
  assert (Hsorted : StronglySorted rangeBefore published)
    by now apply published_sorted.
  assert (Hincl : incl published (map snd found)).
  { intros d Hin. unfold published, values in Hin. rewrite map_map in Hin.
    apply in_map_iff in Hin. destruct Hin as (e & <- & He).
    apply Hmem in He. destruct He as (l1 & p & l2 & Hf & -> & _).
    simpl. apply in_map. rewrite Hf. apply in_or_app. right. now left. }
  split; [assumption|]. split; [assumption|].
  intro Hdistinct.
  apply NoDup_Permutation; [| now apply sorted_NoDup |].
  - pose proof (resolved_diagnostics doc results) as Hr. fold found in Hr.
    clear - Hdistinct Hr Hcmp.
    induction Hdistinct as [|p l Hp _ IH]; simpl; [constructor|].
    pose proof (Forall_inv Hr) as Hrp. pose proof (Forall_inv Hcmp) as Hcp.
    apply Forall_inv_tail in Hr. apply Forall_inv_tail in Hcmp.
    constructor; [|now apply IH].
    intro Hin. apply in_map_iff in Hin. destruct Hin as (p' & Heq & Hp').
    rewrite Forall_forall in Hp, Hr. apply (Hp p' Hp').
    specialize (Hr p' Hp'). cbv beta in Hrp, Hr. rewrite Heq, Hrp in Hr.
    injection Hr as Hs He.
    unfold compare. cbv beta in Hcp. rewrite Hcp, Hs, He.
    now rewrite !(cmp_refl comparePositions_lawful).
  - intro d. split; [|apply Hincl].
    intro Hin. apply in_map_iff in Hin. destruct Hin as (p & <- & Hp).
    destruct (in_split _ _ Hp) as (l1 & l2 & Hf).
    unfold published, values. rewrite map_map.
    apply in_map_iff. exists (childOf p). split; [reflexivity|].
    apply Hmem. exists l1, p, l2. split; [assumption|]. split; [reflexivity|].
    rewrite Hf in Hdistinct. now apply ordPairs_later in Hdistinct.
Qed.
End RevisionFacts.

(** X28. The two revisions of the results callback on the first batch of a
    document: the earlier one publishes the diagnostics of the findings that
    resolve, in the order of the batch; the later one publishes diagnostics
    among these, in ascending order of their ranges, and when no two of the
    ranges compare equal it publishes all of them, the same diagnostics in
    another order. *)
Theorem revisions_agree_on_first_batch (doc : TextDocument)
    (results : list AnalysisReport) (st : ExtState) :
  diagnosticsTree st (uri doc) = None ->
  exists earlier later,
    golangDiagnosticCollection (resultsProcessor_earlier doc results st) (uri doc)
      = Some earlier /\
    golangDiagnosticCollection (resultsProcessor doc results st) (uri doc)
      = Some later /\
    earlier = map snd (resolved doc results) /\
    StronglySorted rangeBefore later /\
    incl later earlier /\
    (ForallOrdPairs (fun p p' => compare (fst p) (fst p') <> 0) (resolved doc results) ->
     Permutation earlier later).
Proof.
  intro Hnone.
  destruct (resultsProcessor_at doc results st (uri doc)) as [_ Hpub].
  rewrite String.eqb_refl in Hpub. unfold treeOf in Hpub. rewrite Hnone in Hpub.
  destruct (first_batch doc results) as (Hs & Hi & Hp).
  eexists. eexists.
  split; [apply earlier_published|]. split; [exact Hpub|].
  split; [reflexivity|]. split; [exact Hs|]. split; [exact Hi | exact Hp].
Qed.

Lemma revisions_agree_on_first_batch_witness :
  exists earlier later,
    golangDiagnosticCollection
      (resultsProcessor_earlier sampleDoc [lateFinding; narrowFinding] emptyState)
      (uri sampleDoc) = Some earlier /\
    golangDiagnosticCollection
      (resultsProcessor sampleDoc [lateFinding; narrowFinding] emptyState)
      (uri sampleDoc) = Some later /\
    earlier = map snd (resolved sampleDoc [lateFinding; narrowFinding]) /\
    StronglySorted rangeBefore later /\
    incl later earlier /\
    (ForallOrdPairs (fun p p' => compare (fst p) (fst p') <> 0)
       (resolved sampleDoc [lateFinding; narrowFinding]) ->
     Permutation earlier later).
Proof.
  apply (@revisions_agree_on_first_batch sampleDoc [lateFinding; narrowFinding]
           emptyState).
  reflexivity.
Defined.

(* ================================================================== *)
(** ** The text sent to the model *)

Section TextFacts.
Local Open Scope string_scope.

Lemma hasNewline_append (a b : string) :
  hasNewline (a ++ b) = hasNewline a || hasNewline b.
Proof.
  induction a as [|c a IH]; simpl; [reflexivity|]. now rewrite IH, orb_assoc.
Qed.

Lemma digits_clean (d : Decimal.uint) :
  hasNewline (DecimalString.NilEmpty.string_of_uint d) = false.
Proof. induction d; simpl; [reflexivity | assumption ..]. Qed.

Lemma numberToString_clean (n : Z) : hasNewline (numberToString n) = false.
Proof.
  unfold numberToString, DecimalString.NilZero.string_of_int,
    DecimalString.NilZero.string_of_uint.
  destruct (Z.to_int n) as [d|d]; destruct d; try reflexivity;
    simpl; apply digits_clean.
Qed.

Lemma splitLines_clean (s : string) :
  Forall (fun line => hasNewline line = false) (splitLines s).
Proof.
  induction s as [|c s IH]; simpl; [now repeat constructor|].
  destruct (Ascii.eqb c newline) eqn:E; [now constructor|].
  destruct (splitLines s) as [|line rest]; [repeat constructor; simpl; now rewrite E|].
  pose proof (Forall_inv IH) as Hl. apply Forall_inv_tail in IH.
  constructor; [simpl; now rewrite E | assumption].
Qed.

Lemma splitLines_line (a rest : string) :
  hasNewline a = false ->
  splitLines (a ++ String newline rest) = a :: splitLines rest.
Proof.
  induction a as [|c a IH]; simpl; intro H; [reflexivity|].
  apply orb_false_iff in H. destruct H as [Hc Ha].
  now rewrite Hc, (IH Ha).
Qed.

Lemma splitLines_unlines (lines : list string) :
  Forall (fun line => hasNewline line = false) lines ->
  splitLines (unlines lines) = (lines ++ [""])%list.
Proof.
  induction 1 as [|line lines Hl _ IH]; simpl; [reflexivity|].
  rewrite splitLines_line by exact Hl. now rewrite IH.
Qed.

Lemma unlines_app (l1 l2 : list string) :
  unlines (l1 ++ l2)%list = unlines l1 ++ unlines l2.
Proof.
  induction l1 as [|a l1 IH]; simpl; [reflexivity|].
  rewrite IH. rewrite append_assoc. reflexivity.
Qed.

Lemma labelled_clean (lines : list string) :
  forall k, Forall (fun line => hasNewline line = false) lines ->
  Forall (fun line => hasNewline line = false) (labelled k lines).
Proof.
  induction lines as [|line lines IH]; intros k H; cbn [labelled]; [constructor|].
  pose proof (Forall_inv H) as Hl. apply Forall_inv_tail in H.
  constructor; [|now apply IH].
  rewrite !hasNewline_append, Hl, numberToString_clean. reflexivity.
Qed.

Lemma labelled_nth (lines : list string) :
  forall k i,
    nth_error (labelled k lines) i =
    option_map (fun line => line ++ " // line " ++ numberToString (k + Z.of_nat i))
      (nth_error lines i).
Proof.
  induction lines as [|line lines IH]; intros k i; destruct i as [|i];
    cbn [labelled nth_error option_map]; try reflexivity.
  - now rewrite Z.add_0_r.
  - rewrite IH. destruct (nth_error lines i); cbn [option_map]; [|reflexivity].
    do 4 f_equal. lia.
Qed.

Lemma addLineComments_unlines (sourceCode : string) (startLineNumber : Z) :
  addLineComments sourceCode startLineNumber
  = unlines (labelled startLineNumber (splitLines sourceCode)).
Proof.
  unfold addLineComments.
  assert (Hgen : forall lines k acc,
    snd (fold_left
           (fun (st : Z * string) (line : string) =>
              (fst st + 1,
               snd st ++ line ++ " // line " ++ numberToString (fst st)
               ++ String newline ""))
           lines (k, acc))
    = acc ++ unlines (labelled k lines)); [|apply (Hgen _ _ "")].
  induction lines as [|line lines IH]; intros k acc;
    cbn [fold_left labelled unlines fold_right fst snd].
  - now rewrite append_empty_r.
  - rewrite IH. rewrite !append_assoc. reflexivity.
Qed.

Lemma performCodeCheck_unlines (requests : list AnalysisRequest) :
  performCodeCheck requests
  = unlines (flat_map (fun r => labelled (startLine r + 1) (splitLines (text r)))
               requests).
Proof.
  unfold performCodeCheck.
  assert (Hgen : forall acc,
    fold_left
      (fun (sb : string) (r : AnalysisRequest) =>
         sb ++ addLineComments (text r) (startLine r + 1))
      requests acc
    = acc ++ unlines (flat_map (fun r => labelled (startLine r + 1) (splitLines (text r)))
                        requests)); [|apply (Hgen "")].
  induction requests as [|r requests IH]; intro acc; simpl.
  - now rewrite append_empty_r.
  - rewrite IH, addLineComments_unlines, unlines_app, append_assoc. reflexivity.
Qed.
End TextFacts.

(** X29. [addLineComments] labels every line: the text it returns has, line
    by line, the lines of the source, each followed by [ // line ] and its
    number, the numbers counting up from [startLineNumber], and ends with a
    line break.  The text [performCodeCheck] builds has these lines for each
    request in turn, the first line of a request numbered [startLine + 1]. *)
Theorem line_comments_label_every_line (sourceCode : string) (startLineNumber : Z)
    (requests : list AnalysisRequest) :
  splitLines (addLineComments sourceCode startLineNumber)
    = labelled startLineNumber (splitLines sourceCode) ++ [EmptyString] /\
  (forall i,
     nth_error (labelled startLineNumber (splitLines sourceCode)) i =
     option_map
       (fun line =>
          (line ++ " // line " ++ numberToString (startLineNumber + Z.of_nat i))%string)
       (nth_error (splitLines sourceCode) i)) /\
  splitLines (performCodeCheck requests)
    = flat_map (fun r => labelled (startLine r + 1) (splitLines (text r))) requests
      ++ [EmptyString].
Proof.
  split; [|split].
  - rewrite addLineComments_unlines. apply splitLines_unlines.
    apply labelled_clean, splitLines_clean.
  - intro i. apply labelled_nth.
  - rewrite performCodeCheck_unlines. apply splitLines_unlines.
    apply Forall_forall. intros line Hin. apply in_flat_map in Hin.
    destruct Hin as (r & _ & Hin).
    pose proof (labelled_clean (startLine r + 1) (splitLines_clean (text r))) as Hc.
    rewrite Forall_forall in Hc. now apply Hc.
Qed.

(* ================================================================== *)
(** ** The functions to analyse *)

(** X30. [findFunctionsByNames] returns the values of the direct children
    of the node that are function declarations with a name that is not
    empty and is among the names given, in the order of the children map,
    each child once.  The order of the names and their repetition do not
    matter, and with no names it returns nothing. *)
Theorem findFunctionsByNames_selects (T RType : Type) (nodeType : T -> string)
    (nameText : T -> option string) (tree : RangeBinTree T RType)
    (names names' : list string) :
  findFunctionsByNames nodeType nameText tree names
    = filter (fun n => String.eqb (nodeType n) "function_declaration"
                       && named nameText names n)
        (map (@node T RType) (values (children tree))) /\
  findFunctionsByNames nodeType nameText tree [] = [] /\
  ((forall x, In x names <-> In x names') ->
   findFunctionsByNames nodeType nameText tree names
   = findFunctionsByNames nodeType nameText tree names').
Proof.
  assert (Hsel : forall names,
    findFunctionsByNames nodeType nameText tree names
    = filter (fun n => String.eqb (nodeType n) "function_declaration"
                       && named nameText names n)
        (map (@node T RType) (values (children tree)))).
  { intro ns. unfold findFunctionsByNames, forEachChildren.
    generalize (values (children tree)). intro l.
    assert (Hgen : forall acc,
      fold_left (fun acc (c : RangeBinTree T RType) =>
                   if String.eqb (nodeType (node c)) "function_declaration"
                   then (if named nameText ns (node c) then acc ++ [node c] else acc)
                   else acc) l acc
      = acc ++ filter (fun n => String.eqb (nodeType n) "function_declaration"
                                && named nameText ns n)
                 (map (@node T RType) l)); [|apply (Hgen [])].
    induction l as [|c l IH]; intro acc; simpl; [now rewrite app_nil_r|].
    rewrite IH.
    destruct (String.eqb (nodeType (node c)) "function_declaration"); simpl;
      [|reflexivity].
    destruct (named nameText ns (node c)); [now rewrite <- app_assoc | reflexivity]. }
  split; [apply Hsel|]. split.
  - rewrite Hsel. apply filter_none. apply Forall_forall. intros n _.
    unfold named. destruct (nameText n); simpl; [|apply andb_false_r].
    now rewrite !andb_false_r.
  - intro Hsame. rewrite !Hsel. apply filter_ext. intro n. f_equal.
    unfold named. destruct (nameText n) as [f|]; [|reflexivity]. f_equal.
    apply eq_true_iff_eq. rewrite !existsb_exists.
    split; intros (x & Hx & Hfx); exists x; (split; [now apply Hsame | assumption]).
Qed.

Lemma findFunctionsByNames_selects_witness :
  findFunctionsByNames (fun n : nat => "function_declaration"%string)
    (fun n : nat => if Nat.eqb n 6 then Some "main"%string else Some "init"%string)
    threeSiblings ["main"%string; "main"%string; "run"%string]
  = findFunctionsByNames (fun n : nat => "function_declaration"%string)
      (fun n : nat => if Nat.eqb n 6 then Some "main"%string else Some "init"%string)
      threeSiblings ["run"%string; "main"%string].
Proof.
  apply (@findFunctionsByNames_selects nat Z
           (fun n : nat => "function_declaration"%string)
           (fun n : nat => if Nat.eqb n 6 then Some "main"%string else Some "init"%string)
           threeSiblings ["main"%string; "main"%string; "run"%string]
           ["run"%string; "main"%string]).
  intro x. simpl. tauto.
Defined.
